(* ===== verification/_CoqProject ===== *)
-Q . S2P
Prelude.v
CInt.v
IStream.v
Numeral.v
IO.v
ReadFile.v
AList.v
Tree.v
OrderedMap.v
Unbalanced.v
SplayTree.v
RedBlack.v
Balance.v
Harness.v
Structures.v
