(* ===== verification/Prelude.v ===== *)
(** * Tree benchmark: a verification development

    ** The program

    The program is a benchmark driver ([src/code/main.cpp]) that loads
    integer data sets from text files and times batches of [put],
    [contains] and [del] on three ordered maps over [int] keys: an
    unbalanced binary search tree, a splay tree and a red-black tree.
    [main] loops over two sets and three data files; for each it calls
    [readFile] on the insert, search and delete file, skips the data set
    when there is no insert data, and otherwise runs the same block on
    each of the three structures: insert every value as key and value,
    then look every search key up, then delete every delete key, each
    phase between two samples of the clock and followed by a line with
    the elapsed microseconds.

    The driver is the only translation unit of the repository.  The
    tree headers ([BST.h], [SplayTree.h], [RBTree.h]) are not part of
    the sources, so the three trees are modelled from the design
    document ([spec.md], sections 3 and 4); the driver, its two loaders
    and the library calls they make are modelled from the source.

    ** Files, and what each models

    - [Prelude] (this file): the libraries every file loads, the scope
      [bench_scope], the tactic [case_cmp], the hint database [bench],
      and the lemmas on strings and integers the components share.
    - [CInt]: the machine integers of the driver: [INT_MAX], the range
      of [long long], the truncating remainder [%] ([c_rem]) and
      [static_cast<int>] with its wrap-around ([static_cast_int]);
      [to_key] is the expression of main.cpp:36.
    - [IStream]: the stream calls of the loaders as functions on the
      unread text: [extract_ll] is [iss >> value] (main.cpp:35),
      [getline] is [std::getline] (main.cpp:25, 61), [stoll] is
      [std::stoll] (main.cpp:64); [drain] is a [while] loop over a
      stream, with fuel.
    - [Numeral]: the decimal text of an integer ([pretty]) is read back
      by [extract_ll] and [stoll].
    - [IO]: the world of the driver (files, clock, console) and the
      monad [IO] of computations over it; [cout], [now], [open_file],
      [index], [for_each]; one [event] per output statement, [render]
      its exact text.  A computation has no result where the program
      would have undefined behaviour.
    - [ReadFile]: [readFile] (main.cpp:15-42) and [readFileAlternative]
      (main.cpp:45-75), with [replace_commas], [parse_line],
      [read_lines] for the loops of the former and [parse_token],
      [read_line_alt] for those of the latter.
    - [AList]: sorted association lists, the reference model of an
      ordered map, and the finite map ([gmap]) a list denotes.
    - [Tree]: binary nodes with a tag, in-order traversal, search,
      rotations, and paths: [descend] walks down to a key and returns
      the ancestors, [plug] walks back up.  Paths stand for the parent
      references of the design document.
    - [OrderedMap]: the contract of the three structures as a class of
      operations ([OrderedMap]) and a class of laws ([OrderedMapLaws]):
      each operation is specified by what it does to the in-order
      traversal.  [contents], written [⟦t⟧], is the finite map a
      structure stands for; [reachable] the structures a client can
      build; [same_map], written [≈], equality as maps.
    - [Unbalanced] (module [BST]), [SplayTree] (module [Splay]),
      [RedBlack] (module [RB]): the three structures, each a record of a
      root and a count with [put], [contains], [del], and the proof that
      each operation performs the operation of [AList] on the
      traversal.  [Balance]: the colour invariants of the red-black
      tree are preserved, and bound its height.
    - [Harness]: [main] (main.cpp:77-204): [insert_phase],
      [search_phase], [delete_phase] are the three loops of a block,
      [timed] a phase between two clock samples, [bench_block] the block
      (written once over the contract; the source repeats it for each
      class), [run_dataset], [run_set] and [main] the loops around it.
    - [Structures]: the results of [Harness] at each of the three
      structures, and what is particular to each.

    ** What is proved

    - Input ([CInt], [Numeral], [ReadFile]).  The conversion of
      main.cpp:36 never wraps ([to_key_exact]); [readFile] always
      returns and prints one line ([readFile_total]), returns keys
      strictly between [-INT_MAX] and [INT_MAX] ([readFile_keys]), the
      empty data set for a file that does not open
      ([readFile_unreadable]), and on a file of printed numbers returns
      exactly the keys of the numbers ([readFile_roundtrip], from
      [numeral_roundtrip]).  A token that is no number ends its line
      without a warning ([parse_line_stops]), which is not what the
      design document says.  [readFileAlternative], which [main] never
      calls, always returns, with keys in the same range and one
      warning per token [stoll] rejects
      ([readFileAlternative_spec]); it loads the same keys as
      [readFile] from comma-separated numbers ([loaders_agree]), skips
      a rejected token and keeps the rest of the line
      ([readFileAlternative_skips]), and silently drops what follows
      a number inside a token ([readFileAlternative_truncates]).
    - Contract ([OrderedMap]).  A structure that satisfies the laws
      refines a finite map: [contents_put], [contents_del],
      [contents_contains], [contains_contents], [count_contents]; every
      reachable structure satisfies its invariant ([reachable_inv]);
      the operations respect equality as maps (the [Proper] instances).
    - Structures.  Each of the three satisfies the laws
      ([bst_ordered_map_laws], [splay_ordered_map_laws],
      [rb_ordered_map_laws]).  For the splay tree this rests on
      [inorder_splay] and [inorder_join], for the red-black tree on
      [inorder_insert_fixup], [inorder_delete_fixup] and, for the
      colours, on [insert_fixup_almost] and [delete_fixup_rbt], which
      follow the cases of the design document.  A red-black tree has
      logarithmic height ([red_black_height]); a splayed node is the
      root ([splay_root]).
    - Harness ([Harness], [Structures]).  The tree a block ends with
      stands for the map of the inserted values minus the deleted keys,
      whatever the structure ([block_refines], [block_membership],
      [block_ordered]) and in particular for each of the three
      ([bst_block_correct], [splay_block_correct],
      [rb_block_correct]), which therefore agree
      ([structures_agree]); a search phase changes nothing that can be
      observed ([search_phase_transparent]); [main] always returns 0
      and never indexes a vector out of bounds ([main_total]); what a
      block and a skipped data set print ([bench_block_output],
      [run_dataset_skips]), with durations that are not negative when
      the clock does not run backwards ([reported_times_nonneg]).  An
      insert phase binds every key of the data to itself and leaves
      the other keys alone, so that a second pass changes nothing
      ([insert_phase_idempotent]); a delete phase of absent keys
      changes nothing ([delete_phase_absent]).  Particular to a
      structure: the red-black tree of a block has logarithmic height
      ([rb_block_balanced]), the unbalanced tree degenerates to a
      list on sorted input ([bst_sorted_input_linear]), the splay tree
      has the last key accessed at its root ([splay_access_to_root]).

    ** Bounds and fuel

    Integers are [Z] with their range as a predicate: a [long long] is
    [in_llong], a key is [key_ok]; an extraction that overflows
    [long long] fails as the library does ([ScanRange]).  The loops over
    a stream ([drain_all]) run with fuel one more than the length of
    the unread text; every step that succeeds consumes at least one
    character ([extract_ll_progresses], [getline_progresses]), so the
    fuel is never exhausted ([drain_all_fuel]: more fuel gives the same
    result).  Trees are unbounded; the walks on paths are structurally
    recursive, so no fuel is needed.  The clock is an arbitrary function
    from the number of the sample to nanoseconds: the period of
    [high_resolution_clock] is taken to be the nanosecond (as in
    libstdc++ and libc++), so that [duration_cast<microseconds>] is the
    truncating division by 1000 ([elapsed_us]); samples and durations
    are unbounded, the 64-bit counter of the library is not modelled.

    ** What is not modelled

    The parent references of the design document (replaced by paths),
    memory ownership and destructors, the contents of the data files
    (the theorems hold for every content), failure of output, locales
    other than "C", and the cost of the operations: the development
    proves what the benchmark computes and prints, not how long it
    takes.  The work of a timed phase is a total function of the tree
    ([timed] takes its result as a value): an operation of a tree that
    throws or does not return has no counterpart, and the three
    structures as modelled have none.

    ** Conventions

    A C++ [int] or [long long] is a [Z] together with a range predicate;
    a conversion that can wrap is written with its modulus.  A
    [std::string] is a [string]; a [std::vector<T>] is a [list T].
    Definitions keep the names of the source where it has them.  The
    main results of a file are at its end, each with a closed instance
    that evaluates it on concrete data. *)

From Stdlib Require Export ZArith Lia Ascii.
From stdpp Require Export base tactics option list numbers strings pretty.

#[global] Open Scope Z_scope.

Declare Scope bench_scope.
Delimit Scope bench_scope with bench.
#[global] Open Scope bench_scope.

(** The hint database of the development: facts that close the side
    conditions of the component lemmas. *)
Create HintDb bench discriminated.

(** ** Tactics *)

(** Case analysis on every boolean comparison of integers in the goal,
    replacing it by the order fact it decides. *)
Ltac case_cmp :=
  repeat match goal with
  | |- context [Z.ltb ?a ?b] => destruct (Z.ltb_spec a b)
  | |- context [Z.leb ?a ?b] => destruct (Z.leb_spec a b)
  | |- context [Z.eqb ?a ?b] => destruct (Z.eqb_spec a b)
  | H : context [Z.ltb ?a ?b] |- _ => destruct (Z.ltb_spec a b)
  | H : context [Z.leb ?a ?b] |- _ => destruct (Z.leb_spec a b)
  | H : context [Z.eqb ?a ?b] |- _ => destruct (Z.eqb_spec a b)
  end.

(** ** Strings *)

(** Every character of the string satisfies the test. *)
Fixpoint string_all (P : ascii → bool) (s : string) : bool :=
  match s with
  | String c s' => P c && string_all P s'
  | EmptyString => true
  end.

(** The string is not empty and its first character satisfies the test. *)
Definition starts_with (P : ascii → bool) (s : string) : bool :=
  match s with
  | String c _ => P c
  | EmptyString => false
  end.

(** The test for any character but [d]. *)
Definition not_char (d c : ascii) : bool := negb (Ascii.eqb c d).

(** Concatenation of a list of strings. *)
Definition string_concat (ss : list string) : string :=
  foldr String.app EmptyString ss.

Lemma string_app_nil_r s : s +:+ "" = s.
Proof. induction s; simpl; [done|]. unfold String.app in *. simpl. by f_equal. Qed.

Lemma string_app_assoc s1 s2 s3 : (s1 +:+ s2) +:+ s3 = s1 +:+ (s2 +:+ s3).
Proof. induction s1; [done|]. unfold String.app in *. simpl. by f_equal. Qed.

Lemma string_app_cons c s1 s2 : String c s1 +:+ s2 = String c (s1 +:+ s2).
Proof. done. Qed.

Lemma string_app_nonempty_r s1 s2 : s2 ≠ EmptyString → s1 +:+ s2 ≠ EmptyString.
Proof. by destruct s1, s2. Qed.

Lemma string_all_app P s1 s2 :
  string_all P (s1 +:+ s2) = string_all P s1 && string_all P s2.
Proof.
  induction s1 as [|c s1 IH]; [done|]. rewrite string_app_cons. simpl.
  rewrite IH. by rewrite andb_assoc.
Qed.

Lemma string_all_impl (P Q : ascii → bool) s :
  (∀ c, P c = true → Q c = true) → string_all P s = true → string_all Q s = true.
Proof.
  intros HPQ. induction s as [|c s IH]; simpl; [done|].
  rewrite !andb_true_iff. intros [??]. auto.
Qed.

Lemma starts_with_app P s1 s2 :
  s1 ≠ EmptyString → starts_with P (s1 +:+ s2) = starts_with P s1.
Proof. by destruct s1. Qed.

Lemma starts_with_all P Q s :
  (∀ c, Q c = true → P c = false) → string_all Q s = true →
  starts_with P s = false.
Proof.
  intros HQP. destruct s as [|c s]; simpl; [done|].
  rewrite andb_true_iff. intros [??]. auto.
Qed.

(** ** Integers *)

(** The truncating remainder is bounded by its divisor in absolute value
    and has the sign of the dividend. *)
Lemma Zrem_abs_bound (a b : Z) : 0 < b → - b < Z.rem a b < b.
Proof.
  intros Hb. pose proof (Z.rem_bound_abs a b). lia.
Qed.

Lemma Zrem_sign_nonneg (a b : Z) : 0 ≤ a → 0 < b → 0 ≤ Z.rem a b.
Proof. intros Ha Hb. apply Z.rem_nonneg; lia. Qed.

Lemma Zrem_sign_nonpos (a b : Z) : a ≤ 0 → 0 < b → Z.rem a b ≤ 0.
Proof.
  intros Ha Hb. apply Z.rem_nonpos; lia.
Qed.

#[export] Hint Resolve Zrem_sign_nonneg Zrem_sign_nonpos : bench.

(** ** Lists *)

Lemma concat_fmap_concat {A B} (f : A → list B) (ls : list (list A)) :
  concat (f <$> concat ls) = concat ((λ l, concat (f <$> l)) <$> ls).
Proof. induction ls as [|l ls IH]; simpl; [done|]. by rewrite fmap_app, concat_app, IH. Qed.
