(* ===== verification/CInt.v ===== *)
(** * CInt: the machine integers of the driver

    [main.cpp] reads every token as a [long long], reduces it with
    [value % INT_MAX] and converts the result to [int] (line 36).  This
    file gives the constants of [<climits>] the driver depends on, the
    truncating remainder of C++ and the narrowing conversion, and proves
    that the conversion never changes the value it is applied to. *)

From S2P Require Import Prelude.

(** ** Ranges *)

Definition INT_MAX : Z := 2147483647.
Definition INT_MIN : Z := -2147483648.
Definition LLONG_MAX : Z := 9223372036854775807.
Definition LLONG_MIN : Z := -9223372036854775808.

Definition in_int (z : Z) : Prop := INT_MIN ≤ z ≤ INT_MAX.
Definition in_llong (z : Z) : Prop := LLONG_MIN ≤ z ≤ LLONG_MAX.

#[export] Instance in_int_dec z : Decision (in_int z).
Proof. unfold in_int. apply _. Defined.
#[export] Instance in_llong_dec z : Decision (in_llong z).
Proof. unfold in_llong. apply _. Defined.

(** ** Operations *)

(** [a % b] on [long long]: the quotient is truncated toward zero, so the
    remainder has the sign of [a]. *)
Definition c_rem (a b : Z) : Z := Z.rem a b.

(** [static_cast<int>(z)]: the value modulo [2^32] in two's complement. *)
Definition static_cast_int (z : Z) : Z :=
  (z + 2 ^ 31) mod 2 ^ 32 - 2 ^ 31.

(** The key the driver stores for a parsed value:
    [static_cast<int>(value % INT_MAX)]. *)
Definition to_key (value : Z) : Z := static_cast_int (c_rem value INT_MAX).

(** ** Properties *)

Lemma static_cast_int_range z : in_int (static_cast_int z).
Proof.
  unfold in_int, static_cast_int, INT_MIN, INT_MAX.
  pose proof (Z.mod_pos_bound (z + 2 ^ 31) (2 ^ 32)). lia.
Qed.

Lemma static_cast_int_id z : in_int z → static_cast_int z = z.
Proof.
  unfold in_int, static_cast_int, INT_MIN, INT_MAX. intros Hz.
  rewrite Z.mod_small; lia.
Qed.

Lemma c_rem_INT_MAX_bound v : - INT_MAX < c_rem v INT_MAX < INT_MAX.
Proof. apply Zrem_abs_bound. reflexivity. Qed.

#[export] Hint Resolve static_cast_int_range c_rem_INT_MAX_bound : bench.

Lemma to_key_rem (value : Z) : to_key value = Z.rem value INT_MAX.
Proof.
  unfold to_key. apply static_cast_int_id.
  pose proof (c_rem_INT_MAX_bound value) as H.
  unfold in_int, c_rem, INT_MIN, INT_MAX in *. lia.
Qed.

Lemma to_key_range (value : Z) : - INT_MAX < to_key value < INT_MAX.
Proof. rewrite to_key_rem. apply c_rem_INT_MAX_bound. Qed.

(** The remainder keeps the sign of the value, so negative inputs give
    negative keys ([%] is not the mathematical modulus). *)
Lemma to_key_sign_neg (value : Z) : value ≤ 0 → to_key value ≤ 0.
Proof. rewrite to_key_rem. intros. apply Zrem_sign_nonpos; [done|reflexivity]. Qed.

Lemma to_key_sign_pos (value : Z) : 0 ≤ value → 0 ≤ to_key value.
Proof. rewrite to_key_rem. intros. apply Zrem_sign_nonneg; [done|reflexivity]. Qed.

Lemma to_key_small (value : Z) : - INT_MAX < value < INT_MAX → to_key value = value.
Proof.
  intros H. rewrite to_key_rem.
  destruct (Z.le_gt_cases 0 value).
  - apply Z.rem_small. lia.
  - rewrite <- (Z.opp_involutive value), Z.rem_opp_l by (unfold INT_MAX; lia).
    rewrite Z.rem_small; lia.
Qed.

#[export] Hint Resolve to_key_range to_key_sign_neg to_key_sign_pos : bench.

(** Distinct values can collide: [INT_MAX] is stored as key [0]. *)
Example to_key_INT_MAX : to_key INT_MAX = 0.
Proof. reflexivity. Qed.

Example to_key_negative : to_key (-2147483650) = -3.
Proof. reflexivity. Qed.

(** ** Main result *)

(** C12. The narrowing conversion of main.cpp:36 is exact.  For every
    value, [value % INT_MAX] is strictly between [-INT_MAX] and
    [INT_MAX], so [static_cast<int>] returns it unchanged: the stored key
    is the truncating remainder of the value, with no wrap-around. *)
Theorem to_key_exact (value : Z) :
  - INT_MAX < c_rem value INT_MAX < INT_MAX ∧
  static_cast_int (c_rem value INT_MAX) = c_rem value INT_MAX ∧
  to_key value = Z.rem value INT_MAX.
Proof.
  split; [apply c_rem_INT_MAX_bound|].
  split; [apply (to_key_rem value)|apply to_key_rem].
Qed.
