(* ===== verification/IStream.v ===== *)
(** * IStream: the input-stream calls of the driver

    [readFile] and [readFileAlternative] (main.cpp:15-75) read their
    files through four library calls: [getline(stream, line)],
    [getline(stream, token, ',')], [stream >> value] on a [long long]
    and [stoll(token)].  A stream is modelled by the text that is still
    unread; each call is a function from the unread text to its result
    and the text left.  The definitions follow the behaviour the C++
    standard fixes for the "C" locale: [operator>>] skips leading white
    space, accumulates an optional sign and decimal digits, and fails
    (setting [failbit]) if no digit was read or the value is not
    representable; [stoll] is [strtoll] in base 10 and throws in the same
    two cases.

    A loop [while (extract)] is [drain]: it repeats the extraction until
    it fails.  It is defined with a fuel of one more than the length of
    the text, which is enough because every successful extraction
    consumes at least one character ([drain_all_unfold]). *)

From S2P Require Import Prelude CInt.

(** ** Character classes of [<cctype>] in the "C" locale *)

Definition isspace (c : ascii) : bool :=
  let n := N_of_ascii c in (n =? 32)%N || ((9 <=? n)%N && (n <=? 13)%N).

Definition isdigit (c : ascii) : bool :=
  let n := N_of_ascii c in (48 <=? n)%N && (n <=? 57)%N.

Definition digit_val (c : ascii) : Z := Z.of_N (N_of_ascii c) - 48.

(** ** Extraction of a [long long] *)

(** Leading white space is discarded before a formatted extraction. *)
Fixpoint skipws (s : string) : string :=
  match s with
  | String c s' => if isspace c then skipws s' else s
  | EmptyString => EmptyString
  end.

(** The longest prefix of decimal digits, accumulated in base 10. *)
Fixpoint scan_digits (acc : Z) (s : string) : Z * string :=
  match s with
  | String c s' =>
      if isdigit c then scan_digits (acc * 10 + digit_val c) s' else (acc, s)
  | EmptyString => (acc, EmptyString)
  end.

(** An optional sign: whether the numeral is negated, and the text after
    the sign. *)
Definition scan_sign (s : string) : bool * string :=
  match s with
  | String c s' =>
      if Ascii.eqb c "-" then (true, s')
      else if Ascii.eqb c "+" then (false, s')
      else (false, s)
  | EmptyString => (false, s)
  end.

(** The outcome of converting the head of a text to a [long long]. *)
Inductive scan_result : Type :=
  | ScanNone                          (* no digits: nothing converted *)
  | ScanRange (rest : string)         (* a numeral outside [long long] *)
  | ScanOk (v : Z) (rest : string).   (* the value and the text left *)

Definition scan_ll (s : string) : scan_result :=
  let '(neg, s2) := scan_sign (skipws s) in
  match s2 with
  | String c _ =>
      if isdigit c then
        let '(n, rest) := scan_digits 0 s2 in
        let v := if neg then - n else n in
        if bool_decide (in_llong v) then ScanOk v rest else ScanRange rest
      else ScanNone
  | EmptyString => ScanNone
  end.

(** [stream >> value]: the value and the unread text, or [None] when the
    stream enters the failed state. *)
Definition extract_ll (s : string) : option (Z * string) :=
  match scan_ll s with
  | ScanOk v rest => Some (v, rest)
  | _ => None
  end.

(** [stoll(token)]: the two exceptions it throws, or the value. *)
Inductive stoll_error : Type := invalid_argument | out_of_range.

Definition stoll (token : string) : stoll_error + Z :=
  match scan_ll token with
  | ScanOk v _ => inr v
  | ScanRange _ => inl out_of_range
  | ScanNone => inl invalid_argument
  end.

(** ** Unformatted extraction up to a delimiter *)

(** The characters before the first [delim] (or the end), and the text
    after it. *)
Fixpoint take_line (delim : ascii) (s : string) : string * string :=
  match s with
  | String c s' =>
      if Ascii.eqb c delim then (EmptyString, s')
      else let '(l, r) := take_line delim s' in (String c l, r)
  | EmptyString => (EmptyString, EmptyString)
  end.

(** [getline(stream, line, delim)]: fails at the end of the text,
    otherwise stores the characters up to the delimiter, which it
    consumes. *)
Definition getline (delim : ascii) (s : string) : option (string * string) :=
  match s with
  | EmptyString => None
  | _ => Some (take_line delim s)
  end.

(** ** Loops over a stream *)

Fixpoint drain {A} (next : string → option (A * string))
    (fuel : nat) (s : string) : list A :=
  match fuel with
  | O => []
  | S fuel' =>
      match next s with
      | Some (a, rest) => a :: drain next fuel' rest
      | None => []
      end
  end.

Definition drain_all {A} (next : string → option (A * string))
    (s : string) : list A :=
  drain next (S (String.length s)) s.

(** An extraction makes progress when the text it leaves is shorter. *)
Definition progresses {A} (next : string → option (A * string)) : Prop :=
  ∀ s a rest, next s = Some (a, rest) →
    (String.length rest < String.length s)%nat.

(** ** Lengths *)

Lemma skipws_length s : (String.length (skipws s) ≤ String.length s)%nat.
Proof. induction s as [|c s IH]; simpl; [done|]. destruct (isspace c); simpl; lia. Qed.

Lemma scan_digits_length acc s :
  (String.length (scan_digits acc s).2 ≤ String.length s)%nat.
Proof.
  revert acc. induction s as [|c s IH]; intros acc; simpl; [done|].
  destruct (isdigit c); simpl; [|done]. specialize (IH (acc * 10 + digit_val c)). lia.
Qed.

Lemma scan_sign_length s :
  (String.length (scan_sign s).2 ≤ String.length s)%nat.
Proof. destruct s as [|c s]; simpl; [done|]. repeat case_match; simpl; lia. Qed.

Lemma scan_ll_ok_length s v rest :
  scan_ll s = ScanOk v rest → (String.length rest < String.length s)%nat.
Proof.
  unfold scan_ll. pose proof (skipws_length s) as Hws.
  pose proof (scan_sign_length (skipws s)) as Hsg.
  destruct (scan_sign (skipws s)) as [neg s2]; simpl in Hsg.
  destruct s2 as [|c s2]; [done|]. simpl.
  destruct (isdigit c); [|done].
  pose proof (scan_digits_length (0 * 10 + digit_val c) s2) as Hd.
  destruct (scan_digits _ s2) as [n r]; simpl in *.
  case_bool_decide; intros [= <- <-]. lia.
Qed.

Lemma take_line_length delim s :
  (String.length (take_line delim s).2 ≤ String.length s)%nat.
Proof.
  induction s as [|c s IH]; simpl; [done|].
  destruct (Ascii.eqb c delim); simpl; [lia|].
  destruct (take_line delim s); simpl in *. lia.
Qed.

Lemma extract_ll_progresses : progresses extract_ll.
Proof.
  intros s v rest. unfold extract_ll.
  destruct (scan_ll s) eqn:E; intros [= <- <-]. by eapply scan_ll_ok_length.
Qed.

Lemma getline_progresses delim : progresses (getline delim).
Proof.
  intros [|c s] l rest; [done|]. intros [= H]. simpl in *.
  destruct (Ascii.eqb c delim); [simplify_eq; simpl; lia|].
  pose proof (take_line_length delim s).
  destruct (take_line delim s); simplify_eq; simpl in *. lia.
Qed.

#[export] Hint Resolve extract_ll_progresses getline_progresses : bench.

(** ** The fuel is enough *)

Section Drain.
Context {A : Type} (next : string → option (A * string)).
Hypothesis Hnext : progresses next.

Lemma drain_fuel_irrel fuel1 fuel2 s :
  (String.length s < fuel1)%nat → (String.length s < fuel2)%nat →
  drain next fuel1 s = drain next fuel2 s.
Proof.
  revert fuel2 s. induction fuel1 as [|fuel1 IH]; intros [|fuel2] s ??; try lia.
  simpl. destruct (next s) as [[a rest]|] eqn:E; [|done].
  apply Hnext in E. f_equal. apply IH; lia.
Qed.

Lemma drain_S fuel s :
  drain next (S fuel) s =
    match next s with
    | Some (a, rest) => a :: drain next fuel rest
    | None => []
    end.
Proof. done. Qed.

Lemma drain_all_unfold s :
  drain_all next s =
    match next s with
    | Some (a, rest) => a :: drain_all next rest
    | None => []
    end.
Proof.
  unfold drain_all at 1. rewrite drain_S.
  destruct (next s) as [[a rest]|] eqn:E; [|done].
  apply Hnext in E. f_equal. apply drain_fuel_irrel; lia.
Qed.

Lemma drain_all_fuel fuel s :
  (String.length s < fuel)%nat → drain next fuel s = drain_all next s.
Proof. intros. apply drain_fuel_irrel; simpl; lia. Qed.

End Drain.
