(* ===== verification/Numeral.v ===== *)
(** * Numeral: printing and scanning decimal numerals

    The extraction of [IStream] is the inverse of printing: scanning the
    decimal text of an integer gives the integer back and leaves what
    follows it.  The printer is the one of the standard pretty-printing
    library; it plays the role of whatever wrote the data files.  The
    lemmas here are about single numerals; [ReadFile] lifts them to
    lines and files. *)

From S2P Require Import Prelude CInt IStream.

(** The characters a printed integer is made of. *)
Definition is_numeral_char (c : ascii) : bool := isdigit c || Ascii.eqb c "-".

(** ** Induction along the digits of a number *)

Lemma N_div10_ind (P : N → Prop) :
  P 0%N → (∀ x, (0 < x)%N → P (x `div` 10)%N → P x) → ∀ x, P x.
Proof.
  intros H0 Hstep x. induction (N.lt_wf_0 x) as [x _ IH].
  destruct (decide (x = 0%N)) as [->|]; [done|].
  apply Hstep; [lia|]. apply IH. apply N.div_lt; lia.
Qed.

Lemma pretty_N_char_digit d :
  (d < 10)%N →
  isdigit (pretty_N_char d) = true ∧ digit_val (pretty_N_char d) = Z.of_N d.
Proof.
  intros Hd.
  assert (d = 0 ∨ d = 1 ∨ d = 2 ∨ d = 3 ∨ d = 4 ∨ d = 5 ∨ d = 6 ∨ d = 7
          ∨ d = 8 ∨ d = 9)%N as Hc by lia.
  repeat destruct Hc as [->|Hc]; try subst d; done.
Qed.

Lemma pretty_N_go_app x s : pretty_N_go x s = pretty_N_go x "" +:+ s.
Proof.
  revert s. induction x as [|x Hx IH] using N_div10_ind; intros s; [done|].
  rewrite (pretty_N_go_step x s), (pretty_N_go_step x "") by done.
  rewrite (IH (String _ s)), (IH (String _ "")), string_app_assoc. done.
Qed.

Lemma pretty_N_go_all_digits x s :
  string_all isdigit (pretty_N_go x s) = string_all isdigit s.
Proof.
  revert s. induction x as [|x Hx IH] using N_div10_ind; intros s; [done|].
  rewrite pretty_N_go_step, IH by done. simpl.
  by destruct (pretty_N_char_digit (x `mod` 10)%N) as [-> _]; [apply N.mod_lt|].
Qed.

Lemma pretty_N_go_head x s :
  (0 < x)%N → starts_with isdigit (pretty_N_go x s) = true.
Proof.
  revert s. induction x as [|x Hx IH] using N_div10_ind; intros s ?; [lia|].
  rewrite pretty_N_go_step by done.
  destruct (decide (x `div` 10 = 0)%N) as [->|Hne]; [|by apply IH, N.neq_0_lt_0].
  rewrite pretty_N_go_0. simpl.
  by destruct (pretty_N_char_digit (x `mod` 10)%N) as [-> _]; [apply N.mod_lt|].
Qed.

Lemma scan_digits_pretty_N_go x s acc :
  ∃ k, scan_digits acc (pretty_N_go x s) = scan_digits (acc * 10 ^ k + Z.of_N x) s ∧ 0 ≤ k.
Proof.
  revert s acc. induction x as [|x Hx IH] using N_div10_ind; intros s acc.
  { exists 0. rewrite pretty_N_go_0. split; [f_equal; lia|done]. }
  rewrite pretty_N_go_step by done.
  destruct (IH (String (pretty_N_char (x `mod` 10)) s) acc) as (k & -> & Hk).
  exists (k + 1). split; [|lia]. simpl.
  destruct (pretty_N_char_digit (x `mod` 10)%N) as [-> ->]; [by apply N.mod_lt|].
  f_equal. rewrite Z.pow_add_r, Z.pow_1_r by lia.
  rewrite (N.div_mod x 10) at 3 by done. lia.
Qed.

Lemma scan_digits_stop acc s :
  starts_with isdigit s = false → scan_digits acc s = (acc, s).
Proof. destruct s as [|c s]; simpl; [done|]. by intros ->. Qed.

Lemma scan_digits_pretty_N x rest :
  starts_with isdigit rest = false →
  scan_digits 0 (pretty_N_go x rest) = (Z.of_N x, rest).
Proof.
  intros Hrest. destruct (scan_digits_pretty_N_go x rest 0) as (k & -> & _).
  by rewrite scan_digits_stop.
Qed.

Lemma isdigit_not_space c : isdigit c = true → isspace c = false.
Proof.
  unfold isdigit, isspace. cbv zeta. generalize (N_of_ascii c). intros n.
  rewrite andb_true_iff, !N.leb_le. intros [??].
  apply orb_false_iff. split; [apply N.eqb_neq; lia|].
  apply andb_false_iff. right. apply N.leb_gt. lia.
Qed.

Lemma isdigit_not_sign c :
  isdigit c = true → Ascii.eqb c "-" = false ∧ Ascii.eqb c "+" = false.
Proof.
  intros H. split; destruct (Ascii.eqb_spec c "-"), (Ascii.eqb_spec c "+");
    by subst.
Qed.

Lemma scan_ll_unsigned s :
  starts_with isdigit s = true →
  scan_ll s =
    let '(n, rest) := scan_digits 0 s in
    if bool_decide (in_llong n) then ScanOk n rest else ScanRange rest.
Proof.
  destruct s as [|c s]; [done|]. simpl. intros Hc. unfold scan_ll. simpl.
  rewrite (isdigit_not_space c Hc). simpl.
  destruct (isdigit_not_sign c Hc) as [-> ->]. rewrite Hc. simpl. by rewrite Hc.
Qed.

Lemma scan_ll_negative s :
  starts_with isdigit s = true →
  scan_ll (String "-" s) =
    let '(n, rest) := scan_digits 0 s in
    if bool_decide (in_llong (- n)) then ScanOk (- n) rest else ScanRange rest.
Proof.
  destruct s as [|c s]; [done|]. simpl. intros Hc. unfold scan_ll. simpl.
  by rewrite Hc.
Qed.

Lemma pretty_N_pos_unfold p rest :
  pretty (N.pos p) +:+ rest = pretty_N_go (N.pos p) rest.
Proof. unfold pretty, pretty_N. simpl. by rewrite (pretty_N_go_app _ rest). Qed.

Lemma scan_ll_pretty z rest :
  in_llong z → starts_with isdigit rest = false →
  scan_ll (pretty z +:+ rest) = ScanOk z rest.
Proof.
  intros Hz Hrest. destruct z as [|p|p].
  - change (pretty 0) with "0". rewrite scan_ll_unsigned by done. simpl.
    by rewrite scan_digits_stop.
  - change (pretty (Z.pos p)) with (pretty (N.pos p)).
    rewrite pretty_N_pos_unfold, scan_ll_unsigned by (by apply pretty_N_go_head).
    rewrite scan_digits_pretty_N by done. simpl. by rewrite bool_decide_true.
  - change (pretty (Z.neg p)) with ("-" +:+ pretty (N.pos p)).
    rewrite string_app_assoc, pretty_N_pos_unfold. change ("-" +:+ ?s) with (String "-" s).
    rewrite scan_ll_negative by (by apply pretty_N_go_head).
    rewrite scan_digits_pretty_N by done. simpl. by rewrite bool_decide_true.
Qed.

(** ** The characters of a numeral *)

Lemma pretty_N_go_numeral_chars x s :
  string_all is_numeral_char (pretty_N_go x s) = string_all is_numeral_char s.
Proof.
  revert s. induction x as [|x Hx IH] using N_div10_ind; intros s; [done|].
  rewrite pretty_N_go_step, IH by done. simpl. unfold is_numeral_char at 1.
  by destruct (pretty_N_char_digit (x `mod` 10)%N) as [-> _]; [apply N.mod_lt|].
Qed.

Lemma pretty_Z_numeral_chars (z : Z) : string_all is_numeral_char (pretty z) = true.
Proof.
  destruct z as [|p|p]; [done|..].
  - change (pretty (Z.pos p)) with (pretty_N_go (N.pos p) "").
    by rewrite pretty_N_go_numeral_chars.
  - change (pretty (Z.neg p)) with (String "-" (pretty_N_go (N.pos p) "")).
    simpl. by rewrite pretty_N_go_numeral_chars.
Qed.

Lemma pretty_Z_nonempty (z : Z) : pretty z ≠ EmptyString.
Proof.
  destruct z as [|p|p]; [done|..|done].
  change (pretty (Z.pos p)) with (pretty_N_go (N.pos p) "").
  pose proof (pretty_N_go_head (N.pos p) "" eq_refl) as H.
  by destruct (pretty_N_go _ _).
Qed.

Lemma numeral_char_not d c :
  is_numeral_char d = false → is_numeral_char c = true → not_char d c = true.
Proof.
  unfold not_char. intros Hd Hc.
  destruct (Ascii.eqb_spec c d) as [E|]; [|done]. rewrite E in Hc. congruence.
Qed.

Lemma pretty_Z_no_char d (z : Z) :
  is_numeral_char d = false → string_all (not_char d) (pretty z) = true.
Proof.
  intros Hd. eapply string_all_impl, pretty_Z_numeral_chars.
  intros c. by apply numeral_char_not.
Qed.

(** ** Extraction after white space and after a numeral *)

Lemma skipws_app ws s :
  string_all isspace ws = true → skipws (ws +:+ s) = skipws s.
Proof.
  induction ws as [|c ws IH]; [done|]. rewrite string_app_cons. simpl.
  rewrite andb_true_iff. intros [-> ?]. auto.
Qed.

Lemma extract_ll_skipws ws s :
  string_all isspace ws = true → extract_ll (ws +:+ s) = extract_ll s.
Proof. intros H. unfold extract_ll, scan_ll. by rewrite skipws_app. Qed.

Lemma drain_extract_skipws ws s :
  string_all isspace ws = true →
  drain_all extract_ll (ws +:+ s) = drain_all extract_ll s.
Proof.
  intros H. rewrite !(drain_all_unfold _ extract_ll_progresses).
  by rewrite extract_ll_skipws.
Qed.

Lemma extract_ll_pretty z rest :
  in_llong z → starts_with isdigit rest = false →
  extract_ll (pretty z +:+ rest) = Some (z, rest).
Proof. intros. unfold extract_ll. by rewrite scan_ll_pretty. Qed.

Lemma drain_extract_pretty z ws rest :
  in_llong z → string_all isspace ws = true →
  (ws = EmptyString → starts_with isdigit rest = false) →
  drain_all extract_ll (pretty z +:+ ws +:+ rest) = z :: drain_all extract_ll rest.
Proof.
  intros Hz Hws Hrest. rewrite (drain_all_unfold _ extract_ll_progresses).
  rewrite extract_ll_pretty, drain_extract_skipws; [done..|].
  destruct ws as [|c ws]; [by apply Hrest|].
  simpl in *. apply andb_true_iff in Hws as [Hc _].
  destruct (isdigit c) eqn:E; [|done]. apply isdigit_not_space in E. congruence.
Qed.

(** ** Main result *)

(** C22. Printing then scanning is the identity.  The decimal text of any
    [long long], followed by anything that does not begin with a digit,
    is extracted by [operator>>] as that value, leaving what follows; and
    [stoll] converts it to the same value.  The text itself holds
    nothing but digits and a sign, so no separator can split it. *)
Theorem numeral_roundtrip (z : Z) (rest : string) :
  in_llong z → starts_with isdigit rest = false →
  extract_ll (pretty z +:+ rest) = Some (z, rest) ∧
  stoll (pretty z +:+ rest) = inr z ∧
  string_all is_numeral_char (pretty z) = true.
Proof.
  intros Hz Hrest. unfold extract_ll, stoll. rewrite scan_ll_pretty by done.
  split_and!; [done..|apply pretty_Z_numeral_chars].
Qed.

Lemma numeral_roundtrip_witness :
  extract_ll (pretty (-42) +:+ ",7") = Some (-42, ",7") ∧
  stoll (pretty (-42) +:+ ",7") = inr (-42) ∧
  string_all is_numeral_char (pretty (-42)) = true.
Proof. apply numeral_roundtrip; [by vm_compute|reflexivity]. Defined.
