(* ===== verification/IO.v ===== *)
(** * IO: the world of the driver

    What [main.cpp] reads and writes apart from its own variables: the
    files it opens, the clock it samples and the console it prints to.
    A computation of the driver is a function from the world to a result
    and the world after it, or to nothing when the program would have
    undefined behaviour (an index outside a vector).  Each [cout]
    statement of the driver is one [event]; [render] gives its text. *)

From stdpp Require Import gmap pretty.
From S2P Require Import Prelude.

(** ** Console output *)

Inductive event : Type :=
  | Title                                    (* main.cpp:78 *)
  | Underline                                (* main.cpp:79 *)
  | Testing (set : string) (is_set1 : bool)  (* main.cpp:86 *)
  | Dataset (set file desc : string)         (* main.cpp:90 *)
  | OpenError (filename : string)            (* main.cpp:20, 50 *)
  | Loaded (n : nat) (filename : string)     (* main.cpp:40, 73 *)
  | ParseWarning (token : string)            (* main.cpp:67 *)
  | Results (structure : string)             (* main.cpp:100, 134, 168 *)
  | InsertTime (us : Z)                      (* main.cpp:109, 143, 177 *)
  | SearchTime (us : Z)                      (* main.cpp:118, 152, 186 *)
  | DeleteTime (us : Z)                      (* main.cpp:128, 162, 196 *)
  | Complete.                                (* main.cpp:202 *)

#[export] Instance event_eq_dec : EqDecision event.
Proof. solve_decision. Defined.

Definition nl : string := String "010"%char EmptyString.

(** The characters an event puts on the console, [endl] included.  A
    [bool] is printed as [1] or [0]: the driver sets no [boolalpha]. *)
Definition render (e : event) : string :=
  match e with
  | Title => "Tree Performance Analysis" +:+ nl
  | Underline => "=========================" +:+ nl
  | Testing set b =>
      nl +:+ "Testing " +:+ set +:+ " (" +:+ (if b then "1" else "0")
         +:+ " data):" +:+ nl
  | Dataset set file desc =>
      nl +:+ "=== Dataset: " +:+ set +:+ "/" +:+ file +:+ " (" +:+ desc
         +:+ ") ===" +:+ nl
  | OpenError f => "Error: Could not open file " +:+ f +:+ nl
  | Loaded n f =>
      "Loaded " +:+ pretty n +:+ " items from " +:+ f +:+ nl
  | ParseWarning t => "Warning: Could not parse value: " +:+ t +:+ nl
  | Results name => nl +:+ "--- " +:+ name +:+ " Results ---" +:+ nl
  | InsertTime us => "Insert: " +:+ pretty us +:+ " microseconds" +:+ nl
  | SearchTime us => "Search: " +:+ pretty us +:+ " microseconds" +:+ nl
  | DeleteTime us => "Delete: " +:+ pretty us +:+ " microseconds" +:+ nl
  | Complete => nl +:+ "Analysis Complete!" +:+ nl
  end.

(** ** The world *)

Record world : Type := World {
  files : gmap string string;  (* the files that can be opened, by path *)
  clock : nat → Z;             (* the n-th sample of the clock, in ns *)
  ticks : nat;                 (* samples taken so far *)
  console : list event         (* what was printed, oldest first *)
}.

Definition IO (A : Type) : Type := world → option (A * world).

#[export] Instance IO_ret : MRet IO := λ A a w, Some (a, w).
#[export] Instance IO_bind : MBind IO := λ A B f c w,
  match c w with
  | Some (a, w') => f a w'
  | None => None
  end.

(** Undefined behaviour: the computation has no result. *)
Definition undefined {A} : IO A := λ _, None.

(** [cout << ... << endl]. *)
Definition cout (e : event) : IO unit := λ w,
  Some ((), World (files w) (clock w) (ticks w) (console w ++ [e])).

(** [ifstream infile(filename)]: the content when the file opens. *)
Definition open_file (filename : string) : IO (option string) := λ w,
  Some (files w !! filename, w).

(** [high_resolution_clock::now()]. *)
Definition now : IO Z := λ w,
  Some (clock w (ticks w),
        World (files w) (clock w) (S (ticks w)) (console w)).

(** [v[i]] on a vector: undefined outside its bounds. *)
Definition index {A} (v : list A) (i : nat) : IO A :=
  match v !! i with
  | Some a => mret a
  | None => undefined
  end.

(** [for (x : xs) body]. *)
Fixpoint for_each {A} (xs : list A) (body : A → IO unit) : IO unit :=
  match xs with
  | [] => mret ()
  | x :: xs' => body x;; for_each xs' body
  end.

(** A loop whose body appends to a vector: the elements appended, in
    order. *)
Fixpoint collect {A B} (xs : list A) (body : A → IO (list B)) : IO (list B) :=
  match xs with
  | [] => mret []
  | x :: xs' => ys ← body x; zs ← collect xs' body; mret (ys ++ zs)
  end.

(** The text the console shows. *)
Definition console_text (w : world) : string :=
  foldr (λ e acc, render e +:+ acc) EmptyString (console w).

(** ** Reasoning about computations *)

(** [runs c w a w']: from [w] the computation returns [a] and leaves [w']. *)
Definition runs {A} (c : IO A) (w : world) (a : A) (w' : world) : Prop :=
  c w = Some (a, w').

(** The part of the world a computation cannot change. *)
Definition same_files (w w' : world) : Prop :=
  files w' = files w ∧ clock w' = clock w.

(** A computation that prints and does nothing else: files, clock and
    the number of clock samples are as before. *)
Definition only_prints (w w' : world) (es : list event) : Prop :=
  w' = World (files w) (clock w) (ticks w) (console w ++ es).

(** [advances w w' n]: [w'] is [w] after some printing and at most [n]
    samples of the clock. *)
Definition advances (w w' : world) (n : nat) : Prop :=
  same_files w w' ∧ (ticks w ≤ ticks w' ≤ ticks w + n)%nat ∧
  console w `prefix_of` console w'.

(** [total c n]: the computation is defined from every world, and does
    nothing but print and sample the clock, at most [n] times. *)
Definition total {A} (c : IO A) (n : nat) : Prop :=
  ∀ w, ∃ a w', runs c w a w' ∧ advances w w' n.

(** Steps through a computation built from [≫=], [mret], [cout], [now]
    and [open_file], leaving the branch points to the proof. *)
Ltac io_step :=
  repeat first
    [ progress (unfold runs, mbind, IO_bind, mret, IO_ret, cout, now,
                open_file; simpl)
    | progress simplify_eq/= ].

Lemma runs_ret {A} (a : A) w : runs (mret a) w a w.
Proof. done. Qed.

Lemma world_eq fs c n n' es es' :
  n = n' → es = es' → World fs c n es = World fs c n' es'.
Proof. by intros -> ->. Qed.

Lemma runs_ret_eq {A} (a : A) w w' : w = w' → runs (mret a) w a w'.
Proof. by intros ->. Qed.

Lemma runs_world_eq {A} (c : IO A) w a w1 w2 :
  runs c w a w1 → w1 = w2 → runs c w a w2.
Proof. by intros ? <-. Qed.

Lemma runs_bind {A B} (c : IO A) (f : A → IO B) w a w1 b w2 :
  runs c w a w1 → runs (f a) w1 b w2 → runs (c ≫= f) w b w2.
Proof. unfold runs, mbind, IO_bind. by intros ->. Qed.

Lemma runs_bind_inv {A B} (c : IO A) (f : A → IO B) w b w2 :
  runs (c ≫= f) w b w2 → ∃ a w1, runs c w a w1 ∧ runs (f a) w1 b w2.
Proof.
  unfold runs, mbind, IO_bind. destruct (c w) as [[a w1]|]; [|done].
  intros. by exists a, w1.
Qed.

Lemma runs_det {A} (c : IO A) w a1 w1 a2 w2 :
  runs c w a1 w1 → runs c w a2 w2 → a1 = a2 ∧ w1 = w2.
Proof. unfold runs. intros -> [= -> ->]. done. Qed.

Lemma runs_cout e w :
  runs (cout e) w () (World (files w) (clock w) (ticks w) (console w ++ [e])).
Proof. done. Qed.

Lemma runs_now w :
  runs now w (clock w (ticks w))
    (World (files w) (clock w) (S (ticks w)) (console w)).
Proof. done. Qed.

Lemma runs_open_file f w : runs (open_file f) w (files w !! f) w.
Proof. done. Qed.

Lemma same_files_refl w : same_files w w.
Proof. done. Qed.

Lemma same_files_trans w1 w2 w3 :
  same_files w1 w2 → same_files w2 w3 → same_files w1 w3.
Proof. unfold same_files. intros [-> ->] [-> ->]. done. Qed.

#[export] Hint Resolve runs_ret runs_cout runs_now runs_open_file
  same_files_refl : bench.


Lemma only_prints_nil w : only_prints w w [].
Proof. unfold only_prints. rewrite app_nil_r. by destruct w. Qed.

Lemma only_prints_app w1 w2 w3 es1 es2 :
  only_prints w1 w2 es1 → only_prints w2 w3 es2 →
  only_prints w1 w3 (es1 ++ es2).
Proof. unfold only_prints. intros -> ->. simpl. by rewrite app_assoc. Qed.

Lemma only_prints_cout w e :
  only_prints w (World (files w) (clock w) (ticks w) (console w ++ [e])) [e].
Proof. done. Qed.

Lemma only_prints_same_files w w' es : only_prints w w' es → same_files w w'.
Proof. by intros ->. Qed.

#[export] Hint Resolve only_prints_nil only_prints_cout : bench.

(** ** Loops that collect *)

(** A loop that collects: when every run of the body only prints, so
    does the loop, and it returns and prints what the bodies do, in
    order. *)
Lemma collect_runs {A B} (xs : list A) (body : A → IO (list B))
    (ret : A → list B) (out : A → list event) w :
  (∀ x w, runs (body x) w (ret x)
            (World (files w) (clock w) (ticks w) (console w ++ out x))) →
  runs (collect xs body) w (concat (ret <$> xs))
    (World (files w) (clock w) (ticks w) (console w ++ concat (out <$> xs))).
Proof.
  intros Hbody. revert w. induction xs as [|x xs IH]; intros w; simpl.
  { apply runs_ret_eq. rewrite app_nil_r. by destruct w. }
  eapply runs_bind; [apply Hbody|]. eapply runs_bind; [apply IH|].
  apply runs_ret_eq, world_eq; [done|]. simpl. by rewrite app_assoc.
Qed.

(** ** Computations that always return *)

Lemma advances_refl w : advances w w 0.
Proof. unfold advances. split_and!; [done|lia..|done]. Qed.

Lemma advances_trans w1 w2 w3 n m :
  advances w1 w2 n → advances w2 w3 m → advances w1 w3 (n + m).
Proof.
  intros (?&?&?) (?&?&?). split; [by eapply same_files_trans|].
  split; [lia|by etrans].
Qed.

Lemma advances_weaken w w' n m : (n ≤ m)%nat → advances w w' n → advances w w' m.
Proof. intros ? (?&?&?). split_and!; [done|lia..|done]. Qed.

Lemma only_prints_advances w w' es : only_prints w w' es → advances w w' 0.
Proof.
  intros ->. split; [done|]. simpl. split; [lia|]. by apply prefix_app_r.
Qed.

Lemma total_ret {A} (a : A) : total (mret a) 0.
Proof. intros w. exists a, w. split; [done|apply advances_refl]. Qed.

Lemma total_cout e : total (cout e) 0.
Proof.
  intros w. eexists _, _. split; [apply runs_cout|].
  by eapply only_prints_advances.
Qed.

Lemma total_now : total now 1.
Proof.
  intros w. eexists _, _. split; [apply runs_now|].
  split; [done|]. simpl. split; [lia|done].
Qed.

Lemma total_bind {A B} (c : IO A) (f : A → IO B) n m :
  total c n → (∀ a, total (f a) m) → total (c ≫= f) (n + m).
Proof.
  intros Hc Hf w. destruct (Hc w) as (a & w1 & Hr1 & Ha1).
  destruct (Hf a w1) as (b & w2 & Hr2 & Ha2). exists b, w2.
  split; [by eapply runs_bind|by eapply advances_trans].
Qed.

Lemma total_weaken {A} (c : IO A) n m : (n ≤ m)%nat → total c n → total c m.
Proof.
  intros ? Hc w. destruct (Hc w) as (a & w' & ? & ?). exists a, w'.
  split; [done|by eapply advances_weaken].
Qed.

Lemma total_index {A} (v : list A) i : (i < length v)%nat → total (index v i) 0.
Proof.
  intros [a E]%lookup_lt_is_Some_2. unfold index. rewrite E. apply total_ret.
Qed.

Lemma total_for_each {A} (xs : list A) (body : A → IO unit) n :
  Forall (λ x, total (body x) n) xs → total (for_each xs body) (length xs * n).
Proof.
  induction 1 as [|x xs Hx _ IH]; simpl; [apply total_ret|].
  apply total_bind; [done|]. by intros _.
Qed.

#[export] Hint Resolve total_ret total_cout total_now : bench.
