(* ===== verification/ReadFile.v ===== *)
(** * ReadFile: loading a data set

    [readFile] (main.cpp:15-42), the loader the driver uses, and
    [readFileAlternative] (main.cpp:45-75), which the driver defines and
    never calls.  Both return the keys of a file and print one line that
    says how many were loaded; a file that cannot be opened gives the
    empty data set and an error line.  They differ on malformed input:
    [readFile] abandons a line at its first token that is no number and
    says nothing, [readFileAlternative] skips the token with a warning
    and goes on; and on tokens with trailing text, of which [stoll]
    converts the numeric prefix and ignores the rest. *)

From stdpp Require Import gmap.
From S2P Require Import Prelude CInt IStream Numeral IO.

(** ** [readFile] *)

Definition newline : ascii := "010".
Definition comma : ascii := ",".
Definition space : ascii := " ".

(** main.cpp:29-31: every comma of the line becomes a space. *)
Fixpoint replace_commas (line : string) : string :=
  match line with
  | String c line' =>
      String (if Ascii.eqb c comma then space else c) (replace_commas line')
  | EmptyString => EmptyString
  end.

(** main.cpp:33-37: the keys pushed for one line. *)
Definition parse_line (line : string) : list Z :=
  to_key <$> drain_all extract_ll (replace_commas line).

(** main.cpp:26-37: the body of the loop over lines. *)
Definition read_line (line : string) : list Z :=
  match line with
  | EmptyString => []
  | _ => parse_line line
  end.

(** main.cpp:24-38: the keys of a whole file. *)
Definition read_lines (content : string) : list Z :=
  concat (read_line <$> drain_all (getline newline) content).

Definition readFile (filename : string) : IO (list Z) :=
  infile ← open_file filename;
  match infile with
  | None => cout (OpenError filename);; mret []
  | Some content =>
      let data := read_lines content in
      cout (Loaded (length data) filename);; mret data
  end.

(** ** [readFileAlternative] *)

(** main.cpp:62-69: one token between commas. *)
Definition parse_token (token : string) : IO (list Z) :=
  match token with
  | EmptyString => mret []
  | _ =>
      match stoll token with
      | inr value => mret [to_key value]
      | inl _ => cout (ParseWarning token);; mret []
      end
  end.

(** main.cpp:56-70: the body of the loop over lines. *)
Definition read_line_alt (line : string) : IO (list Z) :=
  match line with
  | EmptyString => mret []
  | _ => collect (drain_all (getline comma) line) parse_token
  end.

Definition readFileAlternative (filename : string) : IO (list Z) :=
  infile ← open_file filename;
  match infile with
  | None => cout (OpenError filename);; mret []
  | Some content =>
      data ← collect (drain_all (getline newline) content) read_line_alt;
      cout (Loaded (length data) filename);; mret data
  end.

(** ** Specification *)

(** A separator of numbers inside a line: a comma, or white space other
    than the end of line. *)
Definition is_sep (c : ascii) : bool :=
  Ascii.eqb c comma || (isspace c && negb (Ascii.eqb c newline)).

Definition separator (sep : string) : Prop :=
  sep ≠ EmptyString ∧ string_all is_sep sep = true.

(** A well-formed line: numbers printed in decimal with [sep] between
    them. *)
Fixpoint render_line (sep : string) (vs : list Z) : string :=
  match vs with
  | [] => EmptyString
  | [v] => pretty v
  | v :: vs' => pretty v +:+ sep +:+ render_line sep vs'
  end.

(** A well-formed file: each row on a line of its own. *)
Definition render_file (sep : string) (rows : list (list Z)) : string :=
  string_concat ((λ row, render_line sep row +:+ nl) <$> rows).

(** A world for the examples: one data file of two rows, a clock that
    advances by one microsecond per sample, an empty console. *)
Definition demo_file : string := "code/data/insert/set1/data_1.txt".

Definition demo_world : world :=
  World {[ demo_file := render_file ", " [[5; 3; 8]; [1; 4; 7; 9]] ]}
        (λ n, Z.of_nat n * 1000) 0 [].

(** A key fits an [int] with room to spare. *)
Definition key_ok (k : Z) : Prop := - INT_MAX < k < INT_MAX.

(** What [readFile] returns and prints, as functions of the files. *)
Definition file_data (w : world) (filename : string) : list Z :=
  match files w !! filename with
  | Some content => read_lines content
  | None => []
  end.

Definition load_event (w : world) (filename : string) : event :=
  match files w !! filename with
  | Some content => Loaded (length (read_lines content)) filename
  | None => OpenError filename
  end.

(** ** What [readFileAlternative] returns and prints *)

(** The tokens of a line and the lines of a file, as the two [getline]
    loops produce them. *)
Definition tokens (line : string) : list string :=
  match line with
  | EmptyString => []
  | _ => drain_all (getline comma) line
  end.

Definition file_tokens (content : string) : list string :=
  concat (tokens <$> drain_all (getline newline) content).

(** The key a token gives, and the warning it gives otherwise. *)
Definition token_keys (token : string) : list Z :=
  match token, stoll token with
  | EmptyString, _ => []
  | _, inr value => [to_key value]
  | _, inl _ => []
  end.

Definition token_warnings (token : string) : list event :=
  match token, stoll token with
  | EmptyString, _ => []
  | _, inr _ => []
  | _, inl _ => [ParseWarning token]
  end.

Definition alt_data (content : string) : list Z :=
  concat (token_keys <$> file_tokens content).

Definition alt_warnings (content : string) : list event :=
  concat (token_warnings <$> file_tokens content).

(** What [readFileAlternative] returns and prints, as functions of the
    files. *)
Definition alt_file_data (w : world) (filename : string) : list Z :=
  match files w !! filename with
  | Some content => alt_data content
  | None => []
  end.

Definition alt_events (w : world) (filename : string) : list event :=
  match files w !! filename with
  | Some content =>
      alt_warnings content ++ [Loaded (length (alt_data content)) filename]
  | None => [OpenError filename]
  end.

(** ** Keys are in range *)

Lemma parse_line_keys line : Forall key_ok (parse_line line).
Proof.
  unfold parse_line. apply Forall_fmap, Forall_true. intros v. apply to_key_range.
Qed.

Lemma read_line_keys line : Forall key_ok (read_line line).
Proof. destruct line; [constructor|apply parse_line_keys]. Qed.

Lemma read_lines_keys content : Forall key_ok (read_lines content).
Proof.
  unfold read_lines. apply Forall_concat, Forall_fmap, Forall_true.
  intros line. apply read_line_keys.
Qed.

(** ** Behaviour of [readFile] *)

Lemma readFile_runs filename w :
  runs (readFile filename) w (file_data w filename)
    (World (files w) (clock w) (ticks w) (console w ++ [load_event w filename])).
Proof.
  unfold readFile, file_data, load_event. io_step.
  by destruct (files w !! filename).
Qed.

Lemma readFile_inv filename w data w' :
  runs (readFile filename) w data w' →
  data = file_data w filename ∧ only_prints w w' [load_event w filename].
Proof.
  intros Hrun.
  by destruct (runs_det _ _ _ _ _ _ Hrun (readFile_runs filename w)) as [-> ->].
Qed.

Lemma file_data_keys w filename : Forall key_ok (file_data w filename).
Proof.
  unfold file_data. destruct (files w !! filename); [|constructor].
  apply read_lines_keys.
Qed.

#[export] Hint Resolve readFile_runs file_data_keys : bench.

(** ** Lines of numbers *)

Lemma replace_commas_app s1 s2 :
  replace_commas (s1 +:+ s2) = replace_commas s1 +:+ replace_commas s2.
Proof.
  induction s1 as [|c s1 IH]; [done|]. rewrite string_app_cons. simpl.
  by rewrite IH.
Qed.

Lemma replace_commas_id s :
  string_all (not_char comma) s = true → replace_commas s = s.
Proof.
  induction s as [|c s IH]; simpl; [done|]. unfold not_char at 1.
  rewrite andb_true_iff, negb_true_iff. intros [-> ?]. f_equal. auto.
Qed.

Lemma replace_commas_sep sep :
  string_all is_sep sep = true → string_all isspace (replace_commas sep) = true.
Proof.
  induction sep as [|c sep IH]; simpl; [done|].
  rewrite !andb_true_iff. intros [Hc ?]. split; [|auto].
  unfold is_sep in Hc. destruct (Ascii.eqb c comma); [done|].
  simpl in Hc. by apply andb_true_iff in Hc as [? _].
Qed.

Lemma replace_commas_nonempty s : s ≠ EmptyString → replace_commas s ≠ EmptyString.
Proof. by destruct s. Qed.

Lemma replace_commas_pretty (z : Z) : replace_commas (pretty z) = pretty z.
Proof. by apply replace_commas_id, pretty_Z_no_char. Qed.

Lemma sep_starts_no_digit sep tail :
  separator sep → starts_with isdigit (replace_commas sep +:+ tail) = false.
Proof.
  intros [Hne Hsep]. rewrite starts_with_app by by apply replace_commas_nonempty.
  eapply starts_with_all, replace_commas_sep, Hsep.
  intros c Hc. destruct (isdigit c) eqn:E; [|done].
  apply isdigit_not_space in E. congruence.
Qed.

(** The numbers of a well-formed line are extracted in order, whatever
    follows the line, as long as what follows cannot be read as more
    digits of the last number. *)
Lemma drain_render_line_app sep vs tail :
  separator sep → Forall in_llong vs →
  (vs = [] ∨ starts_with isdigit tail = false) →
  drain_all extract_ll (replace_commas (render_line sep vs) +:+ tail) =
    vs ++ drain_all extract_ll tail.
Proof.
  intros Hsep. induction vs as [|v vs IH]; intros Hvs Htail; [done|].
  apply Forall_cons in Hvs as [Hv Hvs]. destruct Htail as [|Htail]; [done|].
  destruct vs as [|v' vs].
  - simpl. rewrite replace_commas_pretty.
    by rewrite <- (drain_extract_pretty v EmptyString tail).
  - change (render_line sep (v :: v' :: vs))
      with (pretty v +:+ sep +:+ render_line sep (v' :: vs)).
    rewrite !replace_commas_app, replace_commas_pretty, !string_app_assoc.
    rewrite drain_extract_pretty, IH; [done|done|by right|done| |].
    + apply replace_commas_sep, Hsep.
    + intros ?. by destruct (replace_commas_nonempty sep); [apply Hsep|].
Qed.

Lemma parse_line_render sep vs :
  separator sep → Forall in_llong vs →
  parse_line (render_line sep vs) = to_key <$> vs.
Proof.
  intros. unfold parse_line.
  rewrite <- (string_app_nil_r (replace_commas _)).
  rewrite drain_render_line_app by auto. by rewrite app_nil_r.
Qed.

Lemma read_line_parse_line line : read_line line = parse_line line.
Proof. by destruct line. Qed.

(** ** Files of lines *)

Lemma take_line_app delim s rest :
  string_all (not_char delim) s = true →
  take_line delim (s +:+ String delim rest) = (s, rest).
Proof.
  induction s as [|c s IH]; simpl.
  - intros _. unfold String.app. simpl. by rewrite Ascii.eqb_refl.
  - unfold not_char at 1. rewrite andb_true_iff, negb_true_iff. intros [Hc ?].
    by rewrite Hc, IH.
Qed.

Lemma getline_app delim s rest :
  string_all (not_char delim) s = true →
  getline delim (s +:+ String delim rest) = Some (s, rest).
Proof.
  intros H. unfold getline. rewrite <- (take_line_app delim s rest H).
  by destruct s.
Qed.

Lemma sep_not_newline c : is_sep c = true → not_char newline c = true.
Proof.
  unfold is_sep, not_char. intros H.
  destruct (Ascii.eqb_spec c newline) as [E|]; [by rewrite E in H|done].
Qed.

Lemma render_line_no_newline sep vs :
  string_all is_sep sep = true →
  string_all (not_char newline) (render_line sep vs) = true.
Proof.
  intros Hsep.
  induction vs as [|v [|v' vs] IH]; [done|by apply pretty_Z_no_char|].
  change (render_line sep (v :: v' :: vs))
    with (pretty v +:+ sep +:+ render_line sep (v' :: vs)).
  rewrite !string_all_app, IH, pretty_Z_no_char by done.
  by rewrite (string_all_impl _ _ _ sep_not_newline Hsep).
Qed.

Lemma render_file_cons sep row rows :
  render_file sep (row :: rows) =
    render_line sep row +:+ String newline (render_file sep rows).
Proof. unfold render_file. simpl. by rewrite string_app_assoc. Qed.

Lemma getlines_render_file sep rows :
  string_all is_sep sep = true →
  drain_all (getline newline) (render_file sep rows) = render_line sep <$> rows.
Proof.
  intros Hsep. induction rows as [|row rows IH]; [done|].
  rewrite render_file_cons, (drain_all_unfold _ (getline_progresses newline)).
  rewrite getline_app by by apply render_line_no_newline.
  by rewrite IH.
Qed.

Lemma read_lines_render sep rows :
  separator sep → Forall (Forall in_llong) rows →
  read_lines (render_file sep rows) = to_key <$> concat rows.
Proof.
  intros Hsep Hrows. unfold read_lines.
  rewrite getlines_render_file by apply Hsep.
  induction Hrows as [|row rows Hrow _ IH]; [done|].
  rewrite !fmap_cons, !concat_cons, fmap_app, IH, read_line_parse_line.
  by rewrite parse_line_render.
Qed.

(** ** Behaviour of [readFileAlternative] *)

Lemma parse_token_runs token w :
  runs (parse_token token) w (token_keys token)
    (World (files w) (clock w) (ticks w) (console w ++ token_warnings token)).
Proof.
  unfold parse_token, token_keys, token_warnings.
  destruct token as [|c token]; [|destruct (stoll _)];
    try (apply runs_ret_eq; rewrite app_nil_r; by destruct w).
  eapply runs_bind; [apply runs_cout|]. by apply runs_ret_eq.
Qed.

Lemma read_line_alt_runs line w :
  runs (read_line_alt line) w (concat (token_keys <$> tokens line))
    (World (files w) (clock w) (ticks w)
       (console w ++ concat (token_warnings <$> tokens line))).
Proof.
  unfold read_line_alt, tokens. destruct line as [|c line].
  { apply runs_ret_eq. simpl. rewrite app_nil_r. by destruct w. }
  apply collect_runs, parse_token_runs.
Qed.

Lemma readFileAlternative_runs filename w :
  runs (readFileAlternative filename) w
    (match files w !! filename with
     | Some content => alt_data content
     | None => []
     end)
    (World (files w) (clock w) (ticks w)
       (console w ++
        match files w !! filename with
        | Some content =>
            alt_warnings content ++ [Loaded (length (alt_data content)) filename]
        | None => [OpenError filename]
        end)).
Proof.
  unfold readFileAlternative. eapply runs_bind; [apply runs_open_file|].
  destruct (files w !! filename) as [content|].
  - eapply runs_bind; [apply (collect_runs _ _ _ _ _ read_line_alt_runs)|].
    eapply runs_bind; [apply runs_cout|].
    unfold alt_data, alt_warnings, file_tokens.
    rewrite !concat_fmap_concat, <- !list_fmap_compose.
    apply runs_ret_eq, world_eq; [done|]. simpl. by rewrite <- app_assoc.
  - eapply runs_bind; [apply runs_cout|]. by apply runs_ret_eq.
Qed.

Lemma token_keys_ok token : Forall key_ok (token_keys token).
Proof.
  unfold token_keys. destruct token; [constructor|].
  destruct (stoll _); repeat constructor; apply to_key_range.
Qed.

Lemma alt_data_keys content : Forall key_ok (alt_data content).
Proof.
  unfold alt_data. apply Forall_concat, Forall_fmap, Forall_true.
  intros token. apply token_keys_ok.
Qed.

(** ** Comma-separated numerals *)

Lemma take_line_all delim s :
  string_all (not_char delim) s = true → take_line delim s = (s, EmptyString).
Proof.
  induction s as [|c s IH]; simpl; [done|].
  unfold not_char at 1. rewrite andb_true_iff, negb_true_iff. intros [Hc ?].
  by rewrite Hc, IH.
Qed.

Lemma comma_not_numeral : is_numeral_char comma = false.
Proof. done. Qed.

Lemma drain_tokens_render vs :
  drain_all (getline comma) (render_line "," vs) = pretty <$> vs.
Proof.
  induction vs as [|v [|v' vs] IH]; [done| |].
  - rewrite (drain_all_unfold _ (getline_progresses comma)). unfold getline.
    simpl. pose proof (pretty_Z_nonempty v).
    rewrite take_line_all by apply pretty_Z_no_char, comma_not_numeral.
    by destruct (pretty v).
  - change (render_line "," (v :: v' :: vs))
      with (pretty v +:+ String comma (render_line "," (v' :: vs))).
    rewrite (drain_all_unfold _ (getline_progresses comma)).
    rewrite getline_app by apply pretty_Z_no_char, comma_not_numeral.
    by rewrite IH.
Qed.

Lemma tokens_render vs : tokens (render_line "," vs) = pretty <$> vs.
Proof.
  unfold tokens. rewrite <- drain_tokens_render. by destruct (render_line "," vs).
Qed.

Lemma stoll_pretty z : in_llong z → stoll (pretty z) = inr z.
Proof.
  intros Hz. unfold stoll. rewrite <- (string_app_nil_r (pretty z)).
  by rewrite scan_ll_pretty.
Qed.

Lemma token_keys_pretty z : in_llong z → token_keys (pretty z) = [to_key z].
Proof.
  intros Hz. unfold token_keys. pose proof (stoll_pretty z Hz) as Hs.
  pose proof (pretty_Z_nonempty z). destruct (pretty z); [done|]. by rewrite Hs.
Qed.

Lemma token_warnings_pretty z : in_llong z → token_warnings (pretty z) = [].
Proof.
  intros Hz. unfold token_warnings. pose proof (stoll_pretty z Hz) as Hs.
  destruct (pretty z); [done|]. by rewrite Hs.
Qed.

Lemma file_tokens_render rows :
  file_tokens (render_file "," rows) = pretty <$> concat rows.
Proof.
  unfold file_tokens. rewrite getlines_render_file by done.
  induction rows as [|row rows IH]; [done|].
  by rewrite !fmap_cons, !concat_cons, fmap_app, IH, tokens_render.
Qed.

Lemma pretty_keys vs :
  Forall in_llong vs →
  concat (token_keys <$> (pretty <$> vs)) = to_key <$> vs ∧
  concat (token_warnings <$> (pretty <$> vs)) = [].
Proof.
  induction 1 as [|v vs Hv _ [IH1 IH2]]; [done|].
  rewrite !fmap_cons, !concat_cons, IH1, IH2.
  by rewrite token_keys_pretty, token_warnings_pretty.
Qed.

Lemma alt_data_render rows :
  Forall (Forall in_llong) rows →
  alt_data (render_file "," rows) = to_key <$> concat rows ∧
  alt_warnings (render_file "," rows) = [].
Proof.
  intros Hrows%Forall_concat. unfold alt_data, alt_warnings.
  rewrite file_tokens_render. by apply pretty_keys.
Qed.

(** ** Lines with other tokens *)

Lemma drain_getline_single delim s :
  s ≠ EmptyString → string_all (not_char delim) s = true →
  drain_all (getline delim) s = [s].
Proof.
  intros Hs Hd. rewrite (drain_all_unfold _ (getline_progresses delim)).
  unfold getline. rewrite take_line_all by done. by destruct s.
Qed.

Lemma drain_tokens_app vs rest :
  drain_all (getline comma) (render_line "," vs +:+ String comma rest) =
    match vs with [] => [EmptyString] | _ => pretty <$> vs end
    ++ drain_all (getline comma) rest.
Proof.
  induction vs as [|v [|v' vs] IH].
  - by rewrite (drain_all_unfold _ (getline_progresses comma)).
  - rewrite (drain_all_unfold _ (getline_progresses comma)).
    simpl render_line.
    by rewrite getline_app by apply pretty_Z_no_char, comma_not_numeral.
  - change (render_line "," (v :: v' :: vs))
      with (pretty v +:+ String comma (render_line "," (v' :: vs))).
    rewrite string_app_assoc, (drain_all_unfold _ (getline_progresses comma)).
    rewrite string_app_cons.
    rewrite getline_app by apply pretty_Z_no_char, comma_not_numeral.
    by rewrite IH.
Qed.

Lemma maybe_empty_keys vs :
  Forall in_llong vs →
  concat (token_keys <$> match vs with [] => [EmptyString] | _ => pretty <$> vs end)
    = to_key <$> vs ∧
  concat (token_warnings <$> match vs with [] => [EmptyString] | _ => pretty <$> vs end)
    = [].
Proof. intros Hvs. destruct vs; [done|]. by apply pretty_keys. Qed.

(** A file of one line. *)
Lemma file_tokens_line line :
  line ≠ EmptyString → string_all (not_char newline) line = true →
  file_tokens line = drain_all (getline comma) line.
Proof.
  intros Hne Hnl. unfold file_tokens. rewrite drain_getline_single by done.
  simpl. rewrite app_nil_r. by destruct line.
Qed.

Lemma readFileAlternative_on filename content w :
  files w !! filename = Some content →
  runs (readFileAlternative filename) w (alt_data content)
    (World (files w) (clock w) (ticks w)
       (console w ++ alt_warnings content ++
          [Loaded (length (alt_data content)) filename])).
Proof.
  intros Hf. pose proof (readFileAlternative_runs filename w) as Hr.
  by rewrite Hf in Hr.
Qed.

Lemma comma_app s : "," +:+ s = String comma s.
Proof. done. Qed.

Lemma token_numeral_prefix z rest :
  in_llong z → starts_with isdigit rest = false →
  token_keys (pretty z +:+ rest) = [to_key z] ∧
  token_warnings (pretty z +:+ rest) = [].
Proof.
  intros Hz Hd. unfold token_keys, token_warnings.
  assert (stoll (pretty z +:+ rest) = inr z) as Hs
    by (unfold stoll; by rewrite scan_ll_pretty).
  pose proof (pretty_Z_nonempty z).
  destruct (pretty z +:+ rest) eqn:E; [by destruct (pretty z)|]. by rewrite Hs.
Qed.

(** ** Main results *)

(** C15. [readFile] always returns: whatever the files hold, it yields a
    data set, prints exactly one line and leaves files and clock as they
    were; the line is the error line exactly when the file cannot be
    opened, and otherwise reports the number of keys returned. *)
Theorem readFile_total filename w :
  ∃ data e w',
    runs (readFile filename) w data w' ∧ only_prints w w' [e] ∧
    e = match files w !! filename with
        | None => OpenError filename
        | Some _ => Loaded (length data) filename
        end.
Proof.
  eexists _, _, _. split; [apply readFile_runs|]. split; [done|].
  unfold load_event, file_data. by destruct (files w !! filename).
Qed.

(** C20. Every key [readFile] returns lies strictly between [-INT_MAX]
    and [INT_MAX], so it is a value of type [int]. *)
Theorem readFile_keys filename w data w' :
  runs (readFile filename) w data w' → Forall key_ok data.
Proof. intros [-> _]%readFile_inv. apply file_data_keys. Qed.

Lemma readFile_keys_witness : Forall key_ok [5; 3; 8; 1; 4; 7; 9].
Proof.
  apply (readFile_keys demo_file demo_world _
           (World (files demo_world) (clock demo_world) 0 [Loaded 7 demo_file])).
  by vm_compute.
Defined.

(** C21. A file that cannot be opened is not an error of the program:
    [readFile] returns the empty data set and prints the error line. *)
Theorem readFile_unreadable filename w data w' :
  files w !! filename = None →
  runs (readFile filename) w data w' →
  data = [] ∧ only_prints w w' [OpenError filename].
Proof.
  intros E [-> Hp]%readFile_inv. unfold file_data, load_event in *.
  by rewrite E in *.
Qed.

Lemma readFile_unreadable_witness :
  ([] : list Z) = [] ∧
  only_prints demo_world
    (World (files demo_world) (clock demo_world) 0 [OpenError "missing.txt"])
    [OpenError "missing.txt"].
Proof. apply (readFile_unreadable "missing.txt" demo_world); reflexivity. Defined.

(** C6. Reading is the inverse of writing.  If the file holds rows of
    [long long] values printed in decimal, the values of a row separated
    by a non-empty run of commas and blanks and each row ended by a
    newline, then [readFile] returns the key of every value, row after
    row, and reports their number. *)
Theorem readFile_roundtrip filename sep rows w :
  files w !! filename = Some (render_file sep rows) →
  separator sep →
  Forall (Forall in_llong) rows →
  runs (readFile filename) w (to_key <$> concat rows)
    (World (files w) (clock w) (ticks w)
       (console w ++ [Loaded (length (concat rows)) filename])).
Proof.
  intros Hfile Hsep Hrows. pose proof (readFile_runs filename w) as Hrun.
  unfold file_data, load_event in Hrun. rewrite Hfile in Hrun.
  by rewrite read_lines_render, length_fmap in Hrun.
Qed.

Lemma readFile_roundtrip_witness :
  runs (readFile demo_file) demo_world [5; 3; 8; 1; 4; 7; 9]
    (World (files demo_world) (clock demo_world) 0 [Loaded 7 demo_file]).
Proof.
  apply (readFile_roundtrip demo_file ", " [[5; 3; 8]; [1; 4; 7; 9]] demo_world).
  - reflexivity.
  - split; [done|reflexivity].
  - repeat constructor; by vm_compute.
Defined.

(** C23. A token that is no number ends its line.  When a well-formed
    prefix of a line is followed by a separator and then by text from
    which no number can be extracted, [readFile] keeps the prefix and
    drops the rest of the line, numbers included, without a message. *)
Theorem parse_line_stops sep vs junk :
  separator sep → Forall in_llong vs →
  extract_ll (replace_commas junk) = None →
  parse_line (render_line sep vs +:+ sep +:+ junk) = to_key <$> vs.
Proof.
  intros Hsep Hvs Hjunk. unfold parse_line.
  rewrite !replace_commas_app, drain_render_line_app; [|done..|].
  - rewrite drain_extract_skipws by apply replace_commas_sep, Hsep.
    rewrite (drain_all_unfold _ extract_ll_progresses), Hjunk.
    by rewrite app_nil_r.
  - right. by apply sep_starts_no_digit.
Qed.

Lemma parse_line_stops_witness : parse_line "1,2,x,3" = [1; 2].
Proof.
  apply (parse_line_stops "," [1; 2] "x,3").
  - split; [done|reflexivity].
  - repeat constructor; by vm_compute.
  - reflexivity.
Defined.

(** C27. [readFileAlternative] always returns.  Whatever the files hold
    it yields a data set of keys strictly between [-INT_MAX] and
    [INT_MAX], changes neither files nor clock, and prints one warning
    for each token that [stoll] rejects, in the order of the file,
    followed by the number of keys loaded; or the error line alone when
    the file cannot be opened. *)
Theorem readFileAlternative_spec filename w :
  runs (readFileAlternative filename) w (alt_file_data w filename)
    (World (files w) (clock w) (ticks w) (console w ++ alt_events w filename)) ∧
  Forall key_ok (alt_file_data w filename).
Proof.
  split; [apply readFileAlternative_runs|].
  unfold alt_file_data. destruct (files w !! filename); [|constructor].
  apply alt_data_keys.
Qed.

(** C25. The two loaders agree on well-formed files.  On a file of rows
    of decimal [long long] values separated by single commas, [readFile]
    and [readFileAlternative] return the same keys, leave the same world
    and print the same single line. *)
Theorem loaders_agree filename rows w :
  files w !! filename = Some (render_file "," rows) →
  Forall (Forall in_llong) rows →
  ∃ w', runs (readFile filename) w (to_key <$> concat rows) w' ∧
        runs (readFileAlternative filename) w (to_key <$> concat rows) w' ∧
        only_prints w w' [Loaded (length (concat rows)) filename].
Proof.
  intros Hf Hrows.
  exists (World (files w) (clock w) (ticks w)
            (console w ++ [Loaded (length (concat rows)) filename])).
  split_and!; [| |done].
  - pose proof (readFile_runs filename w) as Hr. unfold file_data, load_event in Hr.
    rewrite Hf, read_lines_render, length_fmap in Hr by done. exact Hr.
  - destruct (alt_data_render rows Hrows) as [Hd Hw].
    pose proof (readFileAlternative_runs filename w) as Hr.
    rewrite Hf, Hd, Hw, length_fmap in Hr. exact Hr.
Qed.

Lemma loaders_agree_witness :
  let w := World {[ "data.txt" := render_file "," [[5; 3]; [8]] ]} (λ _, 0) 0 [] in
  ∃ w', runs (readFile "data.txt") w (to_key <$> concat [[5; 3]; [8]]) w' ∧
        runs (readFileAlternative "data.txt") w (to_key <$> concat [[5; 3]; [8]]) w' ∧
        only_prints w w' [Loaded 3 "data.txt"].
Proof.
  apply (loaders_agree "data.txt" [[5; 3]; [8]]); [reflexivity|].
  repeat constructor; by vm_compute.
Defined.

(** C26. [readFileAlternative] skips a token it cannot convert.  On a
    line of comma-separated values in which one token is rejected by
    [stoll], the values before and after that token are all loaded and
    one warning naming the token is printed before the count.  (On the
    same line [readFile] stops at the token: see [parse_line_stops].) *)
Theorem readFileAlternative_skips filename vs1 junk vs2 e w :
  Forall in_llong vs1 → Forall in_llong vs2 →
  junk ≠ EmptyString →
  string_all (not_char comma) junk = true →
  string_all (not_char newline) junk = true →
  stoll junk = inl e →
  files w !! filename =
    Some (render_line "," vs1 +:+ "," +:+ junk +:+ "," +:+ render_line "," vs2) →
  runs (readFileAlternative filename) w (to_key <$> (vs1 ++ vs2))
    (World (files w) (clock w) (ticks w)
       (console w ++
          [ParseWarning junk; Loaded (length (vs1 ++ vs2)) filename])).
Proof.
  intros Hvs1 Hvs2 Hne Hc Hnl He Hf.
  pose proof (readFileAlternative_on _ _ _ Hf) as Hr.
  unfold alt_data, alt_warnings in Hr. rewrite file_tokens_line in Hr; cycle 1.
  { by apply string_app_nonempty_r. }
  { rewrite !string_all_app, Hnl, !render_line_no_newline by done. done. }
  rewrite !comma_app, drain_tokens_app in Hr.
  rewrite (drain_all_unfold _ (getline_progresses comma)) in Hr.
  rewrite getline_app, drain_tokens_render in Hr by done.
  rewrite !fmap_app, !concat_app, !fmap_cons, !concat_cons in Hr.
  destruct (maybe_empty_keys vs1 Hvs1) as [Hk1 Hw1].
  destruct (pretty_keys vs2 Hvs2) as [Hk2 Hw2]. rewrite Hk1, Hw1, Hk2, Hw2 in Hr.
  unfold token_keys, token_warnings in Hr.
  destruct junk; [done|]. rewrite He in Hr. simpl in Hr.
  by rewrite <- fmap_app, length_fmap in Hr.
Qed.

Lemma readFileAlternative_skips_witness :
  let w := World {[ "data.txt" := "1,2,x,3" ]} (λ _, 0) 0 [] in
  runs (readFileAlternative "data.txt") w [1; 2; 3]
    (World (files w) (clock w) (ticks w)
       [ParseWarning "x"; Loaded 3 "data.txt"]).
Proof.
  apply (readFileAlternative_skips "data.txt" [1; 2] "x" [3] invalid_argument);
    try done; repeat constructor; by vm_compute.
Defined.

(** C28. [stoll] ignores what follows a number.  A token that begins
    with a decimal value followed by anything but a digit (a blank and a
    second number, letters) is loaded as that value alone: the rest of
    the token is dropped and no warning is printed. *)
Theorem readFileAlternative_truncates filename z rest w :
  in_llong z → starts_with isdigit rest = false →
  string_all (not_char comma) rest = true →
  string_all (not_char newline) rest = true →
  files w !! filename = Some (pretty z +:+ rest) →
  runs (readFileAlternative filename) w [to_key z]
    (World (files w) (clock w) (ticks w) (console w ++ [Loaded 1 filename])).
Proof.
  intros Hz Hd Hc Hnl Hf.
  pose proof (readFileAlternative_on _ _ _ Hf) as Hr.
  pose proof (pretty_Z_nonempty z) as Hne.
  assert (pretty z +:+ rest ≠ EmptyString) as Hne' by by destruct (pretty z).
  unfold alt_data, alt_warnings in Hr.
  rewrite file_tokens_line, drain_getline_single in Hr; try done;
    try (rewrite string_all_app, pretty_Z_no_char by done; done).
  destruct (token_numeral_prefix z rest Hz Hd) as [Hk Hw].
  simpl in Hr. by rewrite Hk, Hw in Hr.
Qed.

Lemma readFileAlternative_truncates_witness :
  let w := World {[ "data.txt" := "1 2" ]} (λ _, 0) 0 [] in
  runs (readFileAlternative "data.txt") w [1]
    (World (files w) (clock w) (ticks w) [Loaded 1 "data.txt"]).
Proof.
  apply (readFileAlternative_truncates "data.txt" 1 " 2"); by vm_compute.
Defined.
