(* ===== verification/AList.v ===== *)
(** * AList: sorted association lists

    The reference model of an ordered map: its entries in increasing
    order of key.  The in-order traversal of each tree is such a list,
    and every operation of a tree is specified by the operation of this
    file it performs on the traversal.  The last section relates the
    lists to finite maps, the abstract specification of the contract. *)

From stdpp Require Import gmap sorting.
From S2P Require Import Prelude.

Abbreviation entry := (Z * Z)%type.

(** The keys of a list of entries, in order. *)
Definition keys (l : list entry) : list Z := l.*1.
#[global] Arguments keys : simpl never.

(** Strictly increasing keys. *)
Definition sorted (l : list entry) : Prop := StronglySorted Z.lt (keys l).

(** Every key of the list is below (above) [k]. *)
Definition all_lt (k : Z) (l : list entry) : Prop := Forall (λ e, e.1 < k) l.
Definition all_gt (k : Z) (l : list entry) : Prop := Forall (λ e, k < e.1) l.

Fixpoint al_lookup (k : Z) (l : list entry) : option Z :=
  match l with
  | [] => None
  | (k', v') :: l' => if k =? k' then Some v' else al_lookup k l'
  end.

Fixpoint al_insert (k v : Z) (l : list entry) : list entry :=
  match l with
  | [] => [(k, v)]
  | (k', v') :: l' =>
      if k <? k' then (k, v) :: l
      else if k =? k' then (k, v) :: l'
      else (k', v') :: al_insert k v l'
  end.

Fixpoint al_delete (k : Z) (l : list entry) : list entry :=
  match l with
  | [] => []
  | (k', v') :: l' => if k =? k' then l' else (k', v') :: al_delete k l'
  end.

(** The finite map a list of entries denotes. *)
Definition to_map (l : list entry) : gmap Z Z := list_to_map l.
#[global] Arguments to_map : simpl never.

#[export] Instance sorted_dec l : Decision (sorted l).
Proof. unfold sorted. apply _. Defined.

(** ** Bounds *)

Lemma keys_cons k v l : keys ((k, v) :: l) = k :: keys l.
Proof. done. Qed.

Lemma keys_app l1 l2 : keys (l1 ++ l2) = keys l1 ++ keys l2.
Proof. apply fmap_app. Qed.


Lemma all_lt_nil k : all_lt k [].
Proof. constructor. Qed.
Lemma all_gt_nil k : all_gt k [].
Proof. constructor. Qed.

Lemma all_lt_cons k a v l : all_lt k ((a, v) :: l) ↔ a < k ∧ all_lt k l.
Proof. unfold all_lt. by rewrite Forall_cons. Qed.
Lemma all_gt_cons k a v l : all_gt k ((a, v) :: l) ↔ k < a ∧ all_gt k l.
Proof. unfold all_gt. by rewrite Forall_cons. Qed.

Lemma all_lt_app k l1 l2 : all_lt k (l1 ++ l2) ↔ all_lt k l1 ∧ all_lt k l2.
Proof. apply Forall_app. Qed.
Lemma all_gt_app k l1 l2 : all_gt k (l1 ++ l2) ↔ all_gt k l1 ∧ all_gt k l2.
Proof. apply Forall_app. Qed.

Lemma all_lt_weaken k k' l : all_lt k l → k ≤ k' → all_lt k' l.
Proof. intros H ?. eapply Forall_impl; [done|]. simpl. lia. Qed.
Lemma all_gt_weaken k k' l : all_gt k l → k' ≤ k → all_gt k' l.
Proof. intros H ?. eapply Forall_impl; [done|]. simpl. lia. Qed.

Lemma all_lt_not_in k l : all_lt k l → k ∉ keys l.
Proof.
  unfold all_lt, keys. rewrite Forall_forall, list_elem_of_fmap.
  intros H ([a v] & -> & Hin). apply H in Hin. simpl in *. lia.
Qed.
Lemma all_gt_not_in k l : all_gt k l → k ∉ keys l.
Proof.
  unfold all_gt, keys. rewrite Forall_forall, list_elem_of_fmap.
  intros H ([a v] & -> & Hin). apply H in Hin. simpl in *. lia.
Qed.

(** ** Sortedness *)

Lemma sorted_nil : sorted [].
Proof. constructor. Qed.

Lemma sorted_cons k v l : sorted ((k, v) :: l) ↔ all_gt k l ∧ sorted l.
Proof.
  unfold sorted, keys, all_gt. rewrite fmap_cons, StronglySorted_cons.
  by rewrite Forall_fmap.
Qed.

Lemma sorted_app l1 l2 :
  sorted (l1 ++ l2) ↔
    sorted l1 ∧ sorted l2 ∧ ∀ e1 e2, e1 ∈ l1 → e2 ∈ l2 → e1.1 < e2.1.
Proof.
  unfold sorted, keys. rewrite fmap_app, StronglySorted_app. split.
  - intros (Hlt & ? & ?). split_and!; [done..|]. intros e1 e2 ??.
    apply Hlt; by apply list_elem_of_fmap_2.
  - intros (? & ? & Hlt). split_and!; [|done..].
    intros k1 k2 (e1 & -> & ?)%list_elem_of_fmap (e2 & -> & ?)%list_elem_of_fmap.
    by apply Hlt.
Qed.

Lemma sorted_mid l1 k v l2 :
  sorted (l1 ++ (k, v) :: l2) ↔
    sorted l1 ∧ sorted l2 ∧ all_lt k l1 ∧ all_gt k l2.
Proof.
  rewrite sorted_app, sorted_cons. unfold all_lt, all_gt.
  rewrite !Forall_forall. setoid_rewrite elem_of_cons. split.
  - intros (Hs1 & [Hgt Hs2] & Hlt).
    split_and!; [done..| |done]. intros e ?. apply (Hlt e (k, v)); auto.
  - intros (Hs1 & Hs2 & Hlt & Hgt). split_and!; [done..|].
    intros e1 e2 He1 [->|He2]; [by apply Hlt|].
    apply Hlt in He1. apply Hgt in He2. lia.
Qed.

Lemma sorted_app_l l1 l2 : sorted (l1 ++ l2) → sorted l1.
Proof. by intros (? & ? & ?)%sorted_app. Qed.
Lemma sorted_app_r l1 l2 : sorted (l1 ++ l2) → sorted l2.
Proof. by intros (? & ? & ?)%sorted_app. Qed.

(** The position of a key in a sorted list is unique. *)
Lemma sorted_split_inj l1 l2 l1' l2' k v v' :
  sorted (l1 ++ (k, v) :: l2) →
  l1 ++ (k, v) :: l2 = l1' ++ (k, v') :: l2' →
  l1 = l1' ∧ v = v' ∧ l2 = l2'.
Proof.
  intros Hs. revert l1' Hs.
  induction l1 as [|[a va] l1 IH]; intros [|[b vb] l1'] Hs; simpl.
  - by intros [= -> ->].
  - intros [= <- <- ->]. apply sorted_cons in Hs as [Hs _].
    apply all_gt_app in Hs as [_ Hs]. apply all_gt_cons in Hs. lia.
  - intros [= -> -> E]. simpl in Hs. apply sorted_cons in Hs as [Hs _].
    apply all_gt_app in Hs as [_ Hs]. apply all_gt_cons in Hs. lia.
  - intros [= <- <- E]. simpl in Hs. apply sorted_cons in Hs as [_ Hs].
    destruct (IH _ Hs E) as (-> & -> & ->). done.
Qed.

Lemma sorted_NoDup l : sorted l → NoDup (keys l).
Proof.
  unfold sorted. induction 1 as [|k ks _ IH Hk]; constructor; [|done].
  intros Hin. rewrite Forall_forall in Hk. apply Hk in Hin. lia.
Qed.

(** ** Operations between two halves

    The lemmas the trees use: an operation on a list that is split
    around the place of the key acts at that place. *)

Lemma al_insert_mid k v l1 l2 :
  all_lt k l1 → all_gt k l2 → al_insert k v (l1 ++ l2) = l1 ++ (k, v) :: l2.
Proof.
  intros Hl1 Hl2. induction Hl1 as [|[a va] l1 Ha _ IH]; simpl in *.
  - destruct Hl2 as [|[b vb] l2 Hb _]; simpl in *; [done|]. by case_cmp; try lia.
  - case_cmp; try lia. by rewrite IH.
Qed.

Lemma al_insert_at k v v0 l1 l2 :
  all_lt k l1 → al_insert k v (l1 ++ (k, v0) :: l2) = l1 ++ (k, v) :: l2.
Proof.
  intros Hl1. induction Hl1 as [|[a va] l1 Ha _ IH]; simpl in *.
  - by case_cmp; try lia.
  - case_cmp; try lia. by rewrite IH.
Qed.

Lemma al_delete_absent k l : k ∉ keys l → al_delete k l = l.
Proof.
  induction l as [|[a va] l IH]; simpl; [done|].
  rewrite keys_cons, not_elem_of_cons. intros [??]. case_cmp; [done|]. by rewrite IH.
Qed.

Lemma al_delete_at k v0 l1 l2 :
  all_lt k l1 → al_delete k (l1 ++ (k, v0) :: l2) = l1 ++ l2.
Proof.
  intros Hl1. induction Hl1 as [|[a va] l1 Ha _ IH]; simpl in *.
  - by case_cmp.
  - case_cmp; try lia. by rewrite IH.
Qed.

Lemma al_lookup_absent k l : k ∉ keys l → al_lookup k l = None.
Proof.
  induction l as [|[a va] l IH]; simpl; [done|].
  rewrite keys_cons, not_elem_of_cons. intros [??]. case_cmp; [done|]. by rewrite IH.
Qed.

Lemma al_lookup_at k v0 l1 l2 :
  all_lt k l1 → al_lookup k (l1 ++ (k, v0) :: l2) = Some v0.
Proof.
  intros Hl1. induction Hl1 as [|[a va] l1 Ha _ IH]; simpl in *.
  - by case_cmp.
  - case_cmp; try lia. by rewrite IH.
Qed.

Lemma al_insert_lt k v a va l1 l2 :
  k < a → al_insert k v (l1 ++ (a, va) :: l2) = al_insert k v l1 ++ (a, va) :: l2.
Proof.
  intros Hk. induction l1 as [|[b vb] l1 IH]; simpl.
  - by case_cmp; try lia.
  - case_cmp; try done. by rewrite IH.
Qed.

Lemma al_insert_gt k v a va l1 l2 :
  a < k → all_lt a l1 →
  al_insert k v (l1 ++ (a, va) :: l2) = l1 ++ (a, va) :: al_insert k v l2.
Proof.
  intros Hk Hl1. induction Hl1 as [|[b vb] l1 Hb _ IH]; simpl in *.
  - by case_cmp; try lia.
  - case_cmp; try lia. by rewrite IH.
Qed.

Lemma al_delete_lt k a va l1 l2 :
  k < a → all_gt a l2 →
  al_delete k (l1 ++ (a, va) :: l2) = al_delete k l1 ++ (a, va) :: l2.
Proof.
  intros Hk Hl2. induction l1 as [|[b vb] l1 IH]; simpl.
  - case_cmp; [lia|]. rewrite al_delete_absent; [done|].
    by eapply all_gt_not_in, all_gt_weaken; [|apply Z.lt_le_incl].
  - case_cmp; [done|]. by rewrite IH.
Qed.

Lemma al_delete_gt k a va l1 l2 :
  a < k → all_lt a l1 →
  al_delete k (l1 ++ (a, va) :: l2) = l1 ++ (a, va) :: al_delete k l2.
Proof.
  intros Hk Hl1. induction Hl1 as [|[b vb] l1 Hb _ IH]; simpl in *.
  - by case_cmp; try lia.
  - case_cmp; try lia. by rewrite IH.
Qed.

Lemma al_lookup_lt k a va l1 l2 :
  k < a → all_gt a l2 → al_lookup k (l1 ++ (a, va) :: l2) = al_lookup k l1.
Proof.
  intros Hk Hl2. induction l1 as [|[b vb] l1 IH]; simpl.
  - case_cmp; [lia|]. apply al_lookup_absent.
    by eapply all_gt_not_in, all_gt_weaken; [|apply Z.lt_le_incl].
  - by case_cmp.
Qed.

Lemma al_lookup_gt k a va l1 l2 :
  a < k → all_lt a l1 → al_lookup k (l1 ++ (a, va) :: l2) = al_lookup k l2.
Proof.
  intros Hk Hl1. induction Hl1 as [|[b vb] l1 Hb _ IH]; simpl in *.
  - by case_cmp; try lia.
  - by case_cmp; try lia.
Qed.

(** ** The operations keep the list sorted *)

Lemma al_insert_all_gt a k v l : a < k → all_gt a l → all_gt a (al_insert k v l).
Proof.
  intros Hk. induction l as [|[b vb] l IH]; simpl.
  - intros _. apply all_gt_cons. split; [done|apply all_gt_nil].
  - rewrite all_gt_cons. intros [??].
    case_cmp; rewrite !all_gt_cons; auto.
Qed.

Lemma al_delete_all_gt a k l : all_gt a l → all_gt a (al_delete k l).
Proof.
  induction l as [|[b vb] l IH]; simpl; [done|].
  rewrite all_gt_cons. intros [??]. case_cmp; [done|]. rewrite all_gt_cons. auto.
Qed.

Lemma al_insert_sorted k v l : sorted l → sorted (al_insert k v l).
Proof.
  induction l as [|[a va] l IH]; simpl.
  - intros _. apply sorted_cons. split; [apply all_gt_nil|apply sorted_nil].
  - rewrite sorted_cons. intros [Hgt Hs]. case_cmp.
    + rewrite !sorted_cons, all_gt_cons. split_and!; [done| |done..].
      by eapply all_gt_weaken; [|apply Z.lt_le_incl].
    + subst. by rewrite sorted_cons.
    + rewrite sorted_cons. split; [apply al_insert_all_gt; [lia|done]|auto].
Qed.

Lemma al_delete_sorted k l : sorted l → sorted (al_delete k l).
Proof.
  induction l as [|[a va] l IH]; simpl; [done|].
  rewrite sorted_cons. intros [Hgt Hs]. case_cmp; [done|].
  rewrite sorted_cons. split; [by apply al_delete_all_gt|auto].
Qed.

(** ** Keys and length *)

Lemma al_insert_keys k v l x : x ∈ keys (al_insert k v l) ↔ x = k ∨ x ∈ keys l.
Proof.
  induction l as [|[a va] l IH]; simpl.
  - rewrite keys_cons, elem_of_cons. naive_solver.
  - case_cmp; subst; rewrite !keys_cons, !elem_of_cons, ?IH; naive_solver.
Qed.

Lemma al_delete_keys k l x :
  sorted l → x ∈ keys (al_delete k l) ↔ x ≠ k ∧ x ∈ keys l.
Proof.
  induction l as [|[a va] l IH]; simpl.
  - intros _. rewrite elem_of_nil. naive_solver.
  - rewrite sorted_cons. intros [Hgt Hs]. case_cmp; subst.
    + apply all_gt_not_in in Hgt. rewrite keys_cons, elem_of_cons. naive_solver.
    + rewrite !keys_cons, !elem_of_cons, IH by done. naive_solver.
Qed.

Lemma al_lookup_keys k l : is_Some (al_lookup k l) ↔ k ∈ keys l.
Proof.
  induction l as [|[a va] l IH]; simpl.
  - rewrite elem_of_nil. split; [by intros []|done].
  - rewrite keys_cons, elem_of_cons. case_cmp; [naive_solver|].
    rewrite IH. naive_solver.
Qed.

(** ** The finite map of a list *)

Lemma to_map_nil : to_map [] = ∅.
Proof. done. Qed.

Lemma to_map_cons k v l : to_map ((k, v) :: l) = <[k:=v]> (to_map l).
Proof. done. Qed.

Lemma to_map_lookup k l : to_map l !! k = al_lookup k l.
Proof.
  induction l as [|[a va] l IH]; simpl; [done|]. rewrite to_map_cons.
  case_cmp; subst; [by rewrite lookup_insert_eq|].
  by rewrite lookup_insert_ne.
Qed.

Lemma to_map_insert k v l : to_map (al_insert k v l) = <[k:=v]> (to_map l).
Proof.
  induction l as [|[a va] l IH]; simpl; [done|].
  case_cmp; subst; rewrite !to_map_cons.
  - done.
  - by rewrite insert_insert_eq.
  - rewrite IH. by apply insert_insert_ne.
Qed.

Lemma to_map_delete k l :
  sorted l → to_map (al_delete k l) = delete k (to_map l).
Proof.
  induction l as [|[a va] l IH]; simpl.
  - intros _. by rewrite to_map_nil, delete_empty.
  - rewrite sorted_cons. intros [Hgt Hs]. case_cmp; subst; rewrite !to_map_cons.
    + rewrite delete_insert_eq, delete_id; [done|].
      rewrite to_map_lookup. by apply al_lookup_absent, all_gt_not_in.
    + rewrite IH by done. by rewrite delete_insert_ne.
Qed.

Lemma to_map_dom l : dom (to_map l) = list_to_set (keys l).
Proof. apply dom_list_to_map_L. Qed.

Lemma to_map_size l : sorted l → size (to_map l) = length l.
Proof. intros. by apply map_size_list_to_map, sorted_NoDup. Qed.

Lemma al_lookup_None k l : al_lookup k l = None ↔ k ∉ keys l.
Proof. rewrite <- al_lookup_keys, eq_None_not_Some. done. Qed.

Lemma al_insert_length k v l :
  sorted l →
  length (al_insert k v l) =
    if bool_decide (k ∈ keys l) then length l else S (length l).
Proof.
  intros Hs. rewrite <- !to_map_size, to_map_insert by auto using al_insert_sorted.
  rewrite map_size_insert, to_map_lookup.
  case_bool_decide as Hk.
  - apply al_lookup_keys in Hk as [? ->]. done.
  - apply al_lookup_None in Hk as ->. done.
Qed.

Lemma al_delete_length k l :
  sorted l →
  length (al_delete k l) =
    if bool_decide (k ∈ keys l) then pred (length l) else length l.
Proof.
  intros Hs. rewrite <- !to_map_size, to_map_delete by auto using al_delete_sorted.
  rewrite map_size_delete, to_map_lookup.
  case_bool_decide as Hk.
  - apply al_lookup_keys in Hk as [? ->]. done.
  - apply al_lookup_None in Hk as ->. done.
Qed.

(** Two sorted lists that denote the same map are the same list: the
    in-order traversal of a tree is determined by its contents. *)
Lemma al_lookup_all_gt k l : all_gt k l → al_lookup k l = None.
Proof. intros. by apply al_lookup_absent, all_gt_not_in. Qed.

Lemma sorted_lookup_ext l1 l2 :
  sorted l1 → sorted l2 → (∀ k, al_lookup k l1 = al_lookup k l2) → l1 = l2.
Proof.
  revert l2. induction l1 as [|[k1 v1] l1 IH]; intros [|[k2 v2] l2].
  - done.
  - intros _ _ E. specialize (E k2). simpl in E. by rewrite Z.eqb_refl in E.
  - intros _ _ E. specialize (E k1). simpl in E. by rewrite Z.eqb_refl in E.
  - rewrite !sorted_cons. intros [G1 S1] [G2 S2] E.
    assert (k1 = k2) as ->.
    { pose proof (E k1) as E1. pose proof (E k2) as E2. simpl in E1, E2.
      rewrite Z.eqb_refl in E1, E2. destruct (Z.lt_total k1 k2) as [?|[?|?]]; [|done|].
      - rewrite al_lookup_all_gt in E1 by (eapply all_gt_weaken; [done|lia]).
        by case_cmp.
      - rewrite al_lookup_all_gt in E2 by (eapply all_gt_weaken; [done|lia]).
        by case_cmp. }
    pose proof (E k2) as E2. simpl in E2. rewrite Z.eqb_refl in E2.
    injection E2 as ->. f_equal. apply IH; [done..|]. intros k.
    specialize (E k). simpl in E. case_cmp; [subst|done].
    by rewrite !al_lookup_all_gt.
Qed.

Lemma to_map_inj l1 l2 : sorted l1 → sorted l2 → to_map l1 = to_map l2 → l1 = l2.
Proof.
  intros ?? E. apply sorted_lookup_ext; [done..|]. intros k.
  by rewrite <- !to_map_lookup, E.
Qed.
