(* ===== verification/Tree.v ===== *)
(** * Tree: nodes, traversal, rotations and paths

    The node abstraction the three structures share.  A node holds a
    key, a value and two children; the red-black tree adds a colour, so
    the node carries a tag of a type [C] that is [unit] for the other
    two.  The parent reference of a node is not stored: a position in a
    tree is the subtree at that position together with the [path] of
    ancestors above it, nearest first, each with the side the position
    is on and the sibling subtree.  Climbing to the parent is taking the
    head of the path; a rotation at a node rebuilds the two nodes it
    exchanges. *)

From S2P Require Import Prelude AList.

Section Nodes.
Context {C : Type}.

Inductive tree : Type :=
  | Leaf
  | Node (c : C) (l : tree) (k v : Z) (r : tree).

(** In-order traversal. *)
Fixpoint inorder (t : tree) : list entry :=
  match t with
  | Leaf => []
  | Node _ l k v r => inorder l ++ (k, v) :: inorder r
  end.

(** The number of nodes reachable from the root. *)
Fixpoint nodes (t : tree) : nat :=
  match t with
  | Leaf => 0
  | Node _ l _ _ r => S (nodes l + nodes r)
  end.

(** The number of nodes on the longest path from the root. *)
Fixpoint height (t : tree) : nat :=
  match t with
  | Leaf => 0
  | Node _ l _ _ r => S (height l `max` height r)
  end.

(** A tree that only grows to the right: the shape of a list. *)
Fixpoint right_spine (t : tree) : Prop :=
  match t with
  | Leaf => True
  | Node _ l _ _ r => l = Leaf ∧ right_spine r
  end.

(** Search from the root by key comparison. *)
Fixpoint lookup (k : Z) (t : tree) : option Z :=
  match t with
  | Leaf => None
  | Node _ l k' v' r =>
      if k <? k' then lookup k l
      else if k' <? k then lookup k r
      else Some v'
  end.

Definition mem (k : Z) (t : tree) : bool := bool_decide (is_Some (lookup k t)).

(** The search-tree property: at every node the keys on the left are
    smaller and the keys on the right are larger. *)
Fixpoint all_keys (P : Z → Prop) (t : tree) : Prop :=
  match t with
  | Leaf => True
  | Node _ l k _ r => P k ∧ all_keys P l ∧ all_keys P r
  end.

Fixpoint bst (t : tree) : Prop :=
  match t with
  | Leaf => True
  | Node _ l k _ r =>
      all_keys (λ x, x < k) l ∧ all_keys (λ x, k < x) r ∧ bst l ∧ bst r
  end.

(** ** Rotations *)

(** The left child of the root becomes the root. *)
Definition rotate_right (t : tree) : tree :=
  match t with
  | Node c (Node c' a k' v' b) k v d => Node c' a k' v' (Node c b k v d)
  | _ => t
  end.

(** The right child of the root becomes the root. *)
Definition rotate_left (t : tree) : tree :=
  match t with
  | Node c a k v (Node c' b k' v' d) => Node c' (Node c a k v b) k' v' d
  | _ => t
  end.

(** ** Paths *)

Inductive side : Type := L | R.

#[export] Instance side_eq_dec : EqDecision side.
Proof. solve_decision. Defined.

(** An ancestor seen from below: the side the position is on, the
    ancestor's own fields, and its other child. *)
Record frame : Type := Frame {
  fside : side;
  ftag : C;
  fkey : Z;
  fval : Z;
  fsib : tree
}.

Definition path : Type := list frame.

(** The ancestor with [t] put back under it. *)
Definition plug1 (f : frame) (t : tree) : tree :=
  match fside f with
  | L => Node (ftag f) t (fkey f) (fval f) (fsib f)
  | R => Node (ftag f) (fsib f) (fkey f) (fval f) t
  end.

(** The whole tree with [t] at the position the path leads to. *)
Fixpoint plug (t : tree) (p : path) : tree :=
  match p with
  | [] => t
  | f :: p' => plug (plug1 f t) p'
  end.

(** The walk from [t] toward key [k]: the position where the key is, or
    the empty position where it would be, with the path extended. *)
Fixpoint descend (k : Z) (t : tree) (p : path) : path * tree :=
  match t with
  | Leaf => (p, Leaf)
  | Node c l k' v' r =>
      if k <? k' then descend k l (Frame L c k' v' r :: p)
      else if k' <? k then descend k r (Frame R c k' v' l :: p)
      else (p, t)
  end.

(** The entries of the tree before and after the position of a path. *)
Fixpoint before (p : path) : list entry :=
  match p with
  | [] => []
  | f :: p' =>
      before p' ++
      match fside f with
      | L => []
      | R => inorder (fsib f) ++ [(fkey f, fval f)]
      end
  end.

Fixpoint after (p : path) : list entry :=
  match p with
  | [] => []
  | f :: p' =>
      match fside f with
      | L => (fkey f, fval f) :: inorder (fsib f)
      | R => []
      end ++ after p'
  end.

(** The entry at the root. *)
Definition root_entry t : option entry :=
  match t with
  | Leaf => None
  | Node _ _ k v _ => Some (k, v)
  end.

(** ** Traversal *)

Lemma nodes_inorder t : nodes t = length (inorder t).
Proof.
  induction t as [|c l IHl k v r IHr]; simpl; [done|].
  rewrite length_app. simpl. lia.
Qed.

Lemma all_keys_inorder P t : all_keys P t ↔ Forall (λ e, P e.1) (inorder t).
Proof.
  induction t as [|c l IHl k v r IHr]; simpl.
  - split; [constructor|done].
  - rewrite Forall_app, Forall_cons, IHl, IHr. simpl. tauto.
Qed.

Lemma bst_sorted t : bst t ↔ sorted (inorder t).
Proof.
  induction t as [|c l IHl k v r IHr]; simpl.
  - split; [intros; apply sorted_nil|done].
  - rewrite sorted_mid, !all_keys_inorder, IHl, IHr. unfold all_lt, all_gt. tauto.
Qed.

Lemma lookup_inorder k t : sorted (inorder t) → lookup k t = al_lookup k (inorder t).
Proof.
  induction t as [|c l IHl a v r IHr]; simpl; [done|].
  rewrite sorted_mid. intros (Hl & Hr & Hlt & Hgt). case_cmp.
  - by rewrite IHl, al_lookup_lt.
  - by rewrite IHr, al_lookup_gt.
  - assert (k = a) as -> by lia. by rewrite al_lookup_at.
Qed.

Lemma mem_inorder k t :
  sorted (inorder t) → mem k t = bool_decide (k ∈ keys (inorder t)).
Proof.
  intros Hs. unfold mem. rewrite lookup_inorder by done.
  apply bool_decide_ext, al_lookup_keys.
Qed.


Lemma inorder_rotate_right t : inorder (rotate_right t) = inorder t.
Proof.
  destruct t as [|c [|c' a k' v' b] k v d]; simpl; [done..|].
  by rewrite <- app_assoc.
Qed.

Lemma inorder_rotate_left t : inorder (rotate_left t) = inorder t.
Proof.
  destruct t as [|c a k v [|c' b k' v' d]]; simpl; [done..|].
  by rewrite <- app_assoc.
Qed.

Lemma inorder_plug1 f t :
  inorder (plug1 f t) = before [f] ++ inorder t ++ after [f].
Proof.
  destruct f as [[] c k v s]; unfold plug1; simpl.
  - by rewrite app_nil_r.
  - by rewrite app_nil_r, <- !app_assoc.
Qed.

Lemma inorder_plug t p : inorder (plug t p) = before p ++ inorder t ++ after p.
Proof.
  revert t. induction p as [|f p IH]; intros t; simpl.
  - by rewrite app_nil_r.
  - rewrite IH, inorder_plug1. simpl. by rewrite app_nil_r, <- !app_assoc.
Qed.

(** ** Walking down *)

Lemma plug_descend k t p : plug (descend k t p).2 (descend k t p).1 = plug t p.
Proof.
  revert p. induction t as [|c l IHl a v r IHr]; intros p; simpl; [done|].
  case_cmp; [by rewrite IHl|by rewrite IHr|done].
Qed.

(** The walk stops with every entry before the position below the key
    and every entry after it above, at a node that holds the key or at
    an empty position. *)
Lemma descend_spec k t p p' t' :
  descend k t p = (p', t') →
  sorted (inorder (plug t p)) → all_lt k (before p) → all_gt k (after p) →
  plug t' p' = plug t p ∧ all_lt k (before p') ∧ all_gt k (after p') ∧
  (t' = Leaf ∨ ∃ c l v r, t' = Node c l k v r).
Proof.
  revert p. induction t as [|c l IHl a v r IHr]; intros p; simpl.
  { intros [= <- <-]. auto. }
  intros Hd Hs Hb Ha. pose proof Hs as Hs'.
  rewrite inorder_plug in Hs'. simpl in Hs'.
  apply sorted_app_r, sorted_app_l, sorted_mid in Hs' as (_ & _ & Hl & Hr).
  case_cmp.
  - apply IHl in Hd; [done|exact Hs|by simpl; rewrite app_nil_r|].
    simpl. rewrite all_gt_cons, all_gt_app.
    split_and!; [done| |done]. by eapply all_gt_weaken; [|apply Z.lt_le_incl].
  - apply IHr in Hd; [done|exact Hs| |done]. simpl.
    rewrite !all_lt_app, all_lt_cons. split_and!; [done| |done|apply all_lt_nil].
    by eapply all_lt_weaken; [|apply Z.lt_le_incl].
  - assert (k = a) as -> by lia. simplify_eq. split_and!; [done..|].
    right. eauto.
Qed.

Lemma inorder_nil t : inorder t = [] → t = Leaf.
Proof. destruct t as [|c l k v r]; [done|]. simpl. by destruct (inorder l). Qed.

Lemma path_pair_ind (P : path → Prop) :
  P [] → (∀ f, P [f]) → (∀ f1 f2 p, P p → P (f1 :: f2 :: p)) → ∀ p, P p.
Proof.
  intros H0 H1 H2 p. cut (P p ∧ ∀ f, P (f :: p)); [by intros []|].
  induction p as [|f p [IH1 IH2]]; split; auto.
Qed.

Lemma inorder_plug_ext t t' p :
  inorder t = inorder t' → inorder (plug t p) = inorder (plug t' p).
Proof. intros E. by rewrite !inorder_plug, E. Qed.

(** ** Paths end to end *)

Lemma plug_app t p q : plug t (p ++ q) = plug (plug t p) q.
Proof. revert t. induction p as [|f p IH]; intros t; simpl; [done|apply IH]. Qed.

Lemma before_app p q : before (p ++ q) = before q ++ before p.
Proof.
  induction p as [|f p IH]; simpl; [by rewrite app_nil_r|].
  by rewrite IH, app_assoc.
Qed.

Lemma after_app p q : after (p ++ q) = after p ++ after q.
Proof. induction p as [|f p IH]; simpl; [done|]. by rewrite IH, app_assoc. Qed.

(** ** The position of a key

    What the walk down from the root finds, in terms of the traversal of
    the tree: the facts every structure that edits at the end of a path
    needs. *)

Section Located.
Context (k : Z) (t : tree) (p : path) (n : tree).
Hypothesis Hd : descend k t [] = (p, n).
Hypothesis Hs : sorted (inorder t).

Lemma located_plug : plug n p = t.
Proof. by destruct (descend_spec _ _ _ _ _ Hd Hs) as (? & _); try constructor. Qed.

Lemma located_inorder : inorder t = before p ++ inorder n ++ after p.
Proof. by rewrite <- inorder_plug, located_plug. Qed.

Lemma located_lt : all_lt k (before p).
Proof. by destruct (descend_spec _ _ _ _ _ Hd Hs) as (_ & ? & _); try constructor. Qed.

Lemma located_gt : all_gt k (after p).
Proof. by destruct (descend_spec _ _ _ _ _ Hd Hs) as (_ & _ & ? & _); try constructor. Qed.

Lemma located_key c l k' v' r : n = Node c l k' v' r → k' = k.
Proof.
  destruct (descend_spec _ _ _ _ _ Hd Hs) as (_ & _ & _ & [->|(?&?&?&?&->)]);
    try constructor; congruence.
Qed.

Lemma located_leaf_absent : n = Leaf → k ∉ keys (inorder t).
Proof.
  intros E. rewrite located_inorder, E, keys_app. simpl.
  rewrite not_elem_of_app. split; [apply all_lt_not_in, located_lt|apply all_gt_not_in, located_gt].
Qed.

Lemma located_leaf_insert v :
  n = Leaf → al_insert k v (inorder t) = before p ++ (k, v) :: after p.
Proof.
  intros E. rewrite located_inorder, E. simpl.
  apply al_insert_mid; [apply located_lt|apply located_gt].
Qed.

Lemma located_node_lt c l v' r : n = Node c l k v' r → all_lt k (before p ++ inorder l).
Proof.
  intros E. pose proof Hs as Hs'. rewrite located_inorder, E in Hs'. simpl in Hs'.
  rewrite <- app_assoc, app_assoc in Hs'. by apply sorted_mid in Hs' as (_ & _ & ? & _).
Qed.

Lemma located_node_gt c l v' r : n = Node c l k v' r → all_gt k (inorder r ++ after p).
Proof.
  intros E. pose proof Hs as Hs'. rewrite located_inorder, E in Hs'. simpl in Hs'.
  rewrite <- app_assoc, app_assoc in Hs'. by apply sorted_mid in Hs' as (_ & _ & _ & ?).
Qed.

Lemma located_node_inorder c l v' r :
  n = Node c l k v' r →
  inorder t = (before p ++ inorder l) ++ (k, v') :: (inorder r ++ after p).
Proof. intros E. rewrite located_inorder, E. simpl. by rewrite <- !app_assoc. Qed.

Lemma located_node_present c l v' r : n = Node c l k v' r → k ∈ keys (inorder t).
Proof.
  intros E. rewrite (located_node_inorder _ _ _ _ E), keys_app, keys_cons.
  apply elem_of_app. right. apply elem_of_cons. by left.
Qed.

Lemma located_node_insert c l v' r v :
  n = Node c l k v' r →
  al_insert k v (inorder t) = before p ++ (inorder l ++ (k, v) :: inorder r) ++ after p.
Proof.
  intros E. rewrite (located_node_inorder _ _ _ _ E).
  rewrite al_insert_at by by eapply located_node_lt. by rewrite <- !app_assoc.
Qed.

Lemma located_node_delete c l v' r :
  n = Node c l k v' r →
  al_delete k (inorder t) = before p ++ (inorder l ++ inorder r) ++ after p.
Proof.
  intros E. rewrite (located_node_inorder _ _ _ _ E).
  rewrite al_delete_at by by eapply located_node_lt. by rewrite <- !app_assoc.
Qed.

End Located.
End Nodes.

Arguments tree : clear implicits.
Arguments frame : clear implicits.
Arguments path : clear implicits.
