(* ===== verification/OrderedMap.v ===== *)
(** * OrderedMap: the contract of the three structures

    Each tree is an ordered map over [int] keys with [put], [contains]
    and [del]; the driver uses nothing else of it.  The contract is a
    class of operations, [OrderedMap], and a class of laws,
    [OrderedMapLaws], that says what the operations do to the in-order
    traversal of the structure.  [contains] returns the structure as
    well as the answer: a splay tree is reshaped by a search.

    Clients are verified against the laws alone.  The section
    [Refinement] derives from them that a structure implements a finite
    map: [contents] is the abstraction function, and each operation
    commutes with the operation of the map it stands for. *)

From stdpp Require Import gmap relations.
From S2P Require Import Prelude AList.

Class OrderedMap (T : Type) : Type := {
  om_empty : T;                          (* the default constructor *)
  om_put : Z → Z → T → T;
  om_contains : Z → T → bool * T;
  om_del : Z → T → T;
  om_entries : T → list entry;           (* in-order traversal *)
  om_count : T → nat;                    (* the stored count *)
  om_inv : T → Prop                      (* the invariant of the structure *)
}.

Class OrderedMapLaws (T : Type) `{OrderedMap T} : Prop := {
  om_empty_inv : om_inv om_empty;
  om_empty_entries : om_entries om_empty = [];
  om_inv_sorted t : om_inv t → sorted (om_entries t);
  om_inv_count t : om_inv t → om_count t = length (om_entries t);
  om_put_inv k v t : om_inv t → om_inv (om_put k v t);
  om_put_entries k v t :
    om_inv t → om_entries (om_put k v t) = al_insert k v (om_entries t);
  om_contains_inv k t : om_inv t → om_inv (om_contains k t).2;
  om_contains_entries k t :
    om_inv t → om_entries (om_contains k t).2 = om_entries t;
  om_contains_result k t :
    om_inv t → (om_contains k t).1 = bool_decide (k ∈ keys (om_entries t));
  om_del_inv k t : om_inv t → om_inv (om_del k t);
  om_del_entries k t :
    om_inv t → om_entries (om_del k t) = al_delete k (om_entries t)
}.

(** The finite map a structure stands for. *)
Definition contents `{OrderedMap T} (t : T) : gmap Z Z := to_map (om_entries t).

Notation "⟦ t ⟧" := (contents t) (format "⟦ t ⟧") : bench_scope.

(** One call of the public interface. *)
Inductive step `{OrderedMap T} : T → T → Prop :=
  | step_put k v t : step t (om_put k v t)
  | step_contains k t : step t (om_contains k t).2
  | step_del k t : step t (om_del k t).

(** The structures a client can hold: those built from the empty one by
    calls of the interface. *)
Definition reachable `{OrderedMap T} (t : T) : Prop := rtc step om_empty t.

(** Two structures in their invariant that stand for the same map. *)
Definition same_map `{OrderedMap T} (t1 t2 : T) : Prop :=
  om_inv t1 ∧ om_inv t2 ∧ ⟦t1⟧ = ⟦t2⟧.

Infix "≈" := same_map (at level 70) : bench_scope.

#[export] Hint Resolve om_empty_inv om_put_inv om_contains_inv om_del_inv
  om_inv_sorted : bench.

Section Refinement.
Context `{OrderedMapLaws T}.
Implicit Types (t : T) (k v : Z).

Lemma contents_empty : ⟦om_empty : T⟧ = ∅.
Proof. unfold contents. by rewrite om_empty_entries. Qed.

Lemma contents_put k v t :
  om_inv t → ⟦om_put k v t⟧ = <[k:=v]> ⟦t⟧.
Proof. intros. unfold contents. by rewrite om_put_entries, to_map_insert. Qed.

Lemma contents_del k t :
  om_inv t → ⟦om_del k t⟧ = delete k ⟦t⟧.
Proof.
  intros. unfold contents. rewrite om_del_entries, to_map_delete; auto with bench.
Qed.

Lemma contents_contains k t :
  om_inv t → ⟦(om_contains k t).2⟧ = ⟦t⟧.
Proof. intros. unfold contents. by rewrite om_contains_entries. Qed.

Lemma contains_contents k t :
  om_inv t → (om_contains k t).1 = bool_decide (is_Some (⟦t⟧ !! k)).
Proof.
  intros. rewrite om_contains_result by done. unfold contents.
  rewrite to_map_lookup. apply bool_decide_ext. by rewrite al_lookup_keys.
Qed.

Lemma count_contents t : om_inv t → om_count t = size ⟦t⟧.
Proof.
  intros. unfold contents. rewrite to_map_size, om_inv_count; auto with bench.
Qed.

Lemma keys_contents k t : k ∈ keys (om_entries t) ↔ is_Some (⟦t⟧ !! k).
Proof. unfold contents. by rewrite to_map_lookup, al_lookup_keys. Qed.

End Refinement.

(** Two structures that stand for the same map have the same in-order
    traversal, whatever their shapes and whatever their types. *)
Lemma entries_eq `{OrderedMapLaws T1} `{OrderedMapLaws T2} (t1 : T1) (t2 : T2) :
  om_inv t1 → om_inv t2 → ⟦t1⟧ = ⟦t2⟧ →
  om_entries t1 = om_entries t2.
Proof. intros. apply to_map_inj; auto with bench. Qed.

Lemma count_eq `{OrderedMapLaws T1} `{OrderedMapLaws T2} (t1 : T1) (t2 : T2) :
  om_inv t1 → om_inv t2 → ⟦t1⟧ = ⟦t2⟧ → om_count t1 = om_count t2.
Proof. intros ?? E. by rewrite !count_contents, E. Qed.

(** ** Reachable structures, and structures equal as maps *)

Section Reach.
Context `{OrderedMapLaws T}.
Implicit Types (t : T) (k v : Z).

Lemma step_inv t t' : step t t' → om_inv t → om_inv t'.
Proof. destruct 1; auto with bench. Qed.

Lemma reachable_inv t : reachable t → om_inv t.
Proof.
  unfold reachable. revert t. apply rtc_ind_r; [apply om_empty_inv|].
  eauto using step_inv.
Qed.

Lemma reachable_sorted t : reachable t → sorted (om_entries t).
Proof. intros. by apply om_inv_sorted, reachable_inv. Qed.

Lemma reachable_count t : reachable t → om_count t = size ⟦t⟧.
Proof. intros. by apply count_contents, reachable_inv. Qed.

Lemma reachable_step t t' : reachable t → step t t' → reachable t'.
Proof. intros. by eapply rtc_r. Qed.

Lemma same_map_refl t : om_inv t → t ≈ t.
Proof. intros ?. by repeat split. Qed.

#[export] Instance same_map_per : RelationClasses.PER (same_map (T:=T)).
Proof.
  split.
  - by intros t1 t2 (? & ? & ?).
  - intros t1 t2 t3 (? & ? & ?) (? & ? & ?). repeat split; [done..|congruence].
Qed.

#[export] Instance om_put_proper k v : Proper (same_map ==> same_map) (om_put (T:=T) k v).
Proof.
  intros t1 t2 (? & ? & E). repeat split; auto with bench.
  by rewrite !contents_put, E.
Qed.

#[export] Instance om_del_proper k : Proper (same_map ==> same_map) (om_del (T:=T) k).
Proof.
  intros t1 t2 (? & ? & E). repeat split; auto with bench.
  by rewrite !contents_del, E.
Qed.

#[export] Instance om_entries_proper : Proper (same_map ==> eq) (om_entries (T:=T)).
Proof. intros t1 t2 (? & ? & E). by apply entries_eq. Qed.

#[export] Instance om_count_proper : Proper (same_map ==> eq) (om_count (T:=T)).
Proof. intros t1 t2 (? & ? & E). by apply count_eq. Qed.

Lemma contains_same_map k t : om_inv t → (om_contains k t).2 ≈ t.
Proof. intros. repeat split; auto with bench. by apply contents_contains. Qed.

Lemma contains_result_proper k t1 t2 :
  t1 ≈ t2 → (om_contains k t1).1 = (om_contains k t2).1.
Proof. intros (? & ? & E). by rewrite !contains_contents, E. Qed.

End Reach.
