(* ===== verification/Unbalanced.v ===== *)
(** * Unbalanced: the unbalanced binary search tree

    The baseline structure of the design document (section 4.1): no
    rebalancing, insertion by recursive descent to the first empty
    position, deletion by splicing a node with at most one child and by
    replacing a node with two children by its in-order successor, which
    is then deleted from the right subtree.  The tree object holds the
    root and the count of stored keys. *)

From S2P Require Import Prelude AList Tree OrderedMap.

Module BST.

(** Nodes carry no tag. *)
Abbreviation node := (tree unit).

Record t : Type := Make {
  root : node;
  count : nat
}.

Definition empty : t := Make Leaf 0.

(** Recursive placement: a new leaf at the first empty position, or the
    value replaced in place when the key is there. *)
Fixpoint insert (k v : Z) (n : node) : node :=
  match n with
  | Leaf => Node () Leaf k v Leaf
  | Node c l k' v' r =>
      if k <? k' then Node c (insert k v l) k' v' r
      else if k' <? k then Node c l k' v' (insert k v r)
      else Node c l k v r
  end.

(** The leftmost entry of a subtree, [d] when it is empty. *)
Fixpoint min_entry (n : node) (d : entry) : entry :=
  match n with
  | Leaf => d
  | Node _ l k v _ => min_entry l (k, v)
  end.

(** Recursive removal. *)
Fixpoint remove (k : Z) (n : node) : node :=
  match n with
  | Leaf => Leaf
  | Node c l k' v' r =>
      if k <? k' then Node c (remove k l) k' v' r
      else if k' <? k then Node c l k' v' (remove k r)
      else
        match l, r with
        | Leaf, _ => r
        | _, Leaf => l
        | _, _ =>
            let '(sk, sv) := min_entry r (k', v') in
            Node c l sk sv (remove sk r)
        end
  end.

Definition put (k v : Z) (b : t) : t :=
  Make (insert k v (root b))
       (if mem k (root b) then count b else S (count b)).

Definition contains (k : Z) (b : t) : bool := mem k (root b).

Definition del (k : Z) (b : t) : t :=
  Make (remove k (root b))
       (if mem k (root b) then pred (count b) else count b).

(** The invariant: the search-tree property, and the count is the number
    of nodes. *)
Definition inv (b : t) : Prop := bst (root b) ∧ count b = nodes (root b).

Definition entries (b : t) : list entry := inorder (root b).

(** ** Insertion *)

Lemma bst_inorder_insert k v n :
  sorted (inorder n) → inorder (insert k v n) = al_insert k v (inorder n).
Proof.
  induction n as [|c l IHl a va r IHr]; simpl; [done|].
  rewrite sorted_mid. intros (Hl & Hr & Hlt & Hgt). case_cmp; simpl.
  - by rewrite IHl, al_insert_lt.
  - by rewrite IHr, al_insert_gt.
  - assert (k = a) as -> by lia. by rewrite al_insert_at.
Qed.

(** Inserting a key above every key of a right spine extends the spine:
    the tree gets one level deeper. *)
Lemma bst_insert_spine k v n :
  right_spine n → all_keys (λ x, x < k) n →
  right_spine (insert k v n) ∧
  height (insert k v n) = S (height n) ∧
  all_keys (λ x, x < k + 1) (insert k v n).
Proof.
  induction n as [|c l _ a va r IH]; simpl.
  - intros _ _. split_and!; [done..|lia|done|done].
  - intros [-> Hr] (Ha & _ & Hlt). case_cmp; try lia.
    destruct (IH Hr Hlt) as (? & Hh & ?). simpl. rewrite Hh.
    split_and!; [done..|lia|lia|done|done].
Qed.

(** ** Removal *)

Lemma min_entry_inorder n d :
  n ≠ Leaf → ∃ rest, inorder n = min_entry n d :: rest.
Proof.
  revert d. induction n as [|c l IHl a va r _]; intros d Hn; [done|]. simpl.
  destruct l as [|cl ll kl vl rl]; [by eexists|].
  destruct (IHl (a, va)) as [rest Hrest]; [done|].
  rewrite Hrest. by eexists.
Qed.

Lemma bst_inorder_remove k n :
  sorted (inorder n) → inorder (remove k n) = al_delete k (inorder n).
Proof.
  revert k. induction n as [|c l IHl a va r IHr]; intros k; simpl; [done|].
  rewrite sorted_mid. intros (Hl & Hr & Hlt & Hgt). case_cmp; simpl.
  - by rewrite IHl, al_delete_lt.
  - by rewrite IHr, al_delete_gt.
  - assert (k = a) as -> by lia. rewrite al_delete_at by done. clear IHl.
    destruct l as [|cl ll kl vl rl]; [done|].
    destruct r as [|cr lr kr vr rr]; [by rewrite app_nil_r|].
    destruct (min_entry_inorder (Node cr lr kr vr rr) (a, va)) as [rest Hrest];
      [done|].
    destruct (min_entry _ _) as [sk sv]. cbn [inorder] in *.
    rewrite IHr, !Hrest by done. simpl. by rewrite Z.eqb_refl.
Qed.

(** ** The invariant *)

Lemma bst_inv_sorted b : inv b → sorted (entries b).
Proof. intros [? _]. by apply bst_sorted. Qed.

Lemma bst_inv_count b : inv b → count b = length (entries b).
Proof. intros [_ ->]. apply nodes_inorder. Qed.

Lemma bst_inv_intro b :
  sorted (entries b) → count b = length (entries b) → inv b.
Proof. intros ? Hc. split; [by apply bst_sorted|]. by rewrite nodes_inorder. Qed.

Lemma bst_empty_inv : inv empty.
Proof. done. Qed.

Lemma bst_put_entries k v b :
  inv b → entries (put k v b) = al_insert k v (entries b).
Proof. intros Hb. by apply bst_inorder_insert, bst_inv_sorted. Qed.

Lemma bst_put_inv k v b : inv b → inv (put k v b).
Proof.
  intros Hb. pose proof (bst_inv_sorted b Hb) as Hs. apply bst_inv_intro.
  - rewrite bst_put_entries by done. by apply al_insert_sorted.
  - rewrite bst_put_entries, al_insert_length by done. simpl.
    rewrite mem_inorder by done. rewrite (bst_inv_count b Hb). unfold entries.
    by case_bool_decide.
Qed.

Lemma bst_del_entries k b :
  inv b → entries (del k b) = al_delete k (entries b).
Proof. intros Hb. by apply bst_inorder_remove, bst_inv_sorted. Qed.

Lemma bst_del_inv k b : inv b → inv (del k b).
Proof.
  intros Hb. pose proof (bst_inv_sorted b Hb) as Hs. apply bst_inv_intro.
  - rewrite bst_del_entries by done. by apply al_delete_sorted.
  - rewrite bst_del_entries, al_delete_length by done. simpl.
    rewrite mem_inorder by done. rewrite (bst_inv_count b Hb). unfold entries.
    by case_bool_decide.
Qed.

Lemma bst_contains_result k b :
  inv b → contains k b = bool_decide (k ∈ keys (entries b)).
Proof. intros Hb. by apply mem_inorder, bst_inv_sorted. Qed.

End BST.

#[export] Instance bst_ordered_map : OrderedMap BST.t := {
  om_empty := BST.empty;
  om_put := BST.put;
  om_contains k b := (BST.contains k b, b);
  om_del := BST.del;
  om_entries := BST.entries;
  om_count := BST.count;
  om_inv := BST.inv
}.

#[export] Instance bst_ordered_map_laws : OrderedMapLaws BST.t.
Proof.
  split; simpl.
  - apply BST.bst_empty_inv.
  - done.
  - apply BST.bst_inv_sorted.
  - apply BST.bst_inv_count.
  - apply BST.bst_put_inv.
  - apply BST.bst_put_entries.
  - done.
  - done.
  - apply BST.bst_contains_result.
  - apply BST.bst_del_inv.
  - apply BST.bst_del_entries.
Qed.
