(* ===== verification/SplayTree.v ===== *)
(** * SplayTree: the self-adjusting tree

    The splay tree of the design document (section 4.3).  There is no
    balance information: every access walks down to the key (or to where
    it would be), edits there, and splays the node it touched to the
    root by zig, zig-zig and zig-zag steps.  The walk up uses the path
    of ancestors in place of parent references. *)

From S2P Require Import Prelude AList Tree OrderedMap.

Module Splay.

Abbreviation node := (tree unit).

Record t : Type := Make {
  root : node;
  count : nat
}.

Definition empty : t := Make Leaf 0.

(** zig: the parent is the root; one rotation at the parent. *)
Definition zig (f : frame unit) (x : node) : node :=
  match fside f with
  | L => rotate_right (plug1 f x)
  | R => rotate_left (plug1 f x)
  end.

(** zig-zig and zig-zag, on the subtree of the grandparent: [f1] is the
    parent and [f2] the grandparent.  Same sides: rotate at the
    grandparent, then at the parent.  Opposite sides: rotate at the
    parent, then at the grandparent. *)
Definition splay_step (f1 f2 : frame unit) (x : node) : node :=
  match fside f1, fside f2 with
  | L, L => rotate_right (rotate_right (plug1 f2 (plug1 f1 x)))
  | R, R => rotate_left (rotate_left (plug1 f2 (plug1 f1 x)))
  | R, L => rotate_right (plug1 f2 (rotate_left (plug1 f1 x)))
  | L, R => rotate_left (plug1 f2 (rotate_right (plug1 f1 x)))
  end.

(** Splaying the node [x] at the end of path [p] to the root. *)
Fixpoint splay (x : node) (p : path unit) : node :=
  match p with
  | [] => x
  | [f] => zig f x
  | f1 :: f2 :: rest => splay (splay_step f1 f2 x) rest
  end.

Definition put (k v : Z) (s : t) : t :=
  let '(p, n) := descend k (root s) [] in
  match n with
  | Node c l _ _ r => Make (splay (Node c l k v r) p) (count s)
  | Leaf => Make (splay (Node () Leaf k v Leaf) p) (S (count s))
  end.

(** A search splays the node found, or the last node on the search path
    when the key is absent. *)
Definition contains (k : Z) (s : t) : bool * t :=
  let '(p, n) := descend k (root s) [] in
  match n with
  | Node _ _ _ _ _ => (true, Make (splay n p) (count s))
  | Leaf =>
      (false,
       match p with
       | [] => s
       | f :: p' => Make (splay (plug1 f Leaf) p') (count s)
       end)
  end.

(** The walk to the largest key of a subtree. *)
Fixpoint descend_max (n : node) (p : path unit) : path unit * node :=
  match n with
  | Leaf => (p, Leaf)
  | Node c l k v r =>
      match r with
      | Leaf => (p, n)
      | Node _ _ _ _ _ => descend_max r (Frame R c k v l :: p)
      end
  end.

(** Joining two subtrees, every key of [l] below every key of [r]: the
    largest node of [l] is splayed to the root of [l] and [r] becomes
    its right child. *)
Definition join (l r : node) : node :=
  match l with
  | Leaf => r
  | Node _ _ _ _ _ =>
      let '(p, m) := descend_max l [] in
      match splay m p with
      | Node c ll mk mv _ => Node c ll mk mv r
      | Leaf => r
      end
  end.

(** Deletion splays the node to the root, discards it and joins its
    subtrees; an absent key changes nothing. *)
Definition del (k : Z) (s : t) : t :=
  let '(p, n) := descend k (root s) [] in
  match n with
  | Leaf => s
  | Node _ _ _ _ _ =>
      match splay n p with
      | Node _ l _ _ r => Make (join l r) (pred (count s))
      | Leaf => s
      end
  end.

Definition inv (s : t) : Prop := bst (root s) ∧ count s = nodes (root s).

Definition entries (s : t) : list entry := inorder (root s).

(** ** Splaying keeps the traversal *)

Lemma inorder_zig f x : inorder (zig f x) = inorder (plug1 f x).
Proof.
  unfold zig. destruct (fside f); [apply inorder_rotate_right|apply inorder_rotate_left].
Qed.

Lemma inorder_splay_step f1 f2 x :
  inorder (splay_step f1 f2 x) = inorder (plug1 f2 (plug1 f1 x)).
Proof.
  unfold splay_step.
  destruct (fside f1) eqn:E1, (fside f2) eqn:E2;
    rewrite ?inorder_rotate_right, ?inorder_rotate_left; try done;
    rewrite !(inorder_plug1 f2), ?inorder_rotate_right, ?inorder_rotate_left; done.
Qed.

Lemma inorder_splay x p : inorder (splay x p) = inorder (plug x p).
Proof.
  revert x. induction p as [|f|f1 f2 p IH] using path_pair_ind; intros x.
  - done.
  - apply inorder_zig.
  - cbn [splay plug]. rewrite IH. apply inorder_plug_ext, inorder_splay_step.
Qed.

(** ** Splay to the root *)

Lemma splay_step_root f1 f2 c l k v r :
  ∃ c' l' r', splay_step f1 f2 (Node c l k v r) = Node c' l' k v r'.
Proof. unfold splay_step, plug1. destruct (fside f1), (fside f2); simpl; eauto. Qed.

Lemma splay_root c l k v r p :
  ∃ c' l' r', splay (Node c l k v r) p = Node c' l' k v r'.
Proof.
  revert c l r. induction p as [|f|f1 f2 p IH] using path_pair_ind; intros c l r.
  - simpl. eauto.
  - simpl. unfold zig, plug1. destruct (fside f); simpl; eauto.
  - cbn [splay]. destruct (splay_step_root f1 f2 c l k v r) as (c' & l' & r' & ->).
    apply IH.
Qed.

(** ** The invariant *)

Lemma splay_inv_sorted s : inv s → sorted (entries s).
Proof. intros [? _]. by apply bst_sorted. Qed.

Lemma splay_inv_count s : inv s → count s = length (entries s).
Proof. intros [_ ->]. apply nodes_inorder. Qed.

Lemma splay_inv_intro s :
  sorted (entries s) → count s = length (entries s) → inv s.
Proof. intros ? Hc. split; [by apply bst_sorted|]. by rewrite nodes_inorder. Qed.

Lemma splay_empty_inv : inv empty.
Proof. done. Qed.

(** ** [put] *)

Lemma splay_put_entries k v s :
  inv s → entries (put k v s) = al_insert k v (entries s).
Proof.
  intros Hs%splay_inv_sorted. unfold put, entries in *.
  destruct (descend k (root s) []) as [p n] eqn:Hd.
  destruct n as [|c l k' v' r]; simpl; rewrite inorder_splay, inorder_plug.
  - by rewrite (located_leaf_insert _ _ _ _ Hd Hs).
  - pose proof (located_key _ _ _ _ Hd Hs _ _ _ _ _ eq_refl) as ->.
    by rewrite (located_node_insert _ _ _ _ Hd Hs _ _ _ _ v eq_refl).
Qed.

Lemma splay_put_count k v s :
  inv s →
  count (put k v s) =
    if bool_decide (k ∈ keys (entries s)) then count s else S (count s).
Proof.
  intros Hs%splay_inv_sorted. unfold put, entries in *.
  destruct (descend k (root s) []) as [p n] eqn:Hd.
  destruct n as [|c l k' v' r]; simpl.
  - by rewrite bool_decide_eq_false_2 by by eapply located_leaf_absent.
  - pose proof (located_key _ _ _ _ Hd Hs _ _ _ _ _ eq_refl) as ->.
    by rewrite bool_decide_eq_true_2 by by eapply located_node_present.
Qed.

Lemma splay_put_inv k v s : inv s → inv (put k v s).
Proof.
  intros Hs. pose proof (splay_inv_sorted s Hs). apply splay_inv_intro.
  - rewrite splay_put_entries by done. by apply al_insert_sorted.
  - rewrite splay_put_entries, splay_put_count, al_insert_length by done.
    by rewrite (splay_inv_count s Hs).
Qed.

(** ** [contains] *)

Lemma splay_contains_entries k s :
  inv s → entries (contains k s).2 = entries s.
Proof.
  intros Hs%splay_inv_sorted. unfold contains, entries in *.
  destruct (descend k (root s) []) as [p n] eqn:Hd.
  pose proof (located_plug _ _ _ _ Hd Hs) as Hp.
  destruct n as [|c l k' v' r]; simpl.
  - destruct p as [|f p]; [done|]. simpl. by rewrite inorder_splay, <- Hp.
  - by rewrite inorder_splay, Hp.
Qed.

Lemma splay_contains_count k s : count (contains k s).2 = count s.
Proof.
  unfold contains. destruct (descend k (root s) []) as [p [|c l k' v' r]]; simpl;
    [by destruct p|done].
Qed.

Lemma splay_contains_inv k s : inv s → inv (contains k s).2.
Proof.
  intros Hs. apply splay_inv_intro.
  - rewrite splay_contains_entries by done. by apply splay_inv_sorted.
  - rewrite splay_contains_entries, splay_contains_count by done.
    by apply splay_inv_count.
Qed.

Lemma splay_contains_result k s :
  inv s → (contains k s).1 = bool_decide (k ∈ keys (entries s)).
Proof.
  intros Hs%splay_inv_sorted. unfold contains, entries in *.
  destruct (descend k (root s) []) as [p n] eqn:Hd.
  destruct n as [|c l k' v' r]; simpl.
  - by rewrite bool_decide_eq_false_2 by by eapply located_leaf_absent.
  - pose proof (located_key _ _ _ _ Hd Hs _ _ _ _ _ eq_refl) as ->.
    by rewrite bool_decide_eq_true_2 by by eapply located_node_present.
Qed.

(** ** [del] *)

Lemma descend_max_spec n p p' m :
  n ≠ Leaf → descend_max n p = (p', m) →
  plug m p' = plug n p ∧ after p' = after p ∧ ∃ c a k v, m = Node c a k v Leaf.
Proof.
  revert p. induction n as [|c l _ k v r IH]; intros p Hn; [done|]. simpl.
  destruct r as [|cr lr kr vr rr]; [intros [= <- <-]; eauto 10|].
  by intros (Hp & Ha & Hm)%IH.
Qed.

Lemma inorder_join l r :
  sorted (inorder l) → inorder (join l r) = inorder l ++ inorder r.
Proof.
  intros Hs. destruct l as [|cl ll kl vl rl]; [done|]. unfold join.
  destruct (descend_max _ []) as [p m] eqn:Hd.
  apply descend_max_spec in Hd as (Hp & Ha & (c & a & k & v & ->)); [|done].
  destruct (splay_root c a k v Leaf p) as (c' & l' & r' & E). rewrite E.
  assert (inorder (Node c' l' k v r') = inorder (Node cl ll kl vl rl)) as Hi.
  { by rewrite <- E, inorder_splay, Hp. }
  rewrite <- Hi in Hs |- *. clear Hi. pose proof (f_equal inorder E) as Hi.
  rewrite inorder_splay, inorder_plug, Ha in Hi. simpl in Hi.
  rewrite app_nil_r, app_assoc in Hi. symmetry in Hi.
  apply sorted_split_inj in Hi as (_ & _ & Hr'); [|done].
  apply inorder_nil in Hr' as ->. simpl. by rewrite <- app_assoc.
Qed.

Lemma splay_del_entries k s :
  inv s → entries (del k s) = al_delete k (entries s).
Proof.
  intros Hs%splay_inv_sorted. unfold del, entries in *.
  destruct (descend k (root s) []) as [p n] eqn:Hd.
  destruct n as [|c l k' v' r].
  { by rewrite al_delete_absent by by eapply located_leaf_absent. }
  pose proof (located_key _ _ _ _ Hd Hs _ _ _ _ _ eq_refl) as ->.
  destruct (splay_root c l k v' r p) as (c' & l' & r' & E). rewrite E. simpl.
  assert (inorder (root s) = inorder l' ++ (k, v') :: inorder r') as Hi.
  { change (inorder (root s) = inorder (Node c' l' k v' r')).
    by rewrite <- E, inorder_splay, (located_plug _ _ _ _ Hd Hs). }
  rewrite Hi in Hs |- *. apply sorted_mid in Hs as (Hl & _ & Hlt & _).
  by rewrite inorder_join, al_delete_at.
Qed.

Lemma splay_del_count k s :
  inv s →
  count (del k s) =
    if bool_decide (k ∈ keys (entries s)) then pred (count s) else count s.
Proof.
  intros Hs%splay_inv_sorted. unfold del, entries in *.
  destruct (descend k (root s) []) as [p n] eqn:Hd.
  destruct n as [|c l k' v' r].
  { by rewrite bool_decide_eq_false_2 by by eapply located_leaf_absent. }
  pose proof (located_key _ _ _ _ Hd Hs _ _ _ _ _ eq_refl) as ->.
  rewrite bool_decide_eq_true_2 by by eapply located_node_present.
  by destruct (splay_root c l k v' r p) as (c' & l' & r' & ->).
Qed.

Lemma splay_del_inv k s : inv s → inv (del k s).
Proof.
  intros Hs. pose proof (splay_inv_sorted s Hs). apply splay_inv_intro.
  - rewrite splay_del_entries by done. by apply al_delete_sorted.
  - rewrite splay_del_entries, splay_del_count, al_delete_length by done.
    by rewrite (splay_inv_count s Hs).
Qed.

(** ** The node accessed becomes the root *)

Lemma splay_put_root k v s :
  inv s → root_entry (root (put k v s)) = Some (k, v).
Proof.
  intros Hs%splay_inv_sorted. unfold put, entries in *.
  destruct (descend k (root s) []) as [p n] eqn:Hd.
  destruct n as [|c l k' v' r]; simpl.
  - by destruct (splay_root () Leaf k v Leaf p) as (c' & l' & r' & ->).
  - by destruct (splay_root c l k v r p) as (c' & l' & r' & ->).
Qed.

Lemma splay_contains_root k s :
  inv s → k ∈ keys (entries s) →
  root_entry (root (contains k s).2) = (k,.) <$> al_lookup k (entries s).
Proof.
  intros Hs%splay_inv_sorted Hk. unfold contains, entries in *.
  destruct (descend k (root s) []) as [p n] eqn:Hd.
  destruct n as [|c l k' v' r]; simpl.
  { by destruct (located_leaf_absent _ _ _ _ Hd Hs). }
  pose proof (located_key _ _ _ _ Hd Hs _ _ _ _ _ eq_refl) as ->.
  destruct (splay_root c l k v' r p) as (c' & l' & r' & ->). simpl.
  rewrite (located_node_inorder _ _ _ _ Hd Hs _ _ _ _ eq_refl).
  by rewrite al_lookup_at by by eapply located_node_lt.
Qed.

End Splay.

#[export] Instance splay_ordered_map : OrderedMap Splay.t := {
  om_empty := Splay.empty;
  om_put := Splay.put;
  om_contains := Splay.contains;
  om_del := Splay.del;
  om_entries := Splay.entries;
  om_count := Splay.count;
  om_inv := Splay.inv
}.

#[export] Instance splay_ordered_map_laws : OrderedMapLaws Splay.t.
Proof.
  split; simpl.
  - apply Splay.splay_empty_inv.
  - done.
  - apply Splay.splay_inv_sorted.
  - apply Splay.splay_inv_count.
  - apply Splay.splay_put_inv.
  - apply Splay.splay_put_entries.
  - apply Splay.splay_contains_inv.
  - apply Splay.splay_contains_entries.
  - apply Splay.splay_contains_result.
  - apply Splay.splay_del_inv.
  - apply Splay.splay_del_entries.
Qed.
