(* ===== verification/RedBlack.v ===== *)
(** * RedBlack: the red-black tree

    The balanced structure of the design document (section 4.2).  A node
    carries a colour.  Insertion places a red leaf and walks toward the
    root repairing red-red edges; deletion removes a node with at most
    one child (after exchanging a node with two children with its
    successor) and, when a black node with no red replacement was
    removed, walks toward the root repairing the missing black.  The
    walks use the path of ancestors in place of parent references. *)

From S2P Require Import Prelude AList Tree OrderedMap.

Module RB.

Inductive color : Type := Red | Black.

#[export] Instance color_eq_dec : EqDecision color.
Proof. solve_decision. Defined.

Abbreviation node := (tree color).

Record t : Type := Make {
  root : node;
  count : nat
}.

Definition empty : t := Make Leaf 0.

(** An absent child counts as black. *)
Definition color_of (n : node) : color :=
  match n with
  | Node c _ _ _ _ => c
  | Leaf => Black
  end.

Definition paint (c : color) (n : node) : node :=
  match n with
  | Node _ l k v r => Node c l k v r
  | Leaf => Leaf
  end.

(** A node seen from one of its sides: [near] is the child on side [s],
    [far] the other one. *)
Definition mk (s : side) (c : color) (near : node) (k v : Z) (far : node) : node :=
  match s with
  | L => Node c near k v far
  | R => Node c far k v near
  end.

(** The rotation that lifts the child on side [s]. *)
Definition rotate_up (s : side) (n : node) : node :=
  match s with
  | L => rotate_right n
  | R => rotate_left n
  end.

Definition flip (s : side) : side :=
  match s with
  | L => R
  | R => L
  end.

(** ** Insertion *)

(** The line case at the grandparent [g], the red node and its red
    parent both on side [s]: rotate the grandparent, the former parent
    becomes black and the former grandparent red. *)
Definition fix_line (s : side) (g : node) : node :=
  match rotate_up s g with
  | Node _ l k v r =>
      match s with
      | L => Node Black l k v (paint Red r)
      | R => Node Black (paint Red l) k v r
      end
  | Leaf => Leaf
  end.

(** The walk toward the root from the red node [z] at the end of [p]. *)
Fixpoint insert_fixup (z : node) (p : path color) : node :=
  match p with
  | [] => z
  | [f] => plug1 f z
  | f1 :: f2 :: rest =>
      match ftag f1 with
      | Black => plug z p
      | Red =>
          match color_of (fsib f2) with
          | Red =>
              (* red uncle: parent and uncle black, grandparent red *)
              let parent := plug1 (Frame (fside f1) Black (fkey f1) (fval f1) (fsib f1)) z in
              let g := plug1 (Frame (fside f2) Red (fkey f2) (fval f2)
                                (paint Black (fsib f2))) parent in
              insert_fixup g rest
          | Black =>
              (* black uncle: a triangle is first rotated into a line *)
              let parent := plug1 f1 z in
              let parent' :=
                if decide (fside f1 = fside f2) then parent
                else rotate_up (fside f1) parent in
              plug (fix_line (fside f2) (plug1 f2 parent')) rest
          end
      end
  end.

Definition put (k v : Z) (s : t) : t :=
  let '(p, n) := descend k (root s) [] in
  match n with
  | Node c l _ _ r => Make (plug (Node c l k v r) p) (count s)
  | Leaf =>
      Make (paint Black (insert_fixup (Node Red Leaf k v Leaf) p))
           (S (count s))
  end.

Definition contains (k : Z) (s : t) : bool := mem k (root s).

(** ** Deletion *)

(** The walk to the smallest key of a subtree. *)
Fixpoint descend_min (n : node) (p : path color) : path color * node :=
  match n with
  | Leaf => (p, Leaf)
  | Node c l k v r =>
      match l with
      | Leaf => (p, n)
      | Node _ _ _ _ _ => descend_min l (Frame L c k v r :: p)
      end
  end.

(** The outcome of one repair step: the subtree is repaired, or the
    missing black is now at the root of the subtree. *)
Inductive repair : Type :=
  | Done (n : node)
  | Up (n : node).

(** The cases of a black sibling.  [x] lacks a black and is the child on
    side [s] of a node of colour [pc] with key [pk]; the sibling [w] is
    black. *)
Definition fix_black_sibling (s : side) (pc : color) (x : node)
    (pk pv : Z) (w : node) : repair :=
  match w with
  | Leaf => Up (mk s pc x pk pv w)
  | Node _ wl wk wv wr =>
      let near := match s with L => wl | R => wr end in
      let far := match s with L => wr | R => wl end in
      match color_of far, color_of near with
      | Red, _ =>
          (* far child red: rotate the parent, terminate *)
          Done (mk (flip s) pc (paint Black far) wk wv
                  (mk s Black x pk pv near))
      | Black, Red =>
          (* near child red: rotate the sibling, then as above *)
          match near with
          | Node _ nl nk nv nr =>
              let nnear := match s with L => nl | R => nr end in
              let nfar := match s with L => nr | R => nl end in
              Done (mk (flip s) pc
                      (mk (flip s) Black far wk wv nfar) nk nv
                      (mk s Black x pk pv nnear))
          | Leaf => Up (mk s pc x pk pv w)
          end
      | Black, Black =>
          (* both black: the sibling becomes red, the parent absorbs the
             missing black if it is red *)
          let n := mk s Black x pk pv (paint Red w) in
          match pc with
          | Red => Done n
          | Black => Up n
          end
      end
  end.

(** The walk toward the root from the subtree [x] that lacks a black. *)
Fixpoint delete_fixup (x : node) (p : path color) : node :=
  match p with
  | [] => x
  | f :: rest =>
      match fsib f with
      | Node Red wl wk wv wr =>
          (* red sibling: rotate the parent, sibling black, parent red *)
          let s := fside f in
          let near := match s with L => wl | R => wr end in
          let far := match s with L => wr | R => wl end in
          let sub :=
            match fix_black_sibling s Red x (fkey f) (fval f) near with
            | Done n => n
            | Up n => paint Black n
            end in
          plug (mk (flip s) Black far wk wv sub) rest
      | w =>
          match fix_black_sibling (fside f) (ftag f) x (fkey f) (fval f) w with
          | Done n => plug n rest
          | Up n => delete_fixup n rest
          end
      end
  end.

(** Removing the node [n], which has at most one child, from the end of
    [p]. *)
Definition remove_node (n : node) (p : path color) : node :=
  match n with
  | Leaf => plug Leaf p
  | Node c l _ _ r =>
      let child := match l with Leaf => r | _ => l end in
      match c with
      | Red => plug child p
      | Black =>
          match child with
          | Node Red cl ck cv cr => plug (Node Black cl ck cv cr) p
          | _ => delete_fixup child p
          end
      end
  end.

Definition del (k : Z) (s : t) : t :=
  let '(p, n) := descend k (root s) [] in
  match n with
  | Leaf => s
  | Node c l _ _ r =>
      let root' :=
        match l, r with
        | Node _ _ _ _ _, Node _ _ _ _ _ =>
            (* two children: the successor's entry moves here and the
               successor's node is removed *)
            let '(pm, m) := descend_min r [] in
            match m with
            | Node _ _ sk sv _ => remove_node m (pm ++ Frame R c sk sv l :: p)
            | Leaf => plug n p
            end
        | _, _ => remove_node n p
        end in
      Make (paint Black root') (pred (count s))
  end.

(** The subtree a repair step returns. *)
Definition repair_node (r : repair) : node :=
  match r with Done n | Up n => n end.

(** The child that takes the place of a node with at most one child. *)
Definition only_child (n : node) : node :=
  match n with
  | Leaf => Leaf
  | Node _ l _ _ r => match l with Leaf => r | _ => l end
  end.

(** ** The invariant *)

(** No red node has a red child. *)
Fixpoint no_red_red (n : node) : Prop :=
  match n with
  | Leaf => True
  | Node c l _ _ r =>
      (c = Red → color_of l = Black ∧ color_of r = Black) ∧
      no_red_red l ∧ no_red_red r
  end.

(** Every path from [n] to an absent child has [h] black nodes. *)
Fixpoint black_height (h : nat) (n : node) : Prop :=
  match n with
  | Leaf => h = 0%nat
  | Node Red l _ _ r => black_height h l ∧ black_height h r
  | Node Black l _ _ r =>
      match h with
      | O => False
      | S h' => black_height h' l ∧ black_height h' r
      end
  end.

Definition red_black (n : node) : Prop :=
  color_of n = Black ∧ no_red_red n ∧ ∃ h, black_height h n.

Definition inv (s : t) : Prop :=
  bst (root s) ∧ red_black (root s) ∧ count s = nodes (root s).

Definition entries (s : t) : list entry := inorder (root s).

(** ** Traversals *)

Lemma inorder_paint c n : inorder (paint c n) = inorder n.
Proof. by destruct n. Qed.

Lemma inorder_mk s c near k v far :
  inorder (mk s c near k v far) =
    match s with
    | L => inorder near ++ (k, v) :: inorder far
    | R => inorder far ++ (k, v) :: inorder near
    end.
Proof. by destruct s. Qed.

Lemma plug1_mk (f : frame color) x :
  plug1 f x = mk (fside f) (ftag f) x (fkey f) (fval f) (fsib f).
Proof. unfold plug1, mk. by destruct (fside f). Qed.

Lemma inorder_rotate_up s n : inorder (rotate_up s n) = inorder n.
Proof. destruct s; [apply inorder_rotate_right|apply inorder_rotate_left]. Qed.

Lemma inorder_fix_line s g : inorder (fix_line s g) = inorder g.
Proof.
  rewrite <- (inorder_rotate_up s g). unfold fix_line.
  destruct (rotate_up s g), s; simpl; by rewrite ?inorder_paint.
Qed.

Lemma inorder_insert_fixup z p : inorder (insert_fixup z p) = inorder (plug z p).
Proof.
  revert z. induction p as [|f|f1 f2 p IH] using path_pair_ind; intros z; [done..|].
  cbn [insert_fixup]. destruct (ftag f1); [|done].
  destruct (color_of (fsib f2)).
  - rewrite IH. cbn [plug]. apply inorder_plug_ext.
    rewrite !inorder_plug1. simpl. by rewrite inorder_paint.
  - cbn [plug]. apply inorder_plug_ext. rewrite inorder_fix_line, !(inorder_plug1 f2).
    case_decide; by rewrite ?inorder_rotate_up.
Qed.

(** ** [put] *)

Lemma rb_put_entries_sorted k v s :
  sorted (entries s) → entries (put k v s) = al_insert k v (entries s).
Proof.
  intros Hs. unfold put, entries in *.
  destruct (descend k (root s) []) as [p n] eqn:Hd.
  destruct n as [|c l k' v' r]; simpl.
  - rewrite inorder_paint, inorder_insert_fixup, inorder_plug.
    by rewrite (located_leaf_insert _ _ _ _ Hd Hs).
  - pose proof (located_key _ _ _ _ Hd Hs _ _ _ _ _ eq_refl) as ->.
    rewrite inorder_plug.
    by rewrite (located_node_insert _ _ _ _ Hd Hs _ _ _ _ v eq_refl).
Qed.

Lemma rb_put_count k v s :
  sorted (entries s) →
  count (put k v s) =
    if bool_decide (k ∈ keys (entries s)) then count s else S (count s).
Proof.
  intros Hs. unfold put, entries in *.
  destruct (descend k (root s) []) as [p n] eqn:Hd.
  destruct n as [|c l k' v' r]; simpl.
  - by rewrite bool_decide_eq_false_2 by by eapply located_leaf_absent.
  - pose proof (located_key _ _ _ _ Hd Hs _ _ _ _ _ eq_refl) as ->.
    by rewrite bool_decide_eq_true_2 by by eapply located_node_present.
Qed.

(** ** Deletion *)

Lemma inorder_fix_black_sibling s pc x pk pv w :
  inorder (repair_node (fix_black_sibling s pc x pk pv w))
  = inorder (mk s pc x pk pv w).
Proof.
  destruct w as [|cw wl wk wv wr]; [done|].
  destruct s, wl as [|[] ? ? ? ?], wr as [|[] ? ? ? ?], pc; simpl;
    repeat (rewrite <- ?app_assoc; simpl); done.
Qed.

Lemma inorder_delete_fixup x p : inorder (delete_fixup x p) = inorder (plug x p).
Proof.
  revert x. induction p as [|f p IH]; intros x; [done|]. cbn [delete_fixup plug].
  rewrite (inorder_plug_ext (plug1 f x) (mk (fside f) (ftag f) x (fkey f) (fval f) (fsib f)))
    by by rewrite plug1_mk.
  destruct (fsib f) as [|[] wl wk wv wr].
  - simpl. by rewrite IH.
  - apply inorder_plug_ext. rewrite !inorder_mk.
    assert (inorder match fix_black_sibling (fside f) Red x (fkey f) (fval f)
                      match fside f with L => wl | R => wr end with
                    | Done n => n | Up n => paint Black n end
            = inorder (mk (fside f) Red x (fkey f) (fval f)
                         match fside f with L => wl | R => wr end)) as ->.
    { rewrite <- inorder_fix_black_sibling.
      by destruct (fix_black_sibling _ _ _ _ _ _); simpl; rewrite ?inorder_paint. }
    destruct (fside f); simpl; by rewrite <- ?app_assoc.
  - pose proof (inorder_fix_black_sibling (fside f) (ftag f) x (fkey f) (fval f)
                  (Node Black wl wk wv wr)) as E.
    destruct (fix_black_sibling _ _ _ _ _ _); simpl in E.
    + by apply inorder_plug_ext.
    + rewrite IH. by apply inorder_plug_ext.
Qed.

Lemma inorder_remove_node n p :
  inorder (remove_node n p) = inorder (plug (only_child n) p).
Proof.
  destruct n as [|[] l k v r]; simpl; [done..|].
  destruct l as [|cl ll kl vl rl].
  - destruct r as [|[] lr kr vr rr]; simpl;
      [apply inorder_delete_fixup|by apply inorder_plug_ext|apply inorder_delete_fixup].
  - destruct cl; [by apply inorder_plug_ext|apply inorder_delete_fixup].
Qed.

Lemma descend_min_spec n p p' m :
  n ≠ Leaf → descend_min n p = (p', m) →
  (∃ pm, p' = pm ++ p ∧ plug m pm = n ∧ before pm = []) ∧
  ∃ c k v r, m = Node c Leaf k v r.
Proof.
  revert p. induction n as [|c l IH k v r _]; intros p Hn; [done|]. simpl.
  destruct l as [|cl ll kl vl rl].
  { intros [= <- <-]. split; [by exists []|eauto]. }
  intros [(pm & -> & Hp & Hb) Hm]%IH; [|done]. split; [|done].
  exists (pm ++ [Frame L c k v r]). rewrite <- app_assoc. split; [done|].
  rewrite plug_app, Hp, before_app, Hb. done.
Qed.

Lemma inorder_only_child c l k v r :
  l = Leaf ∨ r = Leaf →
  inorder (only_child (Node c l k v r)) = inorder l ++ inorder r.
Proof. intros [->| ->]; simpl; [done|]. destruct l; simpl; by rewrite ?app_nil_r. Qed.

Lemma rb_del_entries_sorted k s :
  sorted (entries s) → entries (del k s) = al_delete k (entries s).
Proof.
  intros Hs. unfold del, entries in *.
  destruct (descend k (root s) []) as [p n] eqn:Hd.
  destruct n as [|c l k' v' r].
  { by rewrite al_delete_absent by by eapply located_leaf_absent. }
  pose proof (located_key _ _ _ _ Hd Hs _ _ _ _ _ eq_refl) as ->.
  rewrite (located_node_delete _ _ _ _ Hd Hs _ _ _ _ eq_refl).
  cbn [root]. rewrite inorder_paint.
  destruct l as [|cl ll kl vl rl]; [|destruct r as [|cr lr kr vr rr]].
  - by rewrite inorder_remove_node, inorder_plug.
  - by rewrite inorder_remove_node, inorder_plug, inorder_only_child by auto.
  - destruct (descend_min _ []) as [pm' m] eqn:Hm.
    apply descend_min_spec in Hm as [(pm & -> & Hp & Hb) (cm & sk & sv & mr & ->)];
      [|done].
    rewrite app_nil_r, inorder_remove_node, inorder_plug, before_app, after_app, Hb.
    rewrite <- Hp, inorder_plug, Hb. by repeat (rewrite <- ?app_assoc; simpl).
Qed.

Lemma rb_del_count k s :
  sorted (entries s) →
  count (del k s) =
    if bool_decide (k ∈ keys (entries s)) then pred (count s) else count s.
Proof.
  intros Hs. unfold del, entries in *.
  destruct (descend k (root s) []) as [p n] eqn:Hd.
  destruct n as [|c l k' v' r].
  { by rewrite bool_decide_eq_false_2 by by eapply located_leaf_absent. }
  pose proof (located_key _ _ _ _ Hd Hs _ _ _ _ _ eq_refl) as ->.
  by rewrite bool_decide_eq_true_2 by by eapply located_node_present.
Qed.

End RB.

#[export] Instance rb_ordered_map : OrderedMap RB.t := {
  om_empty := RB.empty;
  om_put := RB.put;
  om_contains k s := (RB.contains k s, s);
  om_del := RB.del;
  om_entries := RB.entries;
  om_count := RB.count;
  om_inv := RB.inv
}.
