(* ===== verification/Balance.v ===== *)
(** * Balance: the invariants of the red-black tree

    Insertion and deletion keep the root black, leave no red node with a
    red child and keep the number of black nodes the same on every path
    (section 3 of the design document).  The walks of [RedBlack] work at
    the end of a path, so the invariant is split along the path:
    [path_rb] is what the ancestors of a position satisfy, [rbt_unplug]
    takes a red-black tree apart at a position and [rbt_plug] puts a
    repaired subtree back.  With the traversal lemmas of [RedBlack] this
    gives the laws of the contract for the red-black tree. *)

From S2P Require Import Prelude AList Tree OrderedMap RedBlack.
Import RB.

(** A subtree without red-red edge whose paths all have [h] black nodes. *)
Definition rbt (h : nat) (n : node) : Prop := no_red_red n ∧ black_height h n.

(** The black height of a node of colour [c] over children of height [h]. *)
Definition bump (c : color) (h : nat) : nat :=
  match c with
  | Black => S h
  | Red => h
  end.

(** The parent of the position is red. *)
Definition parent_red (p : path color) : Prop :=
  match p with
  | f :: _ => ftag f = Red
  | [] => False
  end.

(** What the ancestors of a position of black height [h] satisfy in a
    red-black tree: every sibling is a red-black subtree of the height
    of the subtree beside it, and a red ancestor has a black sibling
    below it and no red parent. *)
Fixpoint path_rb (h : nat) (p : path color) : Prop :=
  match p with
  | [] => True
  | f :: rest =>
      rbt h (fsib f) ∧
      (ftag f = Red → color_of (fsib f) = Black ∧ ¬ parent_red rest) ∧
      path_rb (bump (ftag f) h) rest
  end.

(** The black height of the whole tree. *)
Fixpoint path_height (h : nat) (p : path color) : nat :=
  match p with
  | [] => h
  | f :: rest => path_height (bump (ftag f) h) rest
  end.

(** A tree that is red-black once its root is painted black. *)
Definition almost (H : nat) (n : node) : Prop :=
  black_height H n ∧ no_red_red (paint Black n).

(** ** Black height *)

Lemma black_height_node c l k v r H :
  black_height H (Node c l k v r) ↔
    ∃ h, H = bump c h ∧ black_height h l ∧ black_height h r.
Proof.
  destruct c; simpl.
  - split; [by exists H|by intros (h & -> & ?)].
  - destruct H as [|h]; [by split; [|intros (? & ? & _)]|].
    split; [by exists h|by intros (h' & [= ->] & ?)].
Qed.

Lemma black_height_unique n h1 h2 :
  black_height h1 n → black_height h2 n → h1 = h2.
Proof.
  revert h1 h2. induction n as [|c l IHl k v r _]; intros h1 h2.
  - by intros -> ->.
  - rewrite !black_height_node. intros (a & -> & Ha & _) (b & -> & Hb & _).
    by rewrite (IHl a b).
Qed.

Lemma black_height_paint_black n h :
  black_height h n → black_height (match color_of n with Red => S h | Black => h end) (paint Black n).
Proof. by destruct n as [|[] l k v r]. Qed.

Lemma no_red_red_paint_black n :
  no_red_red n → no_red_red (paint Black n).
Proof. destruct n as [|c l k v r]; [done|]. simpl. by intros (_ & ? & ?). Qed.

Lemma color_of_paint c n : n ≠ Leaf → color_of (paint c n) = c.
Proof. by destruct n. Qed.

Lemma color_of_paint_black n : color_of (paint Black n) = Black.
Proof. by destruct n. Qed.

(** ** Subtrees *)

Lemma rbt_leaf h : rbt h Leaf ↔ h = 0%nat.
Proof. unfold rbt. simpl. naive_solver. Qed.

Lemma rbt_node c l k v r H :
  rbt H (Node c l k v r) ↔
    ∃ h, H = bump c h ∧ rbt h l ∧ rbt h r ∧
         (c = Red → color_of l = Black ∧ color_of r = Black).
Proof.
  unfold rbt. rewrite black_height_node. cbn [no_red_red]. naive_solver.
Qed.

Lemma rbt_mk s c near k v far H :
  rbt H (mk s c near k v far) ↔
    ∃ h, H = bump c h ∧ rbt h near ∧ rbt h far ∧
         (c = Red → color_of near = Black ∧ color_of far = Black).
Proof. destruct s; simpl; rewrite rbt_node; naive_solver. Qed.

Lemma rbt_plug1 f n H :
  rbt H (plug1 f n) ↔
    ∃ h, H = bump (ftag f) h ∧ rbt h n ∧ rbt h (fsib f) ∧
         (ftag f = Red → color_of n = Black ∧ color_of (fsib f) = Black).
Proof. by rewrite plug1_mk, rbt_mk. Qed.

Lemma rbt_paint_black n h :
  rbt h n → rbt (match color_of n with Red => S h | Black => h end) (paint Black n).
Proof.
  intros [??]. split; [by apply no_red_red_paint_black|by apply black_height_paint_black].
Qed.

Lemma rbt_paint_red n h :
  rbt (S h) n → color_of n = Black →
  (∀ c l k v r, n = Node c l k v r → color_of l = Black ∧ color_of r = Black) →
  rbt h (paint Red n).
Proof.
  destruct n as [|[] l k v r]; [by intros [_ ?]|done|]. intros Hn _ Hc.
  apply rbt_node in Hn as (h' & [= <-] & ? & ? & _). simpl.
  apply rbt_node. exists h. split_and!; [done..|]. intros _. by eapply Hc.
Qed.

Lemma color_of_mk s c near k v far : color_of (mk s c near k v far) = c.
Proof. by destruct s. Qed.

Lemma color_of_plug1 (f : frame color) n : color_of (plug1 f n) = ftag f.
Proof. unfold plug1. by destruct (fside f). Qed.

(** ** Composition and decomposition along a path *)

Lemma rbt_plug n p h :
  rbt h n → path_rb h p → (parent_red p → color_of n = Black) →
  rbt (path_height h p) (plug n p).
Proof.
  revert n h. induction p as [|f p IH]; intros n h Hn Hp Hc; [done|].
  destruct Hp as (Hsib & Hred & Hp). cbn [plug path_height]. apply IH; [|done|].
  - apply rbt_plug1. exists h. split_and!; [done..|]. intros Hf. split; [by apply Hc|].
    by apply Hred.
  - intros Hr. rewrite color_of_plug1. destruct (ftag f); [|done].
    by destruct Hred as [_ []].
Qed.

Lemma rbt_unplug n p H :
  rbt H (plug n p) →
  ∃ h, rbt h n ∧ path_rb h p ∧ (parent_red p → color_of n = Black) ∧
       H = path_height h p.
Proof.
  revert n. induction p as [|f p IH]; intros n; cbn [plug].
  { intros Hn. by exists H. }
  intros (h1 & Hn1 & Hp & Hc & ->)%IH.
  apply rbt_plug1 in Hn1 as (h & -> & Hn & Hsib & Hred).
  exists h. split_and!; [done| |naive_solver|done].
  split_and!; [done| |done]. intros Hf. split; [naive_solver|].
  intros Hr%Hc. rewrite color_of_plug1 in Hr. congruence.
Qed.


Lemma rbt_almost H n : rbt H n → almost H n.
Proof. intros [??]. split; [done|by apply no_red_red_paint_black]. Qed.

Lemma almost_plug1 f z h :
  rbt h z → rbt h (fsib f) → almost (bump (ftag f) h) (plug1 f z).
Proof.
  intros [??] [??]. split.
  - rewrite plug1_mk. destruct (fside f); apply black_height_node; eauto.
  - unfold plug1. by destruct (fside f).
Qed.

Lemma almost_red_black H n : almost H n → red_black (paint Black n).
Proof.
  intros [Hb Hn]. split_and!; [apply color_of_paint_black|done|].
  eexists. by apply black_height_paint_black.
Qed.

(** ** Insertion *)

(** Destructs the hypotheses that a node or a leaf is a red-black
    subtree, and the nodes whose colour is known to be red. *)
Ltac rbt_inv :=
  repeat match goal with
  | H : rbt _ Leaf |- _ => apply rbt_leaf in H; simplify_eq
  | H : rbt _ (Node _ _ _ _ _) |- _ =>
      apply rbt_node in H as (? & ? & ? & ? & ?); simplify_eq/=
  | H : Red = Red → _ |- _ => destruct (H eq_refl); clear H
  | H : Black = Red → _ |- _ => clear H
  | H : color_of ?n = Red |- _ =>
      is_var n; destruct n as [|[] ? ? ? ?]; simplify_eq/=
  end.

(** Proves that an explicit tree is a red-black subtree from the facts
    in the context. *)
Ltac rbt_intro :=
  repeat (apply rbt_node; eexists; refine (conj eq_refl (conj _ (conj _ _))));
  first [assumption | by apply rbt_leaf | by intros _ | done].

Lemma fix_line_rbt f1 f2 z h :
  color_of z = Red → rbt h z → ftag f1 = Red → ftag f2 = Black →
  rbt h (fsib f1) → color_of (fsib f1) = Black →
  rbt h (fsib f2) → color_of (fsib f2) = Black →
  let parent := plug1 f1 z in
  let parent' :=
    if decide (fside f1 = fside f2) then parent
    else rotate_up (fside f1) parent in
  rbt (S h) (fix_line (fside f2) (plug1 f2 parent')) ∧
  color_of (fix_line (fside f2) (plug1 f2 parent')) = Black.
Proof.
  destruct f1 as [s1 c1 k1 v1 sib1], f2 as [s2 c2 k2 v2 u]. simpl.
  intros Hz Hrz -> -> Hs1 Hc1 Hu Hcu. rbt_inv.
  destruct s1, s2; simpl; (split; [|done]); rbt_intro.
Qed.


Lemma insert_fixup_almost z p h :
  color_of z = Red → rbt h z → path_rb h p →
  almost (path_height h p) (insert_fixup z p).
Proof.
  revert z h. induction p as [|f|f1 f2 p IH] using path_pair_ind; intros z h Hz Hrz Hp.
  - by apply rbt_almost.
  - destruct Hp as (? & _ & _). by apply almost_plug1.
  - cbn [insert_fixup]. destruct (ftag f1) eqn:E1; cycle 1.
    { apply rbt_almost, rbt_plug; [done..|]. simpl. congruence. }
    destruct Hp as (Hs1 & Hred1 & Hs2 & Hred2 & Hp). rewrite E1 in *.
    destruct Hred1 as [Hc1 Hf2]; [done|]. simpl in Hf2.
    assert (ftag f2 = Black) as E2 by by destruct (ftag f2).
    cbn [path_height]. rewrite E1, E2 in *. simpl in Hp |- *.
    destruct (color_of (fsib f2)) eqn:Eu.
    + apply IH; [by rewrite color_of_plug1| |done].
      apply rbt_plug1. exists (S h). simpl. split_and!; [done| | |].
      * apply rbt_plug1. exists h. by split_and!.
      * apply (rbt_paint_black (fsib f2)) in Hs2. by rewrite Eu in Hs2.
      * intros _. by rewrite color_of_plug1, color_of_paint_black.
    + destruct (fix_line_rbt f1 f2 z h) as [Hl Hcl]; [done..|].
      apply rbt_almost, rbt_plug; done.
Qed.

Lemma color_of_plug_ext n n' p :
  color_of n = color_of n' → color_of (plug n p) = color_of (plug n' p).
Proof.
  revert n n'. induction p as [|f p IH]; intros n n' E; [done|]. cbn [plug].
  apply IH. by rewrite !color_of_plug1.
Qed.

Lemma rb_put_red_black k v s :
  red_black (root s) → red_black (root (put k v s)).
Proof.
  intros (Hc & Hn & H & Hb). unfold put.
  destruct (descend k (root s) []) as [p n] eqn:Hd.
  pose proof (plug_descend k (root s) []) as Hp. rewrite Hd in Hp. simpl in Hp.
  rewrite <- Hp in Hc, Hn, Hb.
  destruct (rbt_unplug n p H) as (h & Hrn & Hpath & Hpar & ->); [done|].
  destruct n as [|c l k' v' r]; simpl.
  - apply rbt_leaf in Hrn as ->.
    eapply almost_red_black, (insert_fixup_almost _ _ 0%nat); [done| |done].
    apply rbt_node. exists 0%nat. by rewrite !rbt_leaf.
  - assert (rbt (path_height h p) (plug (Node c l k v r) p)) as [??].
    { apply rbt_plug; [|done..]. apply rbt_node. by apply rbt_node in Hrn. }
    split_and!; [|done|by eexists].
    by rewrite (color_of_plug_ext _ (Node c l k' v' r)).
Qed.


(** ** Deletion *)

Lemma fix_black_sibling_rbt s pc x pk pv w h :
  rbt h x → color_of x = Black → rbt (S h) w → color_of w = Black →
  match fix_black_sibling s pc x pk pv w with
  | Done n => rbt (bump pc (S h)) n ∧ (pc = Black → color_of n = Black)
  | Up n => pc = Black ∧ rbt (S h) n ∧ color_of n = Black
  end.
Proof.
  intros Hx Hcx Hw Hcw. destruct w as [|[] wl wk wv wr]; [by apply rbt_leaf in Hw|done|].
  apply rbt_node in Hw as (? & [= <-] & Hwl & Hwr & _).
  destruct s, pc, wl as [|[] ? ? ? ?], wr as [|[] ? ? ? ?]; simpl; rbt_inv;
    first [refine (conj _ (λ _, eq_refl)) | refine (conj _ (λ H, H))
          | refine (conj eq_refl (conj _ eq_refl))];
    rbt_intro.
Qed.


Lemma delete_fixup_rbt x p h :
  rbt h x → color_of x = Black → path_rb (S h) p →
  ∃ H, rbt H (delete_fixup x p).
Proof.
  revert x h. induction p as [|f p IH]; intros x h Hx Hcx Hp; [by exists h|].
  destruct Hp as (Hw & Hred & Hp). cbn [delete_fixup].
  destruct (fsib f) as [|[] wl wk wv wr] eqn:Ew.
  - by apply rbt_leaf in Hw.
  - assert (ftag f = Black) as Ef.
    { destruct (ftag f); [|done]. by destruct Hred. }
    rewrite Ef in Hp. apply rbt_node in Hw as (h0 & Eh & Hwl & Hwr & Hcol).
    simpl in Eh. subst h0. destruct (Hcol eq_refl) as [Hcl Hcr].
    eexists. apply rbt_plug; [|exact Hp|by rewrite color_of_mk].
    pose proof (fix_black_sibling_rbt (fside f) Red x (fkey f) (fval f)
                  (match fside f with L => wl | R => wr end) h Hx Hcx) as Hfix.
    apply rbt_mk. exists (S h). split; [done|].
    destruct (fside f); simpl in *;
      (destruct (fix_black_sibling _ _ _ _ _ _);
       [destruct Hfix as [? _]; [done..|] | by destruct Hfix as [? _]]);
      by split_and!.
  - pose proof (fix_black_sibling_rbt (fside f) (ftag f) x (fkey f) (fval f)
                  (Node Black wl wk wv wr) h Hx Hcx Hw eq_refl) as Hfix.
    destruct (fix_black_sibling _ _ _ _ _ _) as [n|n].
    + destruct Hfix as [Hn Hc]. eexists. apply rbt_plug; [done..|].
      intros Hr. apply Hc. destruct (ftag f); [|done]. by destruct Hred as [_ []].
    + destruct Hfix as (Ef & Hn & Hc). rewrite Ef in Hp. by eapply IH.
Qed.

Lemma remove_node_rbt n p H :
  rbt H (plug n p) →
  (∀ c l k v r, n = Node c l k v r → l = Leaf ∨ r = Leaf) →
  ∃ H', rbt H' (remove_node n p).
Proof.
  intros (h & Hn & Hp & Hc & ->)%rbt_unplug Hone.
  destruct n as [|c l k v r]; simpl.
  { eexists. by apply rbt_plug. }
  apply rbt_node in Hn as (h' & -> & Hl & Hr & Hcol).
  assert (h' = 0%nat ∧ rbt 0 (match l with Leaf => r | _ => l end)) as [-> Hch].
  { destruct (Hone _ _ _ _ _ eq_refl) as [-> | ->].
    - apply rbt_leaf in Hl as ->. done.
    - apply rbt_leaf in Hr as ->. by destruct l. }
  destruct c.
  - eexists. apply rbt_plug; [done..|]. intros _.
    destruct Hcol as [??]; [done|]. by destruct l.
  - destruct (match l with Leaf => r | _ => l end) as [|[] cl ck cv cr] eqn:E.
    + by eapply delete_fixup_rbt.
    + eexists. apply rbt_plug; [|done..]. rbt_inv. rbt_intro.
    + by eapply delete_fixup_rbt.
Qed.


Lemma rbt_plug_rekey c l k v k' v' r p H :
  rbt H (plug (Node c l k v r) p) → rbt H (plug (Node c l k' v' r) p).
Proof.
  intros (h & Hn & Hp & Hc & ->)%rbt_unplug. apply rbt_plug; [|done..].
  apply rbt_node. by apply rbt_node in Hn.
Qed.

Lemma rbt_red_black H n : rbt H n → red_black (paint Black n).
Proof. intros ?. by eapply almost_red_black, rbt_almost. Qed.

Lemma rb_del_red_black k s :
  red_black (root s) → red_black (root (del k s)).
Proof.
  intros Hrb. unfold del.
  destruct (descend k (root s) []) as [p n] eqn:Hd.
  pose proof (plug_descend k (root s) []) as Hp. rewrite Hd in Hp. simpl in Hp.
  destruct n as [|c l k' v' r]; [done|]. cbn [root].
  destruct Hrb as (_ & Hn & H & Hb). rewrite <- Hp in Hn, Hb.
  assert (rbt H (plug (Node c l k' v' r) p)) as Hr by done.
  cut (∃ H', rbt H' match l, r with
             | Node _ _ _ _ _, Node _ _ _ _ _ =>
                 let '(pm, m) := descend_min r [] in
                 match m with
                 | Node _ _ sk sv _ => remove_node m (pm ++ Frame R c sk sv l :: p)
                 | Leaf => plug (Node c l k' v' r) p
                 end
             | _, _ => remove_node (Node c l k' v' r) p
             end).
  { intros [H' ?]. by eapply rbt_red_black. }
  destruct l as [|cl ll kl vl rl]; [|destruct r as [|cr lr kr vr rr]].
  - eapply remove_node_rbt; [done|]. intros ????? [= <- <- <- <- <-]. by left.
  - eapply remove_node_rbt; [done|]. intros ????? [= <- <- <- <- <-]. by right.
  - destruct (descend_min _ []) as [pm' m] eqn:Hm.
    apply descend_min_spec in Hm as [(pm & -> & Hpm & _) (cm & sk & sv & mr & ->)];
      [|done].
    rewrite app_nil_r. eapply (remove_node_rbt _ _ H).
    + rewrite plug_app, Hpm. simpl. by apply (rbt_plug_rekey _ _ k' v').
    + intros ????? [= <- <- <- <- <-]. by left.
Qed.

(** ** Balance *)

Lemma rbt_nodes h n : rbt h n → (2 ^ h ≤ nodes n + 1)%nat.
Proof.
  revert h. induction n as [|c l IHl k v r IHr]; intros h Hn.
  - apply rbt_leaf in Hn as ->. simpl. lia.
  - apply rbt_node in Hn as (h' & -> & Hl%IHl & Hr%IHr & _).
    destruct c; simpl; lia.
Qed.

Lemma rbt_height h n :
  rbt h n →
  (height n ≤ 2 * h + match color_of n with Red => 1 | Black => 0 end)%nat.
Proof.
  revert h. induction n as [|c l IHl k v r IHr]; intros h Hn.
  - simpl. lia.
  - apply rbt_node in Hn as (h' & -> & Hl%IHl & Hr%IHr & Hc).
    destruct c; simpl in *.
    + destruct Hc as [Hcl Hcr]; [done|]. rewrite Hcl in Hl. rewrite Hcr in Hr. lia.
    + destruct (color_of l), (color_of r); lia.
Qed.

(** A red-black tree is balanced: its height is at most twice the
    logarithm of its number of nodes plus one. *)
Lemma red_black_height n :
  red_black n → (height n ≤ 2 * Nat.log2 (nodes n + 1))%nat.
Proof.
  intros (Hc & Hn & h & Hb). assert (rbt h n) as Hr by done.
  pose proof (rbt_height h n Hr) as Hh. rewrite Hc in Hh.
  pose proof (rbt_nodes h n Hr) as Hs.
  assert (h ≤ Nat.log2 (nodes n + 1))%nat; [|lia].
  apply Nat.log2_le_pow2; lia.
Qed.

(** ** The invariant of the tree object *)

Lemma rb_inv_sorted s : inv s → sorted (entries s).
Proof. intros [? _]. by apply bst_sorted. Qed.

Lemma rb_inv_count s : inv s → count s = length (entries s).
Proof. intros (_ & _ & ->). apply nodes_inorder. Qed.

Lemma rb_inv_intro s :
  sorted (entries s) → red_black (root s) → count s = length (entries s) →
  inv s.
Proof.
  intros ?? Hc. split_and!; [by apply bst_sorted|done|]. by rewrite nodes_inorder.
Qed.

Lemma rb_empty_inv : inv empty.
Proof. split_and!; [done| |done]. split_and!; [done..|]. by exists 0%nat. Qed.

Lemma rb_put_inv k v s : inv s → inv (put k v s).
Proof.
  intros Hs. pose proof (rb_inv_sorted s Hs). apply rb_inv_intro.
  - rewrite rb_put_entries_sorted by done. by apply al_insert_sorted.
  - apply rb_put_red_black, Hs.
  - rewrite rb_put_entries_sorted, rb_put_count, al_insert_length by done.
    by rewrite (rb_inv_count s Hs).
Qed.

Lemma rb_del_inv k s : inv s → inv (del k s).
Proof.
  intros Hs. pose proof (rb_inv_sorted s Hs). apply rb_inv_intro.
  - rewrite rb_del_entries_sorted by done. by apply al_delete_sorted.
  - apply rb_del_red_black, Hs.
  - rewrite rb_del_entries_sorted, rb_del_count, al_delete_length by done.
    by rewrite (rb_inv_count s Hs).
Qed.

Lemma rb_contains_result k s :
  inv s → contains k s = bool_decide (k ∈ keys (entries s)).
Proof. intros Hs. by apply mem_inorder, rb_inv_sorted. Qed.

#[export] Instance rb_ordered_map_laws : OrderedMapLaws RB.t.
Proof.
  split; simpl.
  - apply rb_empty_inv.
  - done.
  - apply rb_inv_sorted.
  - apply rb_inv_count.
  - apply rb_put_inv.
  - intros k v s Hs. by apply rb_put_entries_sorted, rb_inv_sorted.
  - done.
  - done.
  - apply rb_contains_result.
  - apply rb_del_inv.
  - intros k s Hs. by apply rb_del_entries_sorted, rb_inv_sorted.
Qed.
