(* ===== verification/Harness.v ===== *)
(** * Harness: the benchmark of [main]

    [main] (main.cpp:77-204) runs, for each of two sets and three data
    files, the same block on the three structures: build the tree from
    the insert data, then, when there is search data, look every key up,
    then, when there is delete data, delete every key; each phase is
    timed and reported.  A data set with no insert data is skipped.

    The three blocks of the source differ only in the class of the tree
    and the label printed, so they are one definition, [bench_block],
    over the [OrderedMap] contract; what it leaves of the tree is proved
    from the laws of the contract and holds for all three structures. *)

From stdpp Require Import gmap.
From S2P Require Import Prelude CInt IStream IO ReadFile AList OrderedMap.
From S2P Require Import Unbalanced SplayTree RedBlack.

(** ** The phases of a block *)

Section Phases.
Context `{OrderedMap T}.

(** main.cpp:104-106: [for (int value : insertData) tree.put(value, value)]. *)
Definition insert_phase (insertData : list Z) (tree : T) : T :=
  foldl (λ tree value, om_put value value tree) tree insertData.

(** main.cpp:113-115: [for (int value : searchData) tree.contains(value)];
    the answers are discarded, the tree is not. *)
Definition search_phase (searchData : list Z) (tree : T) : T :=
  foldl (λ tree value, (om_contains value tree).2) tree searchData.

(** main.cpp:123-125: [for (int value : deleteData) tree.del(value)]. *)
Definition delete_phase (deleteData : list Z) (tree : T) : T :=
  foldl (λ tree value, om_del value tree) tree deleteData.

End Phases.

(** main.cpp:108-109: [duration_cast<microseconds>(end - start).count()].
    The samples are counts of nanoseconds, the period of the clock in the
    usual implementations; the cast truncates toward zero. *)
Definition elapsed_us (start stop : Z) : Z := Z.quot (stop - start) 1000.

(** main.cpp:103-109: a timed phase: sample the clock, do the work,
    sample again, report.  The work is the loop of the phase, a total
    function of the tree. *)
Definition timed {A} (work : A) (report : Z → event) : IO A :=
  start ← now;
  let result := work in
  stop ← now;
  cout (report (elapsed_us start stop));;
  mret result.

(** main.cpp:99-130 (and 133-164, 167-198): one block.  It returns the
    tree as it is when the block ends. *)
Definition bench_block `{OrderedMap T} (name : string)
    (insertData searchData deleteData : list Z) : IO T :=
  cout (Results name);;
  t1 ← timed (insert_phase insertData om_empty) InsertTime;
  t2 ← match searchData with
       | [] => mret t1
       | _ => timed (search_phase searchData t1) SearchTime
       end;
  match deleteData with
  | [] => mret t2
  | _ => timed (delete_phase deleteData t2) DeleteTime
  end.

(** ** [main] *)

Definition sets : list string := ["set1"; "set2"].
Definition dataFiles : list string := ["data_1.txt"; "data_2.txt"; "data_3.txt"].
Definition descriptions : list string := ["50K items"; "100K items"; "200K items"].

(** main.cpp:92-94: ["code/data/" + kind + "/" + set + "/" + dataFile]. *)
Definition data_path (kind set dataFile : string) : string :=
  "code/data/" +:+ kind +:+ "/" +:+ set +:+ "/" +:+ dataFile.

(** main.cpp:98-198: the three blocks of a data set. *)
Definition run_blocks (insertData searchData deleteData : list Z) : IO unit :=
  bench_block (T := BST.t) "BST" insertData searchData deleteData;;
  bench_block (T := Splay.t) "Splay Tree" insertData searchData deleteData;;
  bench_block (T := RB.t) "RB Tree" insertData searchData deleteData;;
  mret ().

(** main.cpp:88-199: the body of the loop over data files. *)
Definition run_dataset (set : string) (fileIndex : nat) : IO unit :=
  dataFile ← index dataFiles fileIndex;
  desc ← index descriptions fileIndex;
  cout (Dataset set dataFile desc);;
  insertData ← readFile (data_path "insert" set dataFile);
  searchData ← readFile (data_path "search" set dataFile);
  deleteData ← readFile (data_path "delete" set dataFile);
  match insertData with
  | [] => mret ()
  | _ => run_blocks insertData searchData deleteData
  end.

(** main.cpp:85-200: the body of the loop over sets. *)
Definition run_set (set : string) : IO unit :=
  cout (Testing set (bool_decide (set = "set1")));;
  for_each (seq 0 (length dataFiles)) (run_dataset set).

Definition main : IO Z :=
  cout Title;;
  cout Underline;;
  for_each sets run_set;;
  cout Complete;;
  mret 0.

(** ** What a block computes *)

(** The tree a block ends with.  The guards on empty search and delete
    data only decide what is timed and printed: a phase on no data
    leaves the tree as it is. *)
Definition block_result `{OrderedMap T} (insertData searchData deleteData : list Z) : T :=
  delete_phase deleteData (search_phase searchData (insert_phase insertData om_empty)).

(** The finite map a block stands for: every inserted value bound to
    itself, then the deleted keys removed. *)
Definition inserted (data : list Z) (m : gmap Z Z) : gmap Z Z :=
  foldl (λ m value, <[value:=value]> m) m data.
Definition deleted (data : list Z) (m : gmap Z Z) : gmap Z Z :=
  foldl (λ m value, delete value m) m data.
Definition block_contents (insertData deleteData : list Z) : gmap Z Z :=
  deleted deleteData (inserted insertData ∅).

(** The distinct keys a block leaves in the tree. *)
Definition block_keys (insertData deleteData : list Z) : gset Z :=
  list_to_set insertData ∖ list_to_set deleteData.

(** The line a phase prints when it starts at the [n]-th clock sample. *)
Definition phase_event (report : Z → event) (clock : nat → Z) (n : nat) : event :=
  report (elapsed_us (clock n) (clock (S n))).

(** The clock samples and the lines of a block. *)
Definition phase_ticks (data : list Z) : nat :=
  match data with [] => 0 | _ => 2 end.
Definition block_ticks (searchData deleteData : list Z) : nat :=
  2 + phase_ticks searchData + phase_ticks deleteData.
Definition phase_events (report : Z → event) (data : list Z) (clock : nat → Z)
    (n : nat) : list event :=
  match data with [] => [] | _ => [phase_event report clock n] end.
Definition block_events (name : string) (searchData deleteData : list Z)
    (clock : nat → Z) (n : nat) : list event :=
  Results name :: phase_event InsertTime clock n
    :: phase_events SearchTime searchData clock (2 + n)
    ++ phase_events DeleteTime deleteData clock (2 + phase_ticks searchData + n).

(** A clock that never runs backwards. *)
Definition monotone (clock : nat → Z) : Prop := ∀ n, clock n ≤ clock (S n).

(** The duration an event reports, if it reports one. *)
Definition reported (e : event) : option Z :=
  match e with
  | InsertTime us | SearchTime us | DeleteTime us => Some us
  | _ => None
  end.

(** A world with one data set: the keys of the example of the
    specification, two searches and two deletions, one of each for a key
    that is not there. *)
Definition bench_world : world :=
  World {[ data_path "insert" "set1" "data_1.txt" := render_file "," [[5; 3; 8; 1; 4; 7; 9]];
           data_path "search" "set1" "data_1.txt" := render_file "," [[4; 6]];
           data_path "delete" "set1" "data_1.txt" := render_file "," [[3; 10]] ]}
        (λ n, Z.of_nat n * 2500) 0 [].

(** The clock samples and the lines of a data set, from the data read. *)
Definition blocks_ticks (insertData searchData deleteData : list Z) : nat :=
  match insertData with
  | [] => 0
  | _ => 3 * block_ticks searchData deleteData
  end.
Definition blocks_events (insertData searchData deleteData : list Z)
    (clock : nat → Z) (n : nat) : list event :=
  match insertData with
  | [] => []
  | _ =>
      let b := block_ticks searchData deleteData in
      block_events "BST" searchData deleteData clock n
      ++ block_events "Splay Tree" searchData deleteData clock (b + n)
      ++ block_events "RB Tree" searchData deleteData clock (b + b + n)
  end.

(** ** The phases against the contract *)

Lemma insert_phase_snoc `{OrderedMap T} data k (t : T) :
  insert_phase (data ++ [k]) t = om_put k k (insert_phase data t).
Proof. unfold insert_phase. by rewrite foldl_snoc. Qed.

Lemma search_phase_snoc `{OrderedMap T} data k (t : T) :
  search_phase (data ++ [k]) t = (om_contains k (search_phase data t)).2.
Proof. unfold search_phase. by rewrite foldl_snoc. Qed.

Lemma delete_phase_snoc `{OrderedMap T} data k (t : T) :
  delete_phase (data ++ [k]) t = om_del k (delete_phase data t).
Proof. unfold delete_phase. by rewrite foldl_snoc. Qed.

Section PhaseLaws.
Context `{OrderedMapLaws T}.
Implicit Types (t : T) (data : list Z).

Lemma insert_phase_inv data t : om_inv t → om_inv (insert_phase data t).
Proof. revert t. induction data; simpl; auto with bench. Qed.

Lemma search_phase_inv data t : om_inv t → om_inv (search_phase data t).
Proof. revert t. induction data; simpl; auto with bench. Qed.

Lemma delete_phase_inv data t : om_inv t → om_inv (delete_phase data t).
Proof. revert t. induction data; simpl; auto with bench. Qed.

Lemma insert_phase_contents data t :
  om_inv t → ⟦insert_phase data t⟧ = inserted data ⟦t⟧.
Proof.
  revert t. induction data as [|k data IH]; intros t Ht; simpl; [done|].
  rewrite IH, contents_put; auto with bench.
Qed.

Lemma search_phase_contents data t :
  om_inv t → ⟦search_phase data t⟧ = ⟦t⟧.
Proof.
  revert t. induction data as [|k data IH]; intros t Ht; simpl; [done|].
  rewrite IH, contents_contains; auto with bench.
Qed.

Lemma search_phase_entries data t :
  om_inv t → om_entries (search_phase data t) = om_entries t.
Proof.
  revert t. induction data as [|k data IH]; intros t Ht; simpl; [done|].
  rewrite IH, om_contains_entries; auto with bench.
Qed.

Lemma delete_phase_contents data t :
  om_inv t → ⟦delete_phase data t⟧ = deleted data ⟦t⟧.
Proof.
  revert t. induction data as [|k data IH]; intros t Ht; simpl; [done|].
  rewrite IH, contents_del; auto with bench.
Qed.

Lemma block_result_inv ins srch dels : om_inv (block_result (T:=T) ins srch dels).
Proof.
  apply delete_phase_inv, search_phase_inv, insert_phase_inv, om_empty_inv.
Qed.

Lemma block_result_contents ins srch dels :
  ⟦block_result (T:=T) ins srch dels⟧ = block_contents ins dels.
Proof.
  unfold block_result, block_contents.
  rewrite delete_phase_contents, search_phase_contents, insert_phase_contents,
    contents_empty; auto using search_phase_inv, insert_phase_inv, om_empty_inv.
Qed.

End PhaseLaws.

#[export] Hint Resolve insert_phase_inv search_phase_inv delete_phase_inv
  block_result_inv : bench.

(** ** The map of a block *)

Lemma inserted_lookup data m k :
  inserted data m !! k = if decide (k ∈ data) then Some k else m !! k.
Proof.
  revert m. induction data as [|x data IH]; intros m; simpl; [done|].
  rewrite IH. destruct (decide (k = x)) as [->|].
  - rewrite lookup_insert_eq. by repeat case_decide; set_solver.
  - rewrite lookup_insert_ne by done. by repeat case_decide; set_solver.
Qed.

Lemma deleted_lookup data m k :
  deleted data m !! k = if decide (k ∈ data) then None else m !! k.
Proof.
  revert m. induction data as [|x data IH]; intros m; simpl; [done|].
  rewrite IH. destruct (decide (k = x)) as [->|].
  - rewrite lookup_delete_eq. by repeat case_decide; set_solver.
  - rewrite lookup_delete_ne by done. by repeat case_decide; set_solver.
Qed.

Lemma block_contents_lookup ins dels k :
  block_contents ins dels !! k =
    if decide (k ∈ ins ∧ k ∉ dels) then Some k else None.
Proof.
  unfold block_contents. rewrite deleted_lookup, inserted_lookup, lookup_empty.
  repeat case_decide; naive_solver.
Qed.

Lemma block_contents_dom ins dels :
  dom (block_contents ins dels) = block_keys ins dels.
Proof.
  apply set_eq. intros k. rewrite elem_of_dom, block_contents_lookup.
  unfold block_keys. rewrite elem_of_difference, !elem_of_list_to_set.
  case_decide; [naive_solver|]. split; [by intros [? ?]|naive_solver].
Qed.

(** ** Running a block *)

Lemma elapsed_us_nonneg start stop : start ≤ stop → 0 ≤ elapsed_us start stop.
Proof. intros. unfold elapsed_us. apply Z.quot_pos; lia. Qed.

Lemma elapsed_us_exact start us : 0 ≤ us → elapsed_us start (start + 1000 * us) = us.
Proof.
  intros. unfold elapsed_us. replace (start + 1000 * us - start) with (us * 1000) by lia.
  by rewrite Z.quot_mul.
Qed.

Lemma timed_runs {A} (work : A) report w :
  runs (timed work report) w work
    (World (files w) (clock w) (2 + ticks w)
       (console w ++ [phase_event report (clock w) (ticks w)])).
Proof. done. Qed.

Lemma timed_phase_runs {A} (phase : list Z → A → A) (t : A) report data w :
  phase [] t = t →
  runs (match data with [] => mret t | _ => timed (phase data t) report end) w
    (phase data t)
    (World (files w) (clock w) (phase_ticks data + ticks w)
       (console w ++ phase_events report data (clock w) (ticks w))).
Proof.
  destruct data; intros E; [|apply timed_runs].
  rewrite E. unfold phase_events. simpl. rewrite app_nil_r. by destruct w.
Qed.

Lemma bench_block_runs `{OrderedMap T} name ins srch dels w :
  runs (bench_block (T:=T) name ins srch dels) w (block_result ins srch dels)
    (World (files w) (clock w) (block_ticks srch dels + ticks w)
       (console w ++ block_events name srch dels (clock w) (ticks w))).
Proof.
  unfold bench_block, block_result.
  eapply runs_bind; [apply runs_cout|].
  eapply runs_bind; [apply timed_runs|].
  eapply runs_bind; [by apply (timed_phase_runs search_phase)|].
  unfold runs. rewrite (timed_phase_runs delete_phase) by done.
  simpl. unfold block_ticks, block_events.
  do 2 f_equal. f_equal; [lia|]. rewrite <- !app_assoc. simpl. repeat f_equal; lia.
Qed.

Lemma bench_block_inv `{OrderedMap T} name ins srch dels w t w' :
  runs (bench_block (T:=T) name ins srch dels) w t w' →
  t = block_result ins srch dels ∧
  w' = World (files w) (clock w) (block_ticks srch dels + ticks w)
         (console w ++ block_events name srch dels (clock w) (ticks w)).
Proof. intros Hr. by destruct (runs_det _ _ _ _ _ _ Hr (bench_block_runs _ _ _ _ _)). Qed.

Lemma block_ticks_bound srch dels : (2 ≤ block_ticks srch dels ≤ 6)%nat.
Proof. unfold block_ticks, phase_ticks. destruct srch, dels; simpl; lia. Qed.

Lemma bench_block_total `{OrderedMap T} name ins srch dels :
  total (bench_block (T:=T) name ins srch dels) 6.
Proof.
  intros w. eexists _, _. split; [apply bench_block_runs|].
  pose proof (block_ticks_bound srch dels).
  split; [done|]. cbn [ticks console]. split; [lia|]. by apply prefix_app_r.
Qed.

(** ** Reported times *)

Lemma phase_event_nonneg report clock n us :
  monotone clock → (∀ x, reported (report x) = Some x) →
  reported (phase_event report clock n) = Some us → 0 ≤ us.
Proof.
  intros Hm Hrep. unfold phase_event. rewrite Hrep. intros [= <-].
  by apply elapsed_us_nonneg.
Qed.

Lemma block_events_nonneg name srch dels clock n :
  monotone clock →
  Forall (λ e, ∀ us, reported e = Some us → 0 ≤ us)
    (block_events name srch dels clock n).
Proof.
  intros Hm. unfold block_events, phase_events.
  destruct srch, dels; cbn [app]; repeat apply Forall_cons_2;
    try apply Forall_nil_2; intros us; (done || by apply phase_event_nonneg).
Qed.

(** ** [main] *)

Lemma readFile_total_0 filename : total (readFile filename) 0.
Proof.
  intros w. eexists _, _. split; [apply readFile_runs|].
  by eapply only_prints_advances.
Qed.

Lemma run_blocks_total ins srch dels : total (run_blocks ins srch dels) 18.
Proof.
  unfold run_blocks.
  apply (total_bind _ _ 6 12); [apply bench_block_total|intros _].
  apply (total_bind _ _ 6 6); [apply bench_block_total|intros _].
  apply (total_bind _ _ 6 0); [apply bench_block_total|intros _].
  apply total_ret.
Qed.

Lemma run_dataset_total set fileIndex :
  (fileIndex < length dataFiles)%nat → total (run_dataset set fileIndex) 18.
Proof.
  intros Hi. unfold run_dataset.
  apply (total_bind _ _ 0 18); [by apply total_index|intros dataFile].
  apply (total_bind _ _ 0 18); [by apply total_index|intros desc].
  apply (total_bind _ _ 0 18); [apply total_cout|intros _].
  apply (total_bind _ _ 0 18); [apply readFile_total_0|intros ins].
  apply (total_bind _ _ 0 18); [apply readFile_total_0|intros srch].
  apply (total_bind _ _ 0 18); [apply readFile_total_0|intros dels].
  destruct ins; [|apply run_blocks_total].
  apply (total_weaken _ 0); [lia|apply total_ret].
Qed.

Lemma run_set_total set : total (run_set set) 54.
Proof.
  unfold run_set. apply (total_bind _ _ 0 54); [apply total_cout|intros _].
  apply (total_for_each (seq 0 (length dataFiles)) _ 18).
  apply Forall_forall. intros i Hi%elem_of_seq. apply run_dataset_total. lia.
Qed.

Lemma main_total_108 : total main 108.
Proof.
  unfold main.
  apply (total_bind _ _ 0 108); [apply total_cout|intros _].
  apply (total_bind _ _ 0 108); [apply total_cout|intros _].
  apply (total_bind _ _ 108 0);
    [apply (total_for_each sets _ 54), Forall_true, run_set_total|intros _].
  apply (total_bind _ _ 0 0); [apply total_cout|intros _]. apply total_ret.
Qed.

(** ** A data set *)

Lemma run_blocks_runs ins srch dels w :
  runs (run_blocks ins srch dels) w ()
    (World (files w) (clock w) (3 * block_ticks srch dels + ticks w)
       (console w
        ++ block_events "BST" srch dels (clock w) (ticks w)
        ++ block_events "Splay Tree" srch dels (clock w)
             (block_ticks srch dels + ticks w)
        ++ block_events "RB Tree" srch dels (clock w)
             (block_ticks srch dels + block_ticks srch dels + ticks w))).
Proof.
  unfold run_blocks.
  eapply runs_bind; [apply bench_block_runs|].
  eapply runs_bind; [apply bench_block_runs|].
  eapply runs_bind; [apply bench_block_runs|].
  apply runs_ret_eq, world_eq; cbn [ticks console]; [lia|].
  rewrite <- !app_assoc. do 4 f_equal. lia.
Qed.

Lemma run_dataset_runs set fileIndex dataFile desc w :
  dataFiles !! fileIndex = Some dataFile →
  descriptions !! fileIndex = Some desc →
  let ins := file_data w (data_path "insert" set dataFile) in
  let srch := file_data w (data_path "search" set dataFile) in
  let dels := file_data w (data_path "delete" set dataFile) in
  runs (run_dataset set fileIndex) w ()
    (World (files w) (clock w) (blocks_ticks ins srch dels + ticks w)
       (console w
        ++ [Dataset set dataFile desc;
            load_event w (data_path "insert" set dataFile);
            load_event w (data_path "search" set dataFile);
            load_event w (data_path "delete" set dataFile)]
        ++ blocks_events ins srch dels (clock w) (ticks w))).
Proof.
  intros Ef Ed ins srch dels. unfold run_dataset, index. rewrite Ef, Ed.
  eapply runs_bind; [apply runs_ret|]. eapply runs_bind; [apply runs_ret|].
  eapply runs_bind; [apply runs_cout|].
  do 3 (eapply runs_bind; [apply readFile_runs|]).
  unfold blocks_ticks, blocks_events.
  change (file_data _ (data_path "insert" set dataFile)) with ins.
  destruct ins.
  - apply runs_ret_eq, world_eq; cbn [ticks console]; [done|].
    by rewrite app_nil_r, <- !app_assoc.
  - eapply runs_world_eq; [apply run_blocks_runs|].
    apply world_eq; cbn [ticks console]; [done|]. by rewrite <- !app_assoc.
Qed.

(** ** Membership and order after a block *)

Section BlockLaws.
Context `{OrderedMapLaws T}.

Lemma block_result_lookup ins srch dels k :
  ⟦block_result (T:=T) ins srch dels⟧ !! k =
    if decide (k ∈ ins ∧ k ∉ dels) then Some k else None.
Proof. by rewrite block_result_contents, block_contents_lookup. Qed.

Lemma block_result_contains ins srch dels k :
  (om_contains k (block_result (T:=T) ins srch dels)).1 =
    bool_decide (k ∈ ins ∧ k ∉ dels).
Proof.
  rewrite contains_contents by apply block_result_inv.
  apply bool_decide_ext. rewrite block_result_lookup.
  case_decide; split; try done; by intros [? ?].
Qed.

Lemma block_result_keys ins srch dels k :
  k ∈ keys (om_entries (block_result (T:=T) ins srch dels)) ↔ k ∈ ins ∧ k ∉ dels.
Proof.
  rewrite keys_contents, block_result_lookup.
  case_decide; split; try done; by intros [? ?].
Qed.

Lemma block_result_count ins srch dels :
  om_count (block_result (T:=T) ins srch dels) = size (block_keys ins dels).
Proof.
  rewrite count_contents by apply block_result_inv.
  by rewrite block_result_contents, <- block_contents_dom, size_dom.
Qed.

Lemma block_result_length ins srch dels :
  (length (om_entries (block_result (T:=T) ins srch dels)) ≤ length ins)%nat.
Proof.
  rewrite <- (length_fmap fst). apply submseteq_length, NoDup_submseteq.
  - apply sorted_NoDup, om_inv_sorted, block_result_inv.
  - intros k Hk. by apply block_result_keys in Hk as [? _].
Qed.

End BlockLaws.

(** ** Phases on structures equal as maps *)

Section PhaseMaps.
Context `{OrderedMapLaws T}.
Implicit Types (t : T) (data : list Z).

#[export] Instance insert_phase_proper data :
  Proper (same_map ==> same_map) (insert_phase (T:=T) data).
Proof.
  induction data as [|k data IH]; intros t1 t2 E; simpl; [done|].
  by apply IH, om_put_proper.
Qed.

#[export] Instance delete_phase_proper data :
  Proper (same_map ==> same_map) (delete_phase (T:=T) data).
Proof.
  induction data as [|k data IH]; intros t1 t2 E; simpl; [done|].
  by apply IH, om_del_proper.
Qed.

Lemma search_phase_same_map data t : om_inv t → search_phase data t ≈ t.
Proof.
  intros Ht. repeat split; auto with bench. by apply search_phase_contents.
Qed.

Lemma insert_phase_reachable data t : reachable t → reachable (insert_phase data t).
Proof.
  revert t. induction data as [|k data IH]; intros t Ht; simpl; [done|].
  apply IH. eapply reachable_step; [done|constructor].
Qed.

Lemma search_phase_reachable data t : reachable t → reachable (search_phase data t).
Proof.
  revert t. induction data as [|k data IH]; intros t Ht; simpl; [done|].
  apply IH. eapply reachable_step; [done|constructor].
Qed.

Lemma delete_phase_reachable data t : reachable t → reachable (delete_phase data t).
Proof.
  revert t. induction data as [|k data IH]; intros t Ht; simpl; [done|].
  apply IH. eapply reachable_step; [done|constructor].
Qed.

Lemma block_result_reachable ins srch dels :
  reachable (block_result (T:=T) ins srch dels).
Proof.
  apply delete_phase_reachable, search_phase_reachable, insert_phase_reachable.
  apply rtc_refl.
Qed.

Lemma search_then_delete srch dels t :
  om_inv t →
  om_entries (delete_phase dels (search_phase srch t))
    = om_entries (delete_phase dels t).
Proof. intros Ht. by rewrite (search_phase_same_map srch t Ht). Qed.

End PhaseMaps.

(** ** Repeated and useless work *)

Lemma inserted_twice data m : inserted data (inserted data m) = inserted data m.
Proof.
  apply map_eq. intros k. rewrite !inserted_lookup. by case_decide.
Qed.

Lemma inserted_dom data (m : gmap Z Z) :
  dom (inserted data m) = dom m ∪ list_to_set data.
Proof.
  apply set_eq. intros k.
  rewrite elem_of_union, !elem_of_dom, elem_of_list_to_set, inserted_lookup.
  case_decide; [naive_solver|]. split; [by left|]. by intros [?|?].
Qed.

Lemma deleted_absent data (m : gmap Z Z) :
  (∀ k, k ∈ data → m !! k = None) → deleted data m = m.
Proof.
  intros Hm. apply map_eq. intros k. rewrite deleted_lookup.
  case_decide; [by rewrite Hm|done].
Qed.

(** ** Main results *)

(** C1. A block implements a finite map.  Whatever structure meets the
    contract, the tree a block of [main] ends with satisfies the
    invariant of its structure, stands for the map that binds every
    inserted value to itself and has the deleted keys removed, and its
    stored count is the number of distinct keys inserted and not
    deleted. *)
Theorem block_refines `{OrderedMapLaws T} name ins srch dels w (t : T) w' :
  runs (bench_block name ins srch dels) w t w' →
  om_inv t ∧ ⟦t⟧ = block_contents ins dels ∧
  om_count t = size (block_keys ins dels).
Proof.
  intros [-> _]%bench_block_inv.
  split; [apply block_result_inv|].
  split; [apply block_result_contents|apply block_result_count].
Qed.

Lemma block_refines_witness :
  let b : BST.t := block_result [5; 3; 8; 1; 4; 7; 9] [4; 6] [3; 10] in
  om_inv b ∧ ⟦b⟧ = block_contents [5; 3; 8; 1; 4; 7; 9] [3; 10] ∧
  om_count b = size (block_keys [5; 3; 8; 1; 4; 7; 9] [3; 10]).
Proof.
  apply (block_refines (T:=BST.t) "BST" _ [4; 6] _ bench_world _
           (World (files bench_world) (clock bench_world) 6
              [Results "BST"; InsertTime 2; SearchTime 2; DeleteTime 2])).
  by vm_compute.
Defined.

(** C8. Membership round trip.  After the insert and delete phases of a
    block, [contains] answers true exactly for the keys that were
    inserted and not deleted; the search phase in between changes no
    answer. *)
Theorem block_membership `{OrderedMapLaws T} ins srch dels k :
  (om_contains k (block_result (T:=T) ins srch dels)).1 =
    bool_decide (k ∈ ins ∧ k ∉ dels).
Proof. apply block_result_contains. Qed.

Lemma block_membership_witness :
  (om_contains 4 (block_result (T:=BST.t) [5; 3; 8; 1; 4; 7; 9] [4; 6] [3; 10])).1
  = bool_decide (4 ∈ [5; 3; 8; 1; 4; 7; 9] ∧ 4 ∉ [3; 10]).
Proof. apply (block_membership (T:=BST.t)). Defined.

(** C9. Ordering invariant.  The in-order traversal of the tree a block
    ends with is strictly increasing in the keys, and its keys are the
    inserted keys that were not deleted. *)
Theorem block_ordered `{OrderedMapLaws T} ins srch dels :
  sorted (om_entries (block_result (T:=T) ins srch dels)) ∧
  ∀ k, k ∈ keys (om_entries (block_result (T:=T) ins srch dels))
       ↔ k ∈ ins ∧ k ∉ dels.
Proof.
  split; [apply om_inv_sorted, block_result_inv|apply block_result_keys].
Qed.

Lemma block_ordered_witness :
  sorted (om_entries (block_result (T:=BST.t) [5; 3; 8; 1] [] [3])) ∧
  ∀ k, k ∈ keys (om_entries (block_result (T:=BST.t) [5; 3; 8; 1] [] [3]))
       ↔ k ∈ [5; 3; 8; 1] ∧ k ∉ [3].
Proof. apply (block_ordered (T:=BST.t)). Defined.

(** C13. A search phase is invisible in the contents.  Looking keys up
    may reshape the tree (a splay tree is reshaped by every search) but
    it keeps the invariant, the in-order traversal and the count. *)
Theorem search_phase_transparent `{OrderedMapLaws T} srch (t : T) :
  om_inv t →
  om_inv (search_phase srch t) ∧
  om_entries (search_phase srch t) = om_entries t ∧
  om_count (search_phase srch t) = om_count t.
Proof.
  intros Ht. split; [by apply search_phase_inv|].
  split; [by apply search_phase_entries|].
  rewrite !om_inv_count, search_phase_entries; auto with bench.
Qed.

Lemma search_phase_transparent_witness :
  let t : Splay.t := insert_phase [2; 1; 3] om_empty in
  om_inv (search_phase [3; 7] t) ∧
  om_entries (search_phase [3; 7] t) = om_entries t ∧
  om_count (search_phase [3; 7] t) = om_count t.
Proof.
  apply (search_phase_transparent (T:=Splay.t)).
  apply insert_phase_inv, om_empty_inv.
Defined.

(** C7. [main] always returns 0.  From every world, whatever files
    exist and whatever they hold, the run is defined (no vector is
    indexed outside its bounds), changes no file, samples the clock at
    most 108 times (two per phase, three phases, three structures, six
    data sets) and only adds lines to the console. *)
Theorem main_total w :
  ∃ w', runs main w 0 w' ∧ advances w w' 108.
Proof.
  destruct (main_total_108 w) as (r & w' & Hr & Ha). exists w'.
  split; [|done]. assert (r = 0) as ->; [|done].
  unfold main in Hr. repeat (apply runs_bind_inv in Hr as (? & ? & _ & Hr)).
  by injection Hr.
Qed.

(** C17. What a block prints.  A block prints the header of its
    structure and one line per phase, the search and the delete line
    only when there is search and delete data, and samples the clock
    twice per line; each line reports the time between its two samples
    in whole microseconds. *)
Theorem bench_block_output `{OrderedMap T} name ins srch dels w (t : T) w' :
  runs (bench_block name ins srch dels) w t w' →
  files w' = files w ∧
  ticks w' = (block_ticks srch dels + ticks w)%nat ∧
  console w' = console w ++ block_events name srch dels (clock w) (ticks w).
Proof. by intros [_ ->]%bench_block_inv. Qed.

Lemma bench_block_output_witness :
  console (World (files bench_world) (clock bench_world) 4
             [Results "RB Tree"; InsertTime 2; DeleteTime 2])
  = console bench_world
    ++ block_events "RB Tree" [] [3] (clock bench_world) (ticks bench_world).
Proof.
  refine (proj2 (proj2 (bench_block_output (T:=RB.t) "RB Tree" [5; 3] [] [3]
    bench_world (block_result [5; 3] [] [3]) _ _))).
  by vm_compute.
Defined.

(** C16. A data set without insert data is skipped.  When the insert
    file is missing or holds no number, the data set prints its header
    and the three lines of [readFile], builds no tree and takes no
    clock sample. *)
Theorem run_dataset_skips set fileIndex dataFile desc w :
  dataFiles !! fileIndex = Some dataFile →
  descriptions !! fileIndex = Some desc →
  file_data w (data_path "insert" set dataFile) = [] →
  runs (run_dataset set fileIndex) w ()
    (World (files w) (clock w) (ticks w)
       (console w
        ++ [Dataset set dataFile desc;
            load_event w (data_path "insert" set dataFile);
            load_event w (data_path "search" set dataFile);
            load_event w (data_path "delete" set dataFile)])).
Proof.
  intros Ef Ed E. eapply runs_world_eq; [by apply run_dataset_runs|].
  rewrite E. apply world_eq; [done|]. unfold blocks_events. by rewrite app_nil_r.
Qed.

Lemma run_dataset_skips_witness :
  runs (run_dataset "set2" 1) bench_world ()
    (World (files bench_world) (clock bench_world) 0
       [Dataset "set2" "data_2.txt" "100K items";
        OpenError "code/data/insert/set2/data_2.txt";
        OpenError "code/data/search/set2/data_2.txt";
        OpenError "code/data/delete/set2/data_2.txt"]).
Proof.
  apply (run_dataset_skips "set2" 1 "data_2.txt" "100K items" bench_world);
    reflexivity.
Defined.

(** C24. Reported times are not negative.  If the clock never runs
    backwards, every duration a block prints is at least zero. *)
Theorem reported_times_nonneg `{OrderedMap T} name ins srch dels w (t : T) w' e us :
  monotone (clock w) →
  runs (bench_block name ins srch dels) w t w' →
  e ∈ drop (length (console w)) (console w') →
  reported e = Some us → 0 ≤ us.
Proof.
  intros Hm [_ ->]%bench_block_inv. cbn [console]. rewrite drop_app_length.
  intros He. by eapply (proj1 (Forall_forall _ _) (block_events_nonneg _ _ _ _ _ Hm)).
Qed.

Lemma reported_times_nonneg_witness : 0 ≤ 2.
Proof.
  apply (reported_times_nonneg (T:=BST.t) "BST" [5] [] [] bench_world
           (block_result [5] [] [])
           (World (files bench_world) (clock bench_world) 2
              [Results "BST"; InsertTime 2])
           (InsertTime 2) 2).
  - intros n. cbn [clock bench_world]. lia.
  - by vm_compute.
  - cbn [console bench_world length drop]. repeat constructor.
  - reflexivity.
Defined.

(** C18. Re-insertion overwrites in place.  After an insert phase on
    any tree, every inserted key is bound to the value inserted,
    whatever it was bound to before, and every other key to what it was
    bound to; the count is the number of distinct keys of the tree and
    of the data, so a key that was present gets no second node; and
    inserting the data set a second time changes neither the traversal
    nor the count. *)
Theorem insert_phase_idempotent `{OrderedMapLaws T} data (t : T) :
  om_inv t →
  (∀ k, al_lookup k (om_entries (insert_phase data t)) =
          if decide (k ∈ data) then Some k else al_lookup k (om_entries t)) ∧
  om_count (insert_phase data t) = size (dom ⟦t⟧ ∪ list_to_set data) ∧
  om_entries (insert_phase data (insert_phase data t))
    = om_entries (insert_phase data t) ∧
  om_count (insert_phase data (insert_phase data t))
    = om_count (insert_phase data t).
Proof.
  intros Ht.
  assert (⟦insert_phase data (insert_phase data t)⟧ = ⟦insert_phase data t⟧) as E.
  { rewrite !insert_phase_contents by auto with bench. apply inserted_twice. }
  split_and!; [| |apply entries_eq|apply count_eq]; auto with bench.
  - intros k. rewrite <- !to_map_lookup. fold (contents (insert_phase data t)).
    fold (contents t). by rewrite insert_phase_contents, inserted_lookup.
  - rewrite count_contents, insert_phase_contents by auto with bench.
    by rewrite <- inserted_dom, size_dom.
Qed.

Lemma insert_phase_idempotent_witness :
  let t : Splay.t := om_put 2 99 (om_put 7 7 om_empty) in
  (∀ k, al_lookup k (om_entries (insert_phase [2; 1; 2] t)) =
          if decide (k ∈ [2; 1; 2]) then Some k else al_lookup k (om_entries t)) ∧
  om_count (insert_phase [2; 1; 2] t) = size (dom ⟦t⟧ ∪ list_to_set [2; 1; 2]) ∧
  om_entries (insert_phase [2; 1; 2] (insert_phase [2; 1; 2] t))
    = om_entries (insert_phase [2; 1; 2] t) ∧
  om_count (insert_phase [2; 1; 2] (insert_phase [2; 1; 2] t))
    = om_count (insert_phase [2; 1; 2] t).
Proof.
  apply (insert_phase_idempotent (T:=Splay.t)).
  apply om_put_inv, om_put_inv, om_empty_inv.
Defined.

(** C19. Deleting absent keys is a no-op.  A delete phase whose keys are
    all absent from the tree leaves the in-order traversal and the count
    as they are. *)
Theorem delete_phase_absent `{OrderedMapLaws T} dels (t : T) :
  om_inv t →
  Forall (λ k, k ∉ keys (om_entries t)) dels →
  om_entries (delete_phase dels t) = om_entries t ∧
  om_count (delete_phase dels t) = om_count t.
Proof.
  intros Ht Hd.
  assert (⟦delete_phase dels t⟧ = ⟦t⟧) as E.
  { rewrite delete_phase_contents by done. apply deleted_absent.
    intros k Hk. rewrite Forall_forall in Hd. apply eq_None_not_Some.
    rewrite <- keys_contents. by apply Hd. }
  split; [apply entries_eq|apply count_eq]; auto with bench.
Qed.

Lemma delete_phase_absent_witness :
  om_entries (delete_phase [4; 0] (insert_phase (T:=BST.t) [2; 1; 3] om_empty))
    = om_entries (insert_phase (T:=BST.t) [2; 1; 3] om_empty) ∧
  om_count (delete_phase [4; 0] (insert_phase (T:=BST.t) [2; 1; 3] om_empty))
    = om_count (insert_phase (T:=BST.t) [2; 1; 3] om_empty).
Proof.
  apply (delete_phase_absent (T:=BST.t)); [apply insert_phase_inv, om_empty_inv|].
  apply (bool_decide_unpack _). by vm_compute.
Defined.
