(* ===== verification/Structures.v ===== *)
(** * Structures: the three trees under the harness

    What the blocks of [main] compute on each structure.  The results of
    [Harness] hold for every structure that meets the contract; the
    three structures meet it ([Unbalanced], [SplayTree], [Balance]), so
    this file states the results for each of them in terms of its own
    invariant, and adds what is particular to each: the unbalanced tree
    degenerates on sorted input, the red-black tree stays logarithmic,
    the splay tree brings the key accessed last to the root. *)

From stdpp Require Import gmap.
From S2P Require Import Prelude IO AList Tree OrderedMap.
From S2P Require Import Unbalanced SplayTree RedBlack Balance Harness.

(** ** Each structure under a block *)

(** The trees the three blocks of a data set end with (main.cpp:99-130,
    133-164 and 167-198). *)
Definition bst_block (ins srch dels : list Z) : BST.t := block_result ins srch dels.
Definition splay_block (ins srch dels : list Z) : Splay.t := block_result ins srch dels.
Definition rb_block (ins srch dels : list Z) : RB.t := block_result ins srch dels.

(** The entry at the root of a splay tree: the one accessed last. *)
Definition accessed (s : Splay.t) : option entry := root_entry (Splay.root s).

Lemma bst_block_inv ins srch dels :
  BST.inv (block_result (T:=BST.t) ins srch dels).
Proof. exact (block_result_inv (T:=BST.t) ins srch dels). Qed.

Lemma splay_block_inv ins srch dels :
  Splay.inv (block_result (T:=Splay.t) ins srch dels).
Proof. exact (block_result_inv (T:=Splay.t) ins srch dels). Qed.

Lemma rb_block_inv ins srch dels :
  RB.inv (block_result (T:=RB.t) ins srch dels).
Proof. exact (block_result_inv (T:=RB.t) ins srch dels). Qed.

(** ** Sorted input *)

Lemma bst_ascending_spine a n :
  let b : BST.t := insert_phase (seqZ a (Z.of_nat n)) om_empty in
  right_spine (BST.root b) ∧ height (BST.root b) = n ∧
  all_keys (λ x, x < a + Z.of_nat n) (BST.root b).
Proof.
  cbv zeta. induction n as [|n IH]; [done|].
  rewrite seqZ_S. unfold insert_phase in *.
  rewrite foldl_snoc. destruct IH as (Hs & Hh & Hk).
  destruct (BST.bst_insert_spine (a + Z.of_nat n) (a + Z.of_nat n) _ Hs Hk)
    as (H1 & H2 & H3).
  split_and!; [exact H1|etrans; [exact H2|by f_equal]|].
  replace (a + Z.of_nat (S n)) with (a + Z.of_nat n + 1) by lia. exact H3.
Qed.

(** ** Main results *)

(** C4. The unbalanced tree under a block.  Whatever the data, the tree
    a block leaves is a search tree whose stored count is its number of
    nodes, its in-order traversal is strictly increasing, and [contains]
    answers true exactly for the keys inserted and not deleted. *)
Theorem bst_block_correct ins srch dels :
  let b := bst_block ins srch dels in
  bst (BST.root b) ∧ BST.count b = nodes (BST.root b) ∧
  sorted (inorder (BST.root b)) ∧
  BST.count b = size (block_keys ins dels) ∧
  ∀ k, BST.contains k b = bool_decide (k ∈ ins ∧ k ∉ dels).
Proof.
  intros b. destruct (bst_block_inv ins srch dels) as [Hb Hc].
  split_and!; [done|done|by apply bst_sorted| |].
  - exact (block_result_count (T:=BST.t) ins srch dels).
  - intros k. exact (block_result_contains (T:=BST.t) ins srch dels k).
Qed.

(** C2. The red-black tree under a block.  Whatever the data, the tree
    a block leaves is a search tree with a black root, no red node with
    a red child and the same number of black nodes on every path from
    the root to an absent child; its stored count is its number of
    nodes, and [contains] answers true exactly for the keys inserted and
    not deleted. *)
Theorem rb_block_correct ins srch dels :
  let t := rb_block ins srch dels in
  bst (RB.root t) ∧
  RB.color_of (RB.root t) = RB.Black ∧ RB.no_red_red (RB.root t) ∧
  (∃ h, RB.black_height h (RB.root t)) ∧
  RB.count t = nodes (RB.root t) ∧
  RB.count t = size (block_keys ins dels) ∧
  ∀ k, RB.contains k t = bool_decide (k ∈ ins ∧ k ∉ dels).
Proof.
  intros t. destruct (rb_block_inv ins srch dels) as (Hb & (? & ? & ?) & Hc).
  split_and!; [done..| |].
  - exact (block_result_count (T:=RB.t) ins srch dels).
  - intros k. exact (block_result_contains (T:=RB.t) ins srch dels k).
Qed.

(** C3. The splay tree under a block.  Whatever the data, and although
    every operation of the block reshapes the tree, the tree a block
    leaves is a search tree whose stored count is its number of nodes,
    and [contains] answers true exactly for the keys inserted and not
    deleted. *)
Theorem splay_block_correct ins srch dels :
  let s := splay_block ins srch dels in
  bst (Splay.root s) ∧ Splay.count s = nodes (Splay.root s) ∧
  Splay.count s = size (block_keys ins dels) ∧
  ∀ k, (Splay.contains k s).1 = bool_decide (k ∈ ins ∧ k ∉ dels).
Proof.
  intros s. destruct (splay_block_inv ins srch dels) as [Hb Hc].
  split_and!; [done|done| |].
  - exact (block_result_count (T:=Splay.t) ins srch dels).
  - intros k. exact (block_result_contains (T:=Splay.t) ins srch dels k).
Qed.

(** C5. The three structures agree.  On the same data the three blocks
    of a data set end with trees that have the same in-order traversal
    and the same count, whatever their shapes: the benchmark compares
    three implementations of one map. *)
Theorem structures_agree ins srch dels :
  let b := bst_block ins srch dels in
  let s := splay_block ins srch dels in
  let t := rb_block ins srch dels in
  inorder (BST.root b) = inorder (Splay.root s) ∧
  inorder (Splay.root s) = inorder (RB.root t) ∧
  BST.count b = Splay.count s ∧ Splay.count s = RB.count t.
Proof.
  intros b s t.
  assert (⟦b⟧ = ⟦s⟧ ∧ ⟦s⟧ = ⟦t⟧) as [E1 E2].
  { unfold b, s, t, bst_block, splay_block, rb_block.
    by rewrite !block_result_contents. }
  pose proof (bst_block_inv ins srch dels) as Hb.
  pose proof (splay_block_inv ins srch dels) as Hs.
  pose proof (rb_block_inv ins srch dels) as Ht.
  split_and!.
  - exact (entries_eq b s Hb Hs E1).
  - exact (entries_eq s t Hs Ht E2).
  - exact (count_eq b s Hb Hs E1).
  - exact (count_eq s t Hs Ht E2).
Qed.

(** C10. The red-black tree stays balanced.  After a block the height
    of the red-black tree is at most twice the logarithm of the number
    of values inserted plus one. *)
Theorem rb_block_balanced ins srch dels :
  let t := rb_block ins srch dels in
  (height (RB.root t) ≤ 2 * Nat.log2 (length ins + 1))%nat.
Proof.
  intros t. destruct (rb_block_inv ins srch dels) as (_ & Hrb & _).
  etrans; [by apply red_black_height|]. apply Nat.mul_le_mono_l, Nat.log2_le_mono.
  assert (length (inorder (RB.root t)) ≤ length ins)%nat as Hl
    by exact (block_result_length (T:=RB.t) ins srch dels).
  rewrite nodes_inorder. lia.
Qed.

(** C14. Sorted input defeats the unbalanced tree.  Inserting [n]
    consecutive values in increasing order leaves the unbalanced tree as
    a list: no node has a left child and the height is [n]. *)
Theorem bst_sorted_input_linear a n :
  let b := bst_block (seqZ a (Z.of_nat n)) [] [] in
  right_spine (BST.root b) ∧ height (BST.root b) = n.
Proof. intros b. by destruct (bst_ascending_spine a n) as (? & ? & _). Qed.

(** C11. Splay to the root.  On the splay tree the last value of an
    insert phase is at the root when the phase ends, and so is the last
    key of a search phase when it is in the tree. *)
Theorem splay_access_to_root data k (s : Splay.t) :
  Splay.inv s →
  accessed (insert_phase (data ++ [k]) s) = Some (k, k) ∧
  (k ∈ keys (Splay.entries s) →
   accessed (search_phase (data ++ [k]) s)
     = (k,.) <$> al_lookup k (Splay.entries s)).
Proof.
  intros Hs. unfold accessed. rewrite insert_phase_snoc, search_phase_snoc. split.
  - exact (Splay.splay_put_root k k _ (insert_phase_inv (T:=Splay.t) data s Hs)).
  - intros Hk.
    pose proof (search_phase_inv (T:=Splay.t) data s Hs) as Hi.
    assert (Splay.entries (search_phase data s) = Splay.entries s) as E
      by exact (search_phase_entries (T:=Splay.t) data s Hs).
    rewrite <- E in Hk |- *. exact (Splay.splay_contains_root k _ Hi Hk).
Qed.

Lemma splay_access_to_root_witness :
  let s : Splay.t := insert_phase [8; 1] om_empty in
  accessed (insert_phase ([5; 3] ++ [8]) s) = Some (8, 8) ∧
  accessed (search_phase ([1; 5] ++ [8]) s) = Some (8, 8).
Proof.
  intros s.
  assert (Splay.inv s) as Hs
    by exact (insert_phase_inv (T:=Splay.t) [8; 1] om_empty Splay.splay_empty_inv).
  split.
  - exact (proj1 (splay_access_to_root [5; 3] 8 s Hs)).
  - apply (proj2 (splay_access_to_root [1; 5] 8 s Hs)).
    apply (bool_decide_unpack _). by vm_compute.
Defined.
